(** * Ingestion pipeline of the knowledge base: a shallow embedding

    The development follows the three services of the repository:

    - [document_service.py]: [DocumentProcessor.generate_document_id] and
      [DocumentProcessor._chunk_content];
    - [pii_service.py]: the pattern table, [_detect_with_regex],
      [detect_pii] and [redact_pii];
    - [embedding_service.py]: [embed_text], [embed_texts] and
      [compute_similarity].

    and, around them, [DocumentProcessor.detect_file_type], the batches
    of [PineconeService.upsert_vectors] and the validators of the list
    settings of [Config.py].

    Python [str] values are modelled as lists of 8-bit code points
    ([list ascii], i.e. the Latin-1 range of Unicode), [bytes] as
    [list byte], Python [int] as [Z] (or [nat] for lengths and offsets
    that are never negative) and Python [float] as the binary64 primitive
    floats of the kernel. *)

From Stdlib Require Import List ZArith NArith Lia Bool Arith.
From Stdlib Require Import Strings.Ascii Strings.String Strings.Byte.
From Stdlib Require Import DecimalString.
From Stdlib Require Import Sorting.Permutation Sorting.Sorted.
From Stdlib Require Floats.PrimFloat Floats.FloatOps Floats.FloatAxioms Floats.SpecFloat.
From Stdlib Require DecimalNat DecimalFacts.
Import ListNotations.

Set Implicit Arguments.

(* ================================================================== *)
(** * Python built-ins used by the services *)
(* ================================================================== *)

Module Py.

(** A Python [str], restricted to code points below 256. *)
Definition str := list ascii.

(** String literals. *)
Definition lit (s : string) : str := list_ascii_of_string s.

Definition code (c : ascii) : nat := nat_of_ascii c.

Definition between (lo hi n : nat) : bool := (lo <=? n) && (n <=? hi).

(** [str.isspace] on one code point: TAB..CR, FS..US, space, NEL, NBSP. *)
Definition isspace (c : ascii) : bool :=
  let n := code c in
  between 9 13 n || between 28 32 n || (n =? 133) || (n =? 160).

(** [s.lstrip()], [s.rstrip()], [s.strip()] with no argument. *)
Fixpoint lstrip (s : str) : str :=
  match s with
  | c :: t => if isspace c then lstrip t else s
  | [] => []
  end.

Definition rstrip (s : str) : str := rev (lstrip (rev s)).

Definition strip (s : str) : str := rstrip (lstrip s).

Definition NL : ascii := ascii_of_nat 10.

Definition is_nl (c : ascii) : bool := code c =? 10.

(** [s.split("\n\n")]: the pieces between the non-overlapping occurrences
    of a blank line, found from the left.  [cur] is the piece being
    read, reversed. *)
Fixpoint split_blank_acc (s : str) (cur : str) : list str :=
  match s with
  | [] => [rev cur]
  | c1 :: t1 =>
      match t1 with
      | c2 :: t2 =>
          if is_nl c1 && is_nl c2
          then rev cur :: split_blank_acc t2 []
          else split_blank_acc t1 (c1 :: cur)
      | [] => split_blank_acc t1 (c1 :: cur)
      end
  end.

Definition split_blank (s : str) : list str := split_blank_acc s [].

(** [s[a:]], [s[:b]] and [s[a:b]] for non-negative bounds; Python clamps
    the bounds to the length, as [skipn] and [firstn] do. *)
Definition slice_from (s : str) (a : nat) : str := skipn a s.
Definition slice_to (s : str) (b : nat) : str := firstn b s.
Definition slice (s : str) (a b : nat) : str := firstn (b - a) (skipn a s).

(** [s.encode()] (UTF-8) on code points below 256. *)
Definition utf8_char (c : ascii) : list byte :=
  let n := N_of_ascii c in
  if (n <? 128)%N then [byte_of_ascii c]
  else
    match Byte.of_N (192 + N.shiftr n 6), Byte.of_N (128 + N.land n 63) with
    | Some b1, Some b2 => [b1; b2]
    | _, _ => []
    end.

Definition encode (s : str) : list byte := flat_map utf8_char s.

(** [sorted(...)] and [list.sort(...)] are stable: [x], which comes
    before the elements of [l] in the input, goes in front of the first
    element that does not have to precede it. *)
Fixpoint insert_by (A : Type) (precedes : A -> A -> bool) (x : A) (l : list A)
  : list A :=
  match l with
  | [] => [x]
  | y :: t => if precedes y x then y :: insert_by precedes x t else x :: l
  end.

Definition sorted_by (A : Type) (precedes : A -> A -> bool) (l : list A)
  : list A :=
  fold_right (insert_by precedes) [] l.

(** [bytes] literals. *)
Definition blit (s : string) : list byte := map byte_of_ascii (lit s).

End Py.

(* ================================================================== *)
(** * [hashlib.sha256] *)
(* ================================================================== *)

Module Sha256.

Local Open Scope Z_scope.

Definition wrap (x : Z) : Z := x mod 2 ^ 32.

Definition addw (x y : Z) : Z := wrap (x + y).

Definition rotr (n x : Z) : Z :=
  Z.lor (Z.shiftr x n) (wrap (Z.shiftl x (32 - n))).

Definition notw (x : Z) : Z := wrap (Z.lnot x).

Definition ch (x y z : Z) : Z := Z.lxor (Z.land x y) (Z.land (notw x) z).

Definition maj (x y z : Z) : Z :=
  Z.lxor (Z.lxor (Z.land x y) (Z.land x z)) (Z.land y z).

Definition bsig0 (x : Z) : Z :=
  Z.lxor (Z.lxor (rotr 2 x) (rotr 13 x)) (rotr 22 x).

Definition bsig1 (x : Z) : Z :=
  Z.lxor (Z.lxor (rotr 6 x) (rotr 11 x)) (rotr 25 x).

Definition ssig0 (x : Z) : Z :=
  Z.lxor (Z.lxor (rotr 7 x) (rotr 18 x)) (Z.shiftr x 3).

Definition ssig1 (x : Z) : Z :=
  Z.lxor (Z.lxor (rotr 17 x) (rotr 19 x)) (Z.shiftr x 10).

(** The constants of the standard are the first 32 bits of the fractional
    parts of the square roots (initial hash) and of the cube roots (round
    constants) of the first primes. *)
Definition is_prime (n : nat) : bool :=
  forallb (fun d => negb (Nat.modulo n d =? 0)%nat) (List.seq 2 (n - 2)).

Definition first_primes (count : nat) : list Z :=
  map Z.of_nat (firstn count (filter is_prime (List.seq 2 310))).

(** The integer cube root of [n], one bit at a time from bit [bits - 1]. *)
Fixpoint cube_root_from (bits : nat) (n root : Z) : Z :=
  match bits with
  | O => root
  | S k =>
      let candidate := root + 2 ^ Z.of_nat k in
      cube_root_from k n
        (if candidate * candidate * candidate <=? n then candidate else root)
  end.

Definition fraction_bits_cbrt (p : Z) : Z :=
  wrap (cube_root_from 36 (p * 2 ^ 96) 0).

Definition fraction_bits_sqrt (p : Z) : Z := wrap (Z.sqrt (p * 2 ^ 64)).

Definition round_constants : list Z :=
  Eval vm_compute in map fraction_bits_cbrt (first_primes 64).

Definition initial_hash : list Z :=
  Eval vm_compute in map fraction_bits_sqrt (first_primes 8).

Definition byte_val (b : byte) : Z := Z.of_N (Byte.to_N b).

(** Big-endian bytes of [x], [n] of them. *)
Fixpoint be_bytes (n : nat) (x : Z) : list Z :=
  match n with
  | O => []
  | S k => (Z.shiftr x (8 * Z.of_nat k)) mod 256 :: be_bytes k x
  end.

(** Padding: one [0x80], zeros up to 56 mod 64, the bit length on 64 bits. *)
Definition pad (msg : list Z) : list Z :=
  let len := Z.of_nat (List.length msg) in
  let zeros := Z.to_nat ((55 - len) mod 64) in
  msg ++ 0x80 :: repeat 0 zeros ++ be_bytes 8 (8 * len).

Fixpoint words (fuel : nat) (bs : list Z) : list Z :=
  match fuel, bs with
  | S f, b0 :: b1 :: b2 :: b3 :: t =>
      (b0 * 2 ^ 24 + b1 * 2 ^ 16 + b2 * 2 ^ 8 + b3) :: words f t
  | _, _ => []
  end.

Fixpoint blocks (fuel : nat) (ws : list Z) : list (list Z) :=
  match fuel, ws with
  | S f, _ :: _ => firstn 16 ws :: blocks f (skipn 16 ws)
  | _, _ => []
  end.

(** Message schedule; [w] holds the words computed so far, newest first. *)
Fixpoint schedule (n : nat) (w : list Z) : list Z :=
  match n with
  | O => w
  | S k =>
      let nw := addw (addw (ssig1 (nth 1 w 0)) (nth 6 w 0))
                     (addw (ssig0 (nth 14 w 0)) (nth 15 w 0)) in
      schedule k (nw :: w)
  end.

Definition state := (Z * Z * Z * Z * Z * Z * Z * Z)%type.

Definition step (s : state) (kw : Z * Z) : state :=
  let '(a, b, c, d, e, f, g, h) := s in
  let t1 := addw (addw (addw h (bsig1 e)) (addw (ch e f g) (fst kw))) (snd kw) in
  let t2 := addw (bsig0 a) (maj a b c) in
  (addw t1 t2, a, b, c, addw d t1, e, f, g).

Definition compress (s : state) (block : list Z) : state :=
  let w := rev (schedule 48 (rev block)) in
  let '(a, b, c, d, e, f, g, h) := fold_left step (combine round_constants w) s in
  let '(a0, b0, c0, d0, e0, f0, g0, h0) := s in
  (addw a0 a, addw b0 b, addw c0 c, addw d0 d,
   addw e0 e, addw f0 f, addw g0 g, addw h0 h).

Definition state_of_list (l : list Z) : state :=
  (nth 0%nat l 0, nth 1%nat l 0, nth 2%nat l 0, nth 3%nat l 0,
   nth 4%nat l 0, nth 5%nat l 0, nth 6%nat l 0, nth 7%nat l 0).

Definition list_of_state (s : state) : list Z :=
  let '(a, b, c, d, e, f, g, h) := s in [a; b; c; d; e; f; g; h].

Definition digest_words (msg : list byte) : list Z :=
  let p := pad (map byte_val msg) in
  let ws := words (List.length p) p in
  list_of_state
    (fold_left compress (blocks (List.length ws) ws) (state_of_list initial_hash)).

Definition hex_digit (n : Z) : ascii :=
  ascii_of_nat (Z.to_nat (if n <? 10 then 48 + n else 87 + n)).

Fixpoint hex_of (digits : nat) (x : Z) : Py.str :=
  match digits with
  | O => []
  | S k => hex_digit ((Z.shiftr x (4 * Z.of_nat k)) mod 16) :: hex_of k x
  end.

(** [hashlib.sha256(msg).hexdigest()] *)
Definition hexdigest (msg : list byte) : Py.str :=
  flat_map (hex_of 8) (digest_words msg).

End Sha256.

(* ================================================================== *)
(** * Configuration ([Config.py]): the settings the services read *)
(* ================================================================== *)

Record Settings : Type := mkSettings {
  CHUNK_SIZE : Z;
  CHUNK_OVERLAP : Z;
  PII_DETECTION_ENABLED : bool;
  GOOGLE_API_KEY : option Py.str;
  EMBEDDING_MODEL : Py.str;
  EMBEDDING_CACHE_ENABLED : bool
}.

(** The defaults of the [Field] declarations. *)
Definition default_settings : Settings :=
  {| CHUNK_SIZE := 1000;
     CHUNK_OVERLAP := 200;
     PII_DETECTION_ENABLED := true;
     GOOGLE_API_KEY := None;
     EMBEDDING_MODEL := Py.lit "sentence-transformers/all-MiniLM-L6-v2";
     EMBEDDING_CACHE_ENABLED := true |}.

(* ================================================================== *)
(** * [document_service.py] *)
(* ================================================================== *)

Module DocumentService.

Import Py.

(** [DocumentProcessor.generate_document_id] *)
Definition generate_document_id (content : list byte) (filename : str) : str :=
  let hash_input := content ++ encode filename in
  slice_to (Sha256.hexdigest hash_input) 16.

(** Values stored in the metadata dictionary of a document. *)
Inductive MetaValue : Type :=
| MNone
| MBool (b : bool)
| MInt (n : Z)
| MStr (s : str).

Definition Metadata := list (str * MetaValue).

Definition str_eqb (a b : str) : bool :=
  if list_eq_dec ascii_dec a b then true else false.

(** [d[k] = v] on a dictionary kept in insertion order. *)
Fixpoint dict_set (d : Metadata) (k : str) (v : MetaValue) : Metadata :=
  match d with
  | [] => [(k, v)]
  | (k', v') :: t =>
      if str_eqb k' k then (k', v) :: t else (k', v') :: dict_set t k v
  end.

Record Chunk : Type := mkChunk {
  chunk_id : str;
  document_id : str;
  content : str;
  chunk_index : nat;
  char_count : nat;
  word_count : nat;
  metadata : Metadata
}.

(** [str(n)] for a non-negative integer. *)
Definition str_of_nat (n : nat) : str :=
  lit (NilZero.string_of_uint (Nat.to_uint n)).

(** [len(s.split())]: the number of maximal runs of non-space characters;
    [inword] tells whether the previous character was part of a word. *)
Fixpoint count_words (s : str) (inword : bool) : nat :=
  match s with
  | [] => 0
  | c :: t =>
      if isspace c then count_words t false
      else if inword then count_words t true
      else S (count_words t true)
  end.

(** [DocumentProcessor._create_chunk] *)
Definition _create_chunk (content : str) (document_id : str)
           (chunk_index : nat) (metadata : Metadata) : Chunk :=
  {| chunk_id := document_id ++ lit "_chunk_" ++ str_of_nat chunk_index;
     document_id := document_id;
     content := content;
     chunk_index := chunk_index;
     char_count := List.length content;
     word_count := count_words content false;
     metadata := dict_set metadata (lit "chunk_index") (MInt (Z.of_nat chunk_index)) |}.

(** [x or default] on an optional integer: [None] and [0] are falsy. *)
Definition or_default (x : option Z) (d : Z) : Z :=
  match x with
  | Some v => if (v =? 0)%Z then d else v
  | None => d
  end.

Definition nonempty (s : str) : bool :=
  match s with [] => false | _ :: _ => true end.

(** The loop state of [_chunk_content]: the chunks emitted so far, the
    running buffer [current_chunk] and the next [chunk_index]. *)
Record ChunkLoop : Type := mkLoop {
  chunks : list Chunk;
  current_chunk : str;
  next_index : nat
}.

(** One iteration of [for para in paragraphs]. *)
Definition chunk_step (document_id : str) (metadata : Metadata)
           (chunk_size chunk_overlap : Z) (st : ChunkLoop) (para0 : str) : ChunkLoop :=
  let para := strip para0 in
  if negb (nonempty para) then st
  else
    let st1 :=
      if (Z.of_nat (List.length (current_chunk st) + List.length para + 2) >? chunk_size)%Z
      then
        if nonempty (current_chunk st) then
          let emitted :=
            _create_chunk (strip (current_chunk st)) document_id (next_index st) metadata in
          let overlap_start :=
            Z.max 0 (Z.of_nat (List.length (current_chunk st)) - chunk_overlap) in
          let seed := strip (slice_from (current_chunk st) (Z.to_nat overlap_start)) in
          {| chunks := chunks st ++ [emitted];
             current_chunk := if nonempty seed then seed ++ [NL; NL] else seed;
             next_index := S (next_index st) |}
        else st
      else st in
    {| chunks := chunks st1;
       current_chunk := current_chunk st1 ++ para ++ [NL; NL];
       next_index := next_index st1 |}.

(** [DocumentProcessor._chunk_content] *)
Definition _chunk_content (settings : Settings) (content : str) (document_id : str)
           (metadata : Metadata) (chunk_size chunk_overlap : option Z) : list Chunk :=
  let chunk_size := or_default chunk_size (CHUNK_SIZE settings) in
  let chunk_overlap := or_default chunk_overlap (CHUNK_OVERLAP settings) in
  let text := strip content in
  if negb (nonempty text) then []
  else
    let paragraphs := split_blank text in
    let st :=
      fold_left (chunk_step document_id metadata chunk_size chunk_overlap)
                paragraphs
                {| chunks := []; current_chunk := []; next_index := 0 |} in
    if nonempty (strip (current_chunk st))
    then chunks st ++
         [_create_chunk (strip (current_chunk st)) document_id (next_index st) metadata]
    else chunks st.

End DocumentService.

(* ================================================================== *)
(** * The part of [re] that the pattern table uses *)
(* ================================================================== *)

Module Re.

Import Py.

(** ** Character categories, on code points below 256 *)

Definition isdigit (c : ascii) : bool := between 48 57 (code c).

(** [\w]: what [str.isalnum] accepts, and the underscore. *)
Definition isword (c : ascii) : bool :=
  let n := code c in
  between 48 57 n || between 65 90 n || (n =? 95) || between 97 122 n
  || (n =? 170) || between 178 179 n || (n =? 181) || between 185 186 n
  || between 188 190 n || between 192 214 n || between 216 246 n
  || between 248 255 n.

(** The simple lower-case mapping. *)
Definition lower_code (n : nat) : nat :=
  if between 65 90 n || between 192 214 n || between 216 222 n
  then n + 32 else n.

Definition lower (c : ascii) : ascii := ascii_of_nat (lower_code (code c)).

(** Whether a lower-case code is the image of an upper-case one. *)
Definition has_upper (n : nat) : bool :=
  between 97 122 n || between 224 246 n || between 248 254 n.

Inductive cls_item : Type :=
| CChar (c : ascii)
| CRange (lo hi : ascii)
| CSpace
| CWord
| CDigit.

(** Membership of [x] in one item of a set under [re.IGNORECASE]: the
    literals and ranges of the set are lower-cased when the pattern is
    compiled and compared with the lower-cased input character. *)
Definition item_match (it : cls_item) (x : ascii) : bool :=
  let lx := lower_code (code x) in
  match it with
  | CChar c => lower_code (code c) =? lx
  | CRange lo hi =>
      between (code lo) (code hi) lx
      || (has_upper lx && between (code lo) (code hi) (lx - 32))
  | CSpace => isspace x
  | CWord => isword x
  | CDigit => isdigit x
  end.

(** ** Patterns *)

Inductive regex : Type :=
| Eps
| Lit (c : ascii)
| Set_ (negate : bool) (items : list cls_item)
| Cat (r1 r2 : regex)
| Alt (r1 r2 : regex)
| Rep (lo : nat) (hi : option nat) (r : regex)
| Group (n : nat) (r : regex)
| Boundary.

(** ** Backtracking matcher

    A cursor is a position in the subject: the character before it (for
    [\b]), the offset, the characters after it and the spans of the
    groups closed so far, the last closed first. *)
Record cursor : Type := mkCursor {
  prev : option ascii;
  pos : nat;
  rest : str;
  groups : list (nat * (nat * nat))
}.

Definition advance (cu : cursor) (x : ascii) (t : str) : cursor :=
  {| prev := Some x; pos := S (pos cu); rest := t; groups := groups cu |}.

Definition close_group (cu : cursor) (n : nat) (from : nat) : cursor :=
  {| prev := prev cu; pos := pos cu; rest := rest cu;
     groups := (n, (from, pos cu))
               :: filter (fun g => negb (fst g =? n)) (groups cu) |}.

Definition wordish (c : option ascii) : bool :=
  match c with Some x => isword x | None => false end.

Definition at_boundary (cu : cursor) : bool :=
  xorb (wordish (prev cu)) (wordish (hd_error (rest cu))).

Definition below (hi : option nat) (count : nat) : bool :=
  match hi with Some h => count <? h | None => true end.

Definition K := cursor -> option cursor.

(** Greedy repetition of [step]: at least [lo] and at most [hi] times,
    one more iteration tried before the continuation.  An iteration that
    consumes nothing is not repeated (no pattern of the table has such a
    body), so [fuel] above the number of remaining characters is never
    exhausted. *)
Fixpoint rep_loop (step : cursor -> K -> option cursor)
         (lo : nat) (hi : option nat) (fuel count : nat)
         (cu : cursor) (k : K) : option cursor :=
  match fuel with
  | O => None
  | S f =>
      let more :=
        step cu (fun cu' =>
                   if pos cu <? pos cu'
                   then rep_loop step lo hi f (S count) cu' k
                   else None) in
      if count <? lo then more
      else if below hi count then
             match more with
             | Some r => Some r
             | None => k cu
             end
           else k cu
  end.

(** The matcher tries the alternatives in the order of [re]: the first
    branch of an alternation first, the longest repetition first.  A
    repetition starts with one unit of fuel more than the characters that
    remain, and [extra] more; the fuel never runs out, whatever [extra]
    is. *)
Fixpoint m_with (extra : nat) (r : regex) (cu : cursor) (k : K) {struct r}
  : option cursor :=
  match r with
  | Eps => k cu
  | Lit c =>
      match rest cu with
      | x :: t => if item_match (CChar c) x then k (advance cu x t) else None
      | [] => None
      end
  | Set_ negate items =>
      match rest cu with
      | x :: t =>
          if xorb negate (existsb (fun it => item_match it x) items)
          then k (advance cu x t) else None
      | [] => None
      end
  | Cat r1 r2 => m_with extra r1 cu (fun cu' => m_with extra r2 cu' k)
  | Alt r1 r2 =>
      match m_with extra r1 cu k with
      | Some e => Some e
      | None => m_with extra r2 cu k
      end
  | Rep lo hi r1 =>
      rep_loop (m_with extra r1) lo hi
               (extra + S (List.length (rest cu))) 0 cu k
  | Group n r1 =>
      m_with extra r1 cu (fun cu' => k (close_group cu' n (pos cu)))
  | Boundary => if at_boundary cu then k cu else None
  end.

Definition m (r : regex) (cu : cursor) (k : K) : option cursor :=
  m_with 0 r cu k.

(** ** Match objects *)

Record Match : Type := mkMatch {
  m_start : nat;
  m_end : nat;
  m_groups : list (nat * (nat * nat))
}.

(** [match.lastindex] *)
Definition lastindex (ma : Match) : option nat :=
  match m_groups ma with
  | [] => None
  | (n, _) :: _ => Some n
  end.

(** [match.span(g)]; a group that took no part in the match has span
    (-1, -1) in Python, which the callers here never read. *)
Definition span (ma : Match) (g : nat) : nat * nat :=
  match g with
  | O => (m_start ma, m_end ma)
  | _ =>
      match find (fun e => fst e =? g) (m_groups ma) with
      | Some e => snd e
      | None => (0, 0)
      end
  end.

Definition start_ (ma : Match) (g : nat) : nat := fst (span ma g).
Definition end_ (ma : Match) (g : nat) : nat := snd (span ma g).

(** [match.group(g)], as a slice of the subject. *)
Definition group (subject : str) (ma : Match) (g : nat) : str :=
  slice subject (start_ ma g) (end_ ma g).

Definition match_at (r : regex) (p : option ascii) (i : nat) (s : str)
  : option cursor :=
  m r {| prev := p; pos := i; rest := s; groups := [] |} (fun cu => Some cu).

(** [re.finditer]: the leftmost match at or after each position, the
    scan resuming where the match ended.  [skip] counts the characters
    still to pass before the next attempt; after an empty match the scan
    moves on by one character (no pattern of the table matches the empty
    string). *)
Fixpoint scan (r : regex) (p : option ascii) (i : nat) (s : str)
         (skip : nat) {struct s} : list Match :=
  match skip with
  | S k =>
      match s with
      | c :: t => scan r (Some c) (S i) t k
      | [] => []
      end
  | O =>
      match match_at r p i s with
      | Some e =>
          {| m_start := i; m_end := pos e; m_groups := groups e |}
          :: match s with
             | c :: t => scan r (Some c) (S i) t (pos e - i - 1)
             | [] => []
             end
      | None =>
          match s with
          | c :: t => scan r (Some c) (S i) t 0
          | [] => []
          end
      end
  end.

Definition finditer (r : regex) (subject : str) : list Match :=
  scan r None 0 subject 0.

(** ** Abbreviations for writing patterns *)

Fixpoint seq (rs : list regex) : regex :=
  match rs with
  | [] => Eps
  | [r] => r
  | r :: t => Cat r (seq t)
  end.

Fixpoint alts (rs : list regex) : regex :=
  match rs with
  | [] => Eps
  | [r] => r
  | r :: t => Alt r (alts t)
  end.

Definition word (s : string) : regex := seq (map Lit (lit s)).
Definition star (r : regex) : regex := Rep 0 None r.
Definition plus (r : regex) : regex := Rep 1 None r.
Definition opt (r : regex) : regex := Rep 0 (Some 1) r.
Definition times (n : nat) (r : regex) : regex := Rep n (Some n) r.
Definition atleast (n : nat) (r : regex) : regex := Rep n None r.
Definition chars (s : string) : list cls_item := map CChar (lit s).
Definition range (lo hi : string) : cls_item :=
  match lo, hi with
  | String a _, String b _ => CRange a b
  | _, _ => CRange zero zero
  end.
Definition oneof (items : list cls_item) : regex := Set_ false items.
Definition noneof (items : list cls_item) : regex := Set_ true items.

End Re.

(* ================================================================== *)
(** * [pii_service.py] *)
(* ================================================================== *)

Module PIIService.

Import Py Re.
Import PrimFloat.

(** [api_schemas.PIICategory] *)
Inductive PIICategory : Type :=
| PASSWORD | API_KEY | CREDIT_CARD | SSN | EMAIL | PHONE | ADDRESS.

Definition value (c : PIICategory) : str :=
  match c with
  | PASSWORD => lit "password"
  | API_KEY => lit "api_key"
  | CREDIT_CARD => lit "credit_card"
  | SSN => lit "ssn"
  | EMAIL => lit "email"
  | PHONE => lit "phone"
  | ADDRESS => lit "address"
  end.

(** [list(PIICategory)] *)
Definition all_categories : list PIICategory :=
  [PASSWORD; API_KEY; CREDIT_CARD; SSN; EMAIL; PHONE; ADDRESS].

Definition PIICategory_eq_dec (a b : PIICategory) : {a = b} + {a <> b}.
Proof. decide equality. Defined.

Definition cat_eqb (a b : PIICategory) : bool :=
  if PIICategory_eq_dec a b then true else false.

Definition cat_mem (c : PIICategory) (l : list PIICategory) : bool :=
  existsb (cat_eqb c) l.

(** ** The pattern table [self._patterns]

    Each pattern is written next to its source text, in which SQ stands
    for the single and DQ for the double quote character. *)

Definition SQ : ascii := ascii_of_nat 39.
Definition DQ : ascii := ascii_of_nat 34.

Definition ws : regex := oneof [CSpace].
Definition digit : regex := oneof [CDigit].
Definition wordch : regex := oneof [CWord].
Definition quote : regex := oneof [CChar SQ; CChar DQ].
Definition colon_eq : regex := oneof (chars ":=").
Definition alnum : list cls_item := [range "a" "z"; range "A" "Z"; range "0" "9"].

(** [<keyword>\s*[:=]\s*[SQ DQ]?([^\s SQ DQ]+)[SQ DQ]?] *)
Definition credential (keyword : regex) : regex :=
  seq [keyword; star ws; colon_eq; star ws; opt quote;
       Group 1 (plus (noneof [CSpace; CChar SQ; CChar DQ])); opt quote].

(** [<keyword>\s*[:=]\s*[SQ DQ]?([a-zA-Z0-9_-]{20,})[SQ DQ]?] *)
Definition token (keyword : regex) : regex :=
  seq [keyword; star ws; colon_eq; star ws; opt quote;
       Group 1 (atleast 20 (oneof (alnum ++ chars "_-"))); opt quote].

Definition sep_dash : regex := oneof (chars "_-").

Definition _patterns (c : PIICategory) : list regex :=
  match c with
  | PASSWORD =>
      [ credential (word "password");
        credential (word "pwd");
        credential (word "pass") ]
  | API_KEY =>
      [ (* api[_-]?key ... *)
        token (seq [word "api"; opt sep_dash; word "key"]);
        (* secret[_-]?key ... *)
        token (seq [word "secret"; opt sep_dash; word "key"]);
        (* access[_-]?token ... *)
        token (seq [word "access"; opt sep_dash; word "token"]);
        (* sk-[a-zA-Z0-9]{32,} *)
        seq [word "sk-"; atleast 32 (oneof alnum)];
        (* pk-[a-zA-Z0-9]{32,} *)
        seq [word "pk-"; atleast 32 (oneof alnum)];
        (* AIza[a-zA-Z0-9_-]{35} *)
        seq [word "AIza"; times 35 (oneof (alnum ++ chars "_-"))] ]
  | CREDIT_CARD =>
      [ (* \b(?:4[0-9]{12}(?:[0-9]{3})?|5[1-5][0-9]{14}|3[47][0-9]{13}
               |6(?:011|5[0-9]{2})[0-9]{12})\b *)
        seq [Boundary;
             alts [ seq [word "4"; times 12 (oneof [range "0" "9"]);
                         opt (times 3 (oneof [range "0" "9"]))];
                    seq [word "5"; oneof [range "1" "5"];
                         times 14 (oneof [range "0" "9"])];
                    seq [word "3"; oneof (chars "47");
                         times 13 (oneof [range "0" "9"])];
                    seq [word "6";
                         alts [word "011";
                               seq [word "5"; times 2 (oneof [range "0" "9"])]];
                         times 12 (oneof [range "0" "9"])] ];
             Boundary] ]
  | SSN =>
      [ (* \b\d{3}[-\s]?\d{2}[-\s]?\d{4}\b *)
        seq [Boundary; times 3 digit; opt (oneof [CChar "-"; CSpace]);
             times 2 digit; opt (oneof [CChar "-"; CSpace]);
             times 4 digit; Boundary] ]
  | EMAIL =>
      [ (* \b[A-Za-z0-9._%+-]+@[A-Za-z0-9.-]+\.[A-Z|a-z]{2,}\b *)
        seq [Boundary;
             plus (oneof ([range "A" "Z"; range "a" "z"; range "0" "9"]
                          ++ chars "._%+-"));
             word "@";
             plus (oneof ([range "A" "Z"; range "a" "z"; range "0" "9"]
                          ++ chars ".-"));
             word ".";
             atleast 2 (oneof [range "A" "Z"; CChar "|"; range "a" "z"]);
             Boundary] ]
  | PHONE =>
      [ (* \b(?:\+?1[-.\s]?)?\(?[2-9]\d{2}\)?[-.\s]?\d{3}[-.\s]?\d{4}\b *)
        seq [Boundary;
             opt (seq [opt (word "+"); word "1";
                       opt (oneof [CChar "-"; CChar "."; CSpace])]);
             opt (word "("); oneof [range "2" "9"]; times 2 digit;
             opt (word ")");
             opt (oneof [CChar "-"; CChar "."; CSpace]); times 3 digit;
             opt (oneof [CChar "-"; CChar "."; CSpace]); times 4 digit;
             Boundary];
        (* \b\d{3}[-.\s]\d{3}[-.\s]\d{4}\b *)
        seq [Boundary; times 3 digit;
             oneof [CChar "-"; CChar "."; CSpace]; times 3 digit;
             oneof [CChar "-"; CChar "."; CSpace]; times 4 digit;
             Boundary] ]
  | ADDRESS =>
      [ (* \b\d{1,5}\s+\w+(?:\s+\w+)*\s+(?:Street|St|Avenue|Ave|Road|Rd
               |Boulevard|Blvd|Drive|Dr|Lane|Ln|Court|Ct)\b *)
        seq [Boundary; Rep 1 (Some 5) digit; plus ws; plus wordch;
             star (seq [plus ws; plus wordch]); plus ws;
             alts (map word ["Street"; "St"; "Avenue"; "Ave"; "Road"; "Rd";
                             "Boulevard"; "Blvd"; "Drive"; "Dr"; "Lane";
                             "Ln"; "Court"; "Ct"]%string);
             Boundary] ]
  end.

(** [self._redaction_strings] *)
Definition _redaction_strings (c : PIICategory) : str :=
  match c with
  | PASSWORD => lit "[REDACTED_PASSWORD]"
  | API_KEY => lit "[REDACTED_API_KEY]"
  | CREDIT_CARD => lit "[REDACTED_CREDIT_CARD]"
  | SSN => lit "[REDACTED_SSN]"
  | EMAIL => lit "[REDACTED_EMAIL]"
  | PHONE => lit "[REDACTED_PHONE]"
  | ADDRESS => lit "[REDACTED_ADDRESS]"
  end.

(** ** Detections

    A detection dictionary.  The source stores [category.value] and
    [redact_pii] reads it back with [PIICategory(...)]; the record keeps
    the member of the enumeration itself. *)
Inductive Source : Type := regex_source | langextract_source.

Record Detection : Type := mkDetection {
  category : PIICategory;
  text : str;
  start : nat;
  end_ : nat;
  confidence : float;
  source : Source
}.

Definition source_name (s : Source) : str :=
  match s with
  | regex_source => lit "regex"
  | langextract_source => lit "langextract"
  end.

Record PIIDetectionResult : Type := mkResult {
  has_pii : bool;
  categories_found : list PIICategory;
  detections : list Detection;
  redacted_content : option str
}.

(** [if category not in categories_found: categories_found.append(category)] *)
Definition add_category (found : list PIICategory) (c : PIICategory)
  : list PIICategory :=
  if cat_mem c found then found else found ++ [c].

(** The detection built from one match of [_detect_with_regex]. *)
Definition detection_of_match (content : str) (c : PIICategory) (ma : Match)
  : Detection :=
  let g := match lastindex ma with Some _ => 1 | None => 0 end in
  {| category := c;
     text := group content ma g;
     start := Re.start_ ma g;
     end_ := Re.end_ ma g;
     confidence := 0x1.999999999999ap-1%float;  (* 0.8 *)
     source := regex_source |}.

(** [PIIProtectionService._detect_with_regex]: the three nested loops,
    over the categories, their patterns and the matches. *)
Definition _detect_with_regex (content : str) (categories : list PIICategory)
  : list Detection * list PIICategory :=
  fold_left
    (fun acc c =>
       fold_left
         (fun acc pattern =>
            fold_left
              (fun acc ma =>
                 (fst acc ++ [detection_of_match content c ma],
                  add_category (snd acc) c))
              (finditer pattern content) acc)
         (_patterns c) acc)
    categories ([], []).

(** ** The optional extractor *)

Record Extraction : Type := mkExtraction {
  extraction_class : str;
  extraction_text : str
}.

(** The handle [self._langextract], seen through [lx.extract] on the
    content: the extractions of the result, or [None] when the call
    raises. *)
Definition LangExtract := str -> option (list Extraction).

Record PIIProtectionService : Type := mkService {
  _langextract : option LangExtract
}.

Definition str_eqb (a b : str) : bool :=
  if list_eq_dec ascii_dec a b then true else false.

(** [PIIProtectionService._map_extraction_to_category] *)
Definition _map_extraction_to_category (extraction_class : str)
  : option PIICategory :=
  let mapping :=
    [ ("password", PASSWORD); ("credential", PASSWORD);
      ("api_key", API_KEY); ("access_token", API_KEY); ("secret", API_KEY);
      ("credit_card", CREDIT_CARD); ("card_number", CREDIT_CARD);
      ("ssn", SSN); ("social_security", SSN);
      ("email", EMAIL);
      ("phone", PHONE); ("phone_number", PHONE);
      ("address", ADDRESS) ]%string in
  let extraction_lower := map lower extraction_class in
  option_map snd
    (find (fun e => str_eqb (lit (fst e)) extraction_lower) mapping).

Fixpoint starts_with (p s : str) : bool :=
  match p, s with
  | [], _ => true
  | a :: p', b :: s' => if ascii_dec a b then starts_with p' s' else false
  | _ :: _, [] => false
  end.

(** [s.find(sub)]: the lowest index where [sub] occurs, [None] for -1. *)
Fixpoint find_from (sub s : str) (i : nat) : option nat :=
  if starts_with sub s then Some i
  else match s with
       | [] => None
       | _ :: t => find_from sub t (S i)
       end.

Definition str_find (s sub : str) : option nat := find_from sub s 0.

(** [PIIProtectionService._detect_with_langextract] *)
Definition _detect_with_langextract (lx : LangExtract) (content : str)
           (categories : list PIICategory)
  : list Detection * list PIICategory :=
  match lx content with
  | None => ([], [])
  | Some extractions =>
      fold_left
        (fun acc extraction =>
           match _map_extraction_to_category (extraction_class extraction) with
           | Some c =>
               if cat_mem c categories then
                 let text := extraction_text extraction in
                 match str_find content text with
                 | Some start =>
                     (fst acc ++
                        [{| category := c;
                            text := text;
                            start := start;
                            end_ := start + List.length text;
                            confidence := 0x1.ccccccccccccdp-1%float;  (* 0.9 *)
                            source := langextract_source |}],
                      add_category (snd acc) c)
                 | None => acc
                 end
               else acc
           | None => acc
           end)
        extractions ([], [])
  end.

(** ** [detect_pii] *)

Definition Span := (nat * nat)%type.

Definition span_eqb (a b : Span) : bool :=
  (fst a =? fst b) && (snd a =? snd b).

Definition span_of (d : Detection) : Span := (start d, end_ d).

Definition span_mem (p : Span) (seen : list Span) : bool :=
  existsb (span_eqb p) seen.

(** The merge loop: a detection of the patterns is appended unless its
    position is already in [existing_positions], and its position is
    recorded. *)
Definition merge_step (acc : list Detection * list Span) (detection : Detection)
  : list Detection * list Span :=
  let pos := span_of detection in
  if span_mem pos (snd acc) then acc
  else (fst acc ++ [detection], pos :: snd acc).

Definition merge_detections (detections : list Detection)
           (regex_detections : list Detection) : list Detection :=
  let existing_positions := map span_of detections in
  fst (fold_left merge_step regex_detections (detections, existing_positions)).

Definition truthy (s : option str) : bool :=
  match s with
  | Some (_ :: _) => true
  | _ => false
  end.

(** [PIIProtectionService.detect_pii].  [categories_found] is a Python
    set turned into a list, whose order the language leaves open; it is
    kept here in order of first insertion. *)
Definition detect_pii (settings : Settings) (self : PIIProtectionService)
           (content : str) (categories : option (list PIICategory))
  : PIIDetectionResult :=
  if negb (PII_DETECTION_ENABLED settings) then
    {| has_pii := false; categories_found := []; detections := [];
       redacted_content := None |}
  else
    let categories :=
      match categories with
      | Some (c :: l) => c :: l
      | _ => all_categories
      end in
    let langextract_result :=
      match _langextract self with
      | Some lx =>
          if truthy (GOOGLE_API_KEY settings)
          then _detect_with_langextract lx content categories
          else ([], [])
      | None => ([], [])
      end in
    let regex_result := _detect_with_regex content categories in
    let detections :=
      merge_detections (fst langextract_result) (fst regex_result) in
    let categories_found :=
      fold_left add_category (snd regex_result)
                (fold_left add_category (snd langextract_result) []) in
    {| has_pii := 0 <? List.length detections;
       categories_found := categories_found;
       detections := detections;
       redacted_content := None |}.

(** ** [redact_pii] *)

Definition redact_one (redacted : str) (detection : Detection) : str :=
  slice_to redacted (start detection)
  ++ _redaction_strings (category detection)
  ++ slice_from redacted (end_ detection).

(** [PIIProtectionService.redact_pii] *)
Definition redact_pii (settings : Settings) (self : PIIProtectionService)
           (content : str) (categories : option (list PIICategory))
  : str * PIIDetectionResult :=
  let detection_result := detect_pii settings self content categories in
  let with_content (r : str) :=
    {| has_pii := has_pii detection_result;
       categories_found := categories_found detection_result;
       detections := detections detection_result;
       redacted_content := Some r |} in
  if negb (has_pii detection_result) then (content, with_content content)
  else
    let sorted_detections :=
      sorted_by (fun a b => start b <? start a) (detections detection_result) in
    let redacted := fold_left redact_one sorted_detections content in
    (redacted, with_content redacted).

End PIIService.

(* ================================================================== *)
(** * [embedding_service.py] *)
(* ================================================================== *)

Module EmbeddingService.

Import Py.
Import PrimFloat.

(** An embedding, as [ndarray.tolist()] returns it. *)
Definition Vector := list float.

(** A loaded [SentenceTransformer], seen through the two ways the
    service calls [encode] (followed by [tolist]): on one text, and on a
    list of texts with a batch size. *)
Record SentenceTransformer : Type := mkModel {
  encode_text : str -> Vector;
  encode_batch : list str -> Z -> list Vector
}.

(** What the service does to its collaborators, in order. *)
Inductive Event : Type :=
| LoadModel (name : str)
| EncodeText (text : str)
| EncodeBatch (texts : list str) (batch_size : Z)
| CacheRead (key : str)
| CacheWrite (key : str)
| CacheDelete (key : str).

(** The fields of [EmbeddingService]; [_cache] is a dictionary, kept in
    insertion order, and [trace] records the events so far. *)
Record Service : Type := mkService {
  _model : option SentenceTransformer;
  _model_name : str;
  _cache : list (str * Vector);
  _cache_enabled : bool;
  trace : list Event
}.

(** [EmbeddingService.__init__] *)
Definition init (settings : Settings) : Service :=
  {| _model := None;
     _model_name := EMBEDDING_MODEL settings;
     _cache := [];
     _cache_enabled := EMBEDDING_CACHE_ENABLED settings;
     trace := [] |}.

(** ** Dictionary operations on the cache *)

Definition key_eqb (a b : str) : bool :=
  if list_eq_dec ascii_dec a b then true else false.

Fixpoint dict_get (d : list (str * Vector)) (k : str) : option Vector :=
  match d with
  | [] => None
  | (k', v) :: t => if key_eqb k' k then Some v else dict_get t k
  end.

(** [d[k] = v]: an existing key keeps its place, a new one goes last. *)
Fixpoint dict_set (d : list (str * Vector)) (k : str) (v : Vector)
  : list (str * Vector) :=
  match d with
  | [] => [(k, v)]
  | (k', v') :: t =>
      if key_eqb k' k then (k', v) :: t else (k', v') :: dict_set t k v
  end.

(** [del d[k]] *)
Fixpoint dict_del (d : list (str * Vector)) (k : str) : list (str * Vector) :=
  match d with
  | [] => []
  | (k', v') :: t => if key_eqb k' k then t else (k', v') :: dict_del t k
  end.

(** ** Stateful code: a state monad over [Service] *)

Definition M (A : Type) : Type := Service -> A * Service.

Definition ret (A : Type) (a : A) : M A := fun s => (a, s).

Definition bind (A B : Type) (c : M A) (f : A -> M B) : M B :=
  fun s => let (a, s') := c s in f a s'.

Notation "x <- c ;; k" := (bind c (fun x => k))
  (at level 61, c at next level, right associativity).
Notation "c ;;; k" := (bind c (fun _ => k))
  (at level 61, right associativity).

Definition emit (e : Event) : M unit :=
  fun s => (tt, {| _model := _model s; _model_name := _model_name s;
                   _cache := _cache s; _cache_enabled := _cache_enabled s;
                   trace := trace s ++ [e] |}).

Definition with_cache (f : list (str * Vector) -> list (str * Vector)) : M unit :=
  fun s => (tt, {| _model := _model s; _model_name := _model_name s;
                   _cache := f (_cache s); _cache_enabled := _cache_enabled s;
                   trace := trace s |}).

Definition cache_enabled : M bool := fun s => (_cache_enabled s, s).

(** [self._cache[key] if key in self._cache else None] *)
Definition cache_get (key : str) : M (option Vector) :=
  emit (CacheRead key) ;;; fun s => (dict_get (_cache s) key, s).

Definition cache_set (key : str) (v : Vector) : M unit :=
  emit (CacheWrite key) ;;; with_cache (fun d => dict_set d key v).

Definition cache_del (key : str) : M unit :=
  emit (CacheDelete key) ;;; with_cache (fun d => dict_del d key).

Definition cache_len : M nat := fun s => (List.length (_cache s), s).

Definition cache_keys : M (list str) := fun s => (map fst (_cache s), s).

Fixpoint for_each (A : Type) (l : list A) (body : A -> M unit) : M unit :=
  match l with
  | [] => ret tt
  | a :: t => body a ;;; for_each t body
  end.

Fixpoint fold_m (A B : Type) (body : B -> A -> M B) (l : list A) (b : B) : M B :=
  match l with
  | [] => ret b
  | a :: t => b' <- body b a ;; fold_m body t b'
  end.

Section Collaborators.

(** [hashlib.md5(data).hexdigest()] *)
Variable md5_hexdigest : list byte -> str.

(** The constructor [SentenceTransformer(name)]. *)
Variable load_model : str -> SentenceTransformer.

(** [EmbeddingService._get_model] *)
Definition _get_model : M SentenceTransformer :=
  fun s =>
    match _model s with
    | Some model => (model, s)
    | None =>
        let model := load_model (_model_name s) in
        (model, {| _model := Some model; _model_name := _model_name s;
                   _cache := _cache s; _cache_enabled := _cache_enabled s;
                   trace := trace s ++ [LoadModel (_model_name s)] |})
    end.

(** [EmbeddingService._get_cache_key] *)
Definition _get_cache_key (text : str) : str := md5_hexdigest (encode text).

Definition model_encode (model : SentenceTransformer) (text : str) : M Vector :=
  emit (EncodeText text) ;;; ret (encode_text model text).

Definition model_encode_batch (model : SentenceTransformer)
           (texts : list str) (batch_size : Z) : M (list Vector) :=
  emit (EncodeBatch texts batch_size) ;;; ret (encode_batch model texts batch_size).

(** The cache size management of [embed_text]. *)
Definition evict_oldest : M unit :=
  n <- cache_len ;;
  if (10000 <? Z.of_nat n)%Z then
    keys <- cache_keys ;;
    for_each (firstn (Z.to_nat 5000) keys) cache_del
  else ret tt.

(** [EmbeddingService.embed_text] *)
Definition embed_text (text : str) : M Vector :=
  enabled <- cache_enabled ;;
  hit <- (if enabled then cache_get (_get_cache_key text) else ret None) ;;
  match hit with
  | Some cached => ret cached
  | None =>
      model <- _get_model ;;
      embedding_list <- model_encode model text ;;
      (if enabled then
         cache_set (_get_cache_key text) embedding_list ;;; evict_oldest
       else ret tt) ;;;
      ret embedding_list
  end.

(** The first loop of [embed_texts]: the cached embeddings with their
    index, the texts still to embed and their indices. *)
Definition Partition : Type := (list (nat * Vector) * list str * list nat)%type.

Definition partition_step (acc : Partition) (it : nat * str) : M Partition :=
  let '(embeddings, texts_to_embed, text_indices) := acc in
  let (i, text) := it in
  enabled <- cache_enabled ;;
  hit <- (if enabled then cache_get (_get_cache_key text) else ret None) ;;
  match hit with
  | Some cached => ret (embeddings ++ [(i, cached)], texts_to_embed, text_indices)
  | None => ret (embeddings, texts_to_embed ++ [text], text_indices ++ [i])
  end.

(** The second loop: the new embeddings join the result and the cache. *)
Definition store_step (texts : list str) (embeddings : list (nat * Vector))
           (it : nat * Vector) : M (list (nat * Vector)) :=
  let (idx, embedding_list) := it in
  enabled <- cache_enabled ;;
  (if enabled then cache_set (_get_cache_key (nth idx texts [])) embedding_list
   else ret tt) ;;;
  ret (embeddings ++ [(idx, embedding_list)]).

Definition enumerate (A : Type) (l : list A) : list (nat * A) :=
  combine (List.seq 0 (List.length l)) l.

(** [EmbeddingService.embed_texts], after the early return on an
    empty list. *)
Definition embed_texts_nonempty (texts : list str) (batch_size : Z)
  : M (list Vector) :=
  model <- _get_model ;;
  parts <- fold_m partition_step (enumerate texts) ([], [], []) ;;
  let '(embeddings, texts_to_embed, text_indices) := parts in
  embeddings <-
    match texts_to_embed with
    | [] => ret embeddings
    | _ :: _ =>
        new_embeddings <- model_encode_batch model texts_to_embed batch_size ;;
        fold_m (store_step texts) (combine text_indices new_embeddings) embeddings
    end ;;
  ret (map snd (sorted_by (fun a b => fst a <? fst b) embeddings)).

(** [EmbeddingService.embed_texts] *)
Definition embed_texts (texts : list str) (batch_size : Z) : M (list Vector) :=
  match texts with
  | [] => ret []
  | _ :: _ => embed_texts_nonempty texts batch_size
  end.

(** [EmbeddingService.embed_query] *)
Definition embed_query (query : str) : M Vector := embed_text query.

(** [EmbeddingService.clear_cache] *)
Definition clear_cache : M nat :=
  count <- cache_len ;; with_cache (fun _ => []) ;;; ret count.

End Collaborators.

(** ** [compute_similarity] *)

Inductive Outcome (A : Type) : Type :=
| Returns (a : A)
| RaisesValueError.

Arguments RaisesValueError {A}.

(** The sum of the products, accumulated from the left.  (For long
    vectors a BLAS kernel may group the additions differently; nothing
    below depends on the grouping.) *)
Definition dot_aligned (v1 v2 : Vector) : float :=
  fold_left (fun acc p => (acc + fst p * snd p)%float) (combine v1 v2) 0%float.

(** [np.dot] on two one-dimensional arrays: the shapes have to agree. *)
Definition np_dot (v1 v2 : Vector) : Outcome float :=
  if List.length v1 =? List.length v2
  then Returns (dot_aligned v1 v2)
  else RaisesValueError.

(** [np.linalg.norm] on a one-dimensional array: [sqrt(dot(x, x))]. *)
Definition np_linalg_norm (v : Vector) : float := sqrt (dot_aligned v v).

(** [EmbeddingService.compute_similarity] *)
Definition compute_similarity (embedding1 embedding2 : Vector) : Outcome float :=
  match np_dot embedding1 embedding2 with
  | RaisesValueError => RaisesValueError
  | Returns dot_product =>
      let norm1 := np_linalg_norm embedding1 in
      let norm2 := np_linalg_norm embedding2 in
      if (norm1 =? 0)%float || (norm2 =? 0)%float then Returns 0%float
      else Returns (dot_product / (norm1 * norm2))%float
  end.

End EmbeddingService.

(* ================================================================== *)
(** * Vocabulary of the statements *)
(* ================================================================== *)

(** Substrings, trimmed texts and blank lines. *)
Module Text.

Import Py.

Definition spaces (s : str) : Prop := Forall (fun c => isspace c = true) s.

(** [p in s], for Python strings. *)
Definition infix (p s : str) : Prop := exists a b, s = a ++ p ++ b.

(** Non-empty, with no white space at either end. *)
Definition trimmed (p : str) : Prop :=
  isspace (hd NL p) = false /\ isspace (last p NL) = false.

(** Whether two consecutive newlines occur in [s]. *)
Fixpoint has_blank_line (s : str) : bool :=
  match s with
  | [] => false
  | c1 :: t => match t with
               | c2 :: _ => (is_nl c1 && is_nl c2) || has_blank_line t
               | [] => false
               end
  end.

End Text.

(** The chunker: the paragraphs of a text, the state of the loop and
    where a paragraph lies. *)
Module ChunkerSpec.

Import Py DocumentService Text.

(** The paragraphs the loop works on: the pieces between blank lines,
    trimmed, the empty ones dropped. *)
Definition paragraphs (text : str) : list str :=
  filter nonempty (map strip (split_blank (strip text))).

Section Loop.

Variable document_id : str.
Variable metadata : Metadata.
Variable chunk_overlap : Z.

(** The seed of the next buffer: the trimmed tail of the emitted one,
    followed by a paragraph separator unless it is empty. *)
Definition overlap_seed (cur : str) : str :=
  let seed :=
    strip (slice_from cur (Z.to_nat (Z.max 0 (Z.of_nat (List.length cur)
                                              - chunk_overlap)))) in
  if nonempty seed then seed ++ [NL; NL] else seed.

Definition start : ChunkLoop :=
  {| chunks := []; current_chunk := []; next_index := 0 |}.

(** The last statement of [_chunk_content]. *)
Definition finish (st : ChunkLoop) : list Chunk :=
  if nonempty (strip (current_chunk st))
  then chunks st ++
       [_create_chunk (strip (current_chunk st)) document_id (next_index st) metadata]
  else chunks st.

End Loop.

(** [p] lies whole in an emitted chunk or in the running buffer. *)
Definition placed (p : str) (st : ChunkLoop) : Prop :=
  (exists c, In c (chunks st) /\ infix p (content c)) \/
  infix p (current_chunk st).

Definition ends_blank (cur : str) : Prop :=
  cur = [] \/ exists x, cur = x ++ [NL; NL].

Section Holding.

Variable P : str.

(** No chunk of [cs] holds [P]. *)
Definition none (cs : list Chunk) : Prop :=
  forall c, In c cs -> ~ infix P (content c).

(** Exactly one chunk of [cs] holds [P]. *)
Definition once (cs : list Chunk) : Prop :=
  exists before c after,
    cs = before ++ c :: after /\ infix P (content c) /\ none (before ++ after).

End Holding.

Definition paragraph_a : str := lit "The quick brown fox jumps over the dogs.".
Definition paragraph_b : str := lit "Pack my box with five dozen liquor jugs.".

Definition long_text : str :=
  lit "Intro" ++ [NL; NL] ++ lit "A paragraph well over ten characters"
      ++ [NL; NL] ++ lit "End".

End ChunkerSpec.

(** The PII engine on the example of the specification. *)
Module PIISpec.

Import Py PIIService.
Import PrimFloat.

Definition example_text : str :=
  lit "My password is secret123 and my email is john@example.com".

(** The extractor is not configured: no handle, or no API key. *)
Definition extractor_off (settings : Settings) (self : PIIProtectionService)
  : Prop :=
  _langextract self = None \/ truthy (GOOGLE_API_KEY settings) = false.

Definition email_detection : Detection :=
  {| category := EMAIL;
     text := lit "john@example.com";
     start := 41;
     end_ := 57;
     confidence := 0x1.999999999999ap-1%float;
     source := regex_source |}.

End PIISpec.

(** The embedding service: what a lookup finds, what the loops of
    [embed_texts] build, and sample collaborators. *)
Module EmbeddingSpec.

Import Py EmbeddingService.
Import PrimFloat.

Definition signed_zero (x : float) : Prop := x = 0%float \/ x = (-0)%float.

Section Collaborators.

Variable md5_hexdigest : list byte -> str.
Variable load_model : str -> SentenceTransformer.

Local Abbreviation cache_key := (_get_cache_key md5_hexdigest).

(** The model that [_get_model] hands out in state [s]. *)
Definition model_of (s : Service) : SentenceTransformer :=
  match _model s with
  | Some model => model
  | None => load_model (_model_name s)
  end.

(** The batched call agrees with the call on one text: the assumption
    that [encode] is deterministic for identical input. *)
Definition batch_consistent (model : SentenceTransformer) : Prop :=
  forall texts batch_size,
    encode_batch model texts batch_size = map (encode_text model) texts.

(** What a cache lookup for [text] finds in state [s]. *)
Definition lookup (s : Service) (text : str) : option Vector :=
  if _cache_enabled s then dict_get (_cache s) (cache_key text) else None.

Definition cached_or_encoded (s : Service) (text : str) : Vector :=
  match lookup s text with
  | Some cached => cached
  | None => encode_text (model_of s) text
  end.

(** Two states with the same fields, whatever their traces. *)
Definition same_store (s s' : Service) : Prop :=
  _model s' = _model s /\ _model_name s' = _model_name s /\
  _cache s' = _cache s /\ _cache_enabled s' = _cache_enabled s.

Definition partition_pure (s : Service) (acc : Partition) (it : nat * str)
  : Partition :=
  let '(embeddings, texts_to_embed, text_indices) := acc in
  match lookup s (snd it) with
  | Some cached => (embeddings ++ [(fst it, cached)], texts_to_embed, text_indices)
  | None => (embeddings, texts_to_embed ++ [snd it], text_indices ++ [fst it])
  end.

(** The three lists the first loop builds, one item at a time. *)
Definition hits (s : Service) (l : list (nat * str)) : list (nat * Vector) :=
  flat_map (fun it => match lookup s (snd it) with
                      | Some cached => [(fst it, cached)]
                      | None => []
                      end) l.

Definition missed (s : Service) (l : list (nat * str)) : list (nat * str) :=
  flat_map (fun it => match lookup s (snd it) with
                      | Some _ => []
                      | None => [it]
                      end) l.

Definition resolved (s : Service) (l : list (nat * str)) : list (nat * Vector) :=
  map (fun it => (fst it, cached_or_encoded s (snd it))) l.

Definition encoded (s : Service) (l : list (nat * str)) : list (nat * Vector) :=
  map (fun it => (fst it, encode_text (model_of s) (snd it))) l.

Definition keys (d : list (str * Vector)) : list str := map fst d.

End Collaborators.

(** A stand-in for the digest that keeps its input, and a model whose
    batched call maps the single one. *)
Definition sample_digest (data : list byte) : str := map ascii_of_byte data.

Definition sample_model : SentenceTransformer :=
  {| encode_text := fun text => repeat 1%float (List.length text);
     encode_batch := fun texts _ =>
                       map (fun text => repeat 1%float (List.length text)) texts |}.

Definition sample_load (name : str) : SentenceTransformer := sample_model.

Definition warm_service : Service :=
  {| _model := None;
     _model_name := EMBEDDING_MODEL default_settings;
     _cache := [(lit "b", [0.5%float])];
     _cache_enabled := true;
     trace := [] |}.

Definition many_texts : list str :=
  map (repeat "a"%char) (List.seq 0 (Z.to_nat 10001)).

End EmbeddingSpec.

(** The matcher: positions of one subject. *)
Module MatcherSpec.

Import Py Re.

(** [cu'] is a position of the same subject, not before [cu]. *)
Definition later (cu cu' : cursor) : Prop :=
  pos cu' + List.length (rest cu') = pos cu + List.length (rest cu) /\
  pos cu <= pos cu'.

(** A step that calls its continuation on later positions only. *)
Definition forward (step : cursor -> K -> option cursor) : Prop :=
  forall cu k1 k2,
    (forall cu', later cu cu' -> k1 cu' = k2 cu') -> step cu k1 = step cu k2.

End MatcherSpec.

(** Models whose batched call does not agree with the call on one
    text, although each call returns the same vectors every time it is
    given the same input. *)
Module BatchModels.

Import Py EmbeddingService.
Import PrimFloat.

(** The batched call rounds differently. *)
Definition split_model : SentenceTransformer :=
  {| encode_text := fun _ => [1%float];
     encode_batch := fun texts _ => map (fun _ => [2%float]) texts |}.

(** The batched call returns no vector. *)
Definition mute_model : SentenceTransformer :=
  {| encode_text := fun _ => [1%float];
     encode_batch := fun _ _ => [] |}.

Definition split_load (name : str) : SentenceTransformer := split_model.
Definition mute_load (name : str) : SentenceTransformer := mute_model.

End BatchModels.

(** The shape of the list of chunks. *)
Module ChunkShape.

Import Py DocumentService ChunkerSpec.

(** The records [_create_chunk] builds for a list of contents, numbered
    from [k]. *)
Fixpoint numbered (document_id : str) (metadata : Metadata) (k : nat)
         (contents : list str) : list Chunk :=
  match contents with
  | [] => []
  | s :: rest =>
      _create_chunk s document_id k metadata
      :: numbered document_id metadata (S k) rest
  end.

(** The bound on the length of a chunk when no paragraph is longer than
    [longest]. *)
Definition size_bound (chunk_size chunk_overlap longest : Z) : Z :=
  Z.max (chunk_size - 2) (longest + Z.max 0 chunk_overlap).

(** The chunks emitted so far are the records of their contents, and
    [chunk_index] counts them. *)
Definition counted (document_id : str) (metadata : Metadata) (st : ChunkLoop)
  : Prop :=
  chunks st = numbered document_id metadata 0 (map content (chunks st)) /\
  next_index st = List.length (chunks st).

(** The running buffer is empty or holds a character that is not white
    space. *)
Definition has_text (cur : str) : Prop := cur = [] \/ strip cur <> [].

(** The running buffer is empty or ends with a blank line after at most
    [bound] characters. *)
Definition within (bound : Z) (cur : str) : Prop :=
  cur = [] \/
  exists x, cur = x ++ [NL; NL] /\ (Z.of_nat (List.length x) <= bound)%Z.

(** What the next chunk takes over from a chunk with content [x]: the
    last [chunk_overlap - 2] characters of [x] without the white space
    they start with, and a blank line, or nothing when no character is
    left. *)
Definition carried (chunk_overlap : Z) (x : str) : str :=
  let from := Z.to_nat (Z.max 0 (Z.of_nat (List.length x) + 2 - chunk_overlap)) in
  let seed := lstrip (slice_from x from) in
  if nonempty seed then seed ++ [NL; NL] else [].

(** The chunk [c'] starts with what it takes over from [c]. *)
Definition continues (chunk_overlap : Z) (c c' : Chunk) : Prop :=
  exists tail, content c' = carried chunk_overlap (content c) ++ tail.

(** [R] holds between every chunk and the next. *)
Fixpoint chained (R : Chunk -> Chunk -> Prop) (cs : list Chunk) : Prop :=
  match cs with
  | [] => True
  | c :: rest =>
      match rest with
      | [] => True
      | c' :: _ => R c c' /\ chained R rest
      end
  end.

(** The running buffer is empty or a trimmed text and a blank line. *)
Definition closed (cur : str) : Prop :=
  cur = [] \/ exists x, cur = x ++ [NL; NL] /\ Text.trimmed x.

(** The running buffer starts with what it takes over from the last
    chunk emitted. *)
Definition resumes (chunk_overlap : Z) (st : ChunkLoop) : Prop :=
  forall front c,
    chunks st = front ++ [c] ->
    exists tail,
      current_chunk st = carried chunk_overlap (content c) ++ tail ++ [NL; NL].

Definition three_paragraphs : str :=
  lit "alpha beta" ++ [NL; NL] ++ lit "gamma" ++ [NL; NL] ++ lit "delta epsilon".

End ChunkShape.

(** The alphabet of [hexdigest]. *)
Module Hex.

Import Py.


End Hex.

(* ================================================================== *)
(** * [document_service.py]: [detect_file_type] *)
(* ================================================================== *)

Module FileType.

Import Py.

(** [api_schemas.DocumentType] *)
Inductive DocumentType : Type :=
| PDF | DOCX | PPTX | XLSX | TXT | MD | HTML | IMAGE.

Definition is_slash (c : ascii) : bool := code c =? 47.
Definition is_dot (c : ascii) : bool := code c =? 46.

Definition DOT : ascii := ascii_of_nat 46.
Definition SLASH : ascii := ascii_of_nat 47.

(** [s.split("/")]; [cur] is the piece being read, reversed. *)
Fixpoint split_slash (s : str) (cur : str) : list str :=
  match s with
  | [] => [rev cur]
  | c :: t => if is_slash c then rev cur :: split_slash t [] else split_slash t (c :: cur)
  end.

Definition is_component (part : str) : bool :=
  match part with
  | [] => false
  | [c] => negb (is_dot c)
  | _ :: _ :: _ => true
  end.

(** [PurePosixPath(path).name]: the last of the parts between slashes
    that is neither empty nor a single dot. *)
Definition name (path : str) : str :=
  last (filter is_component (split_slash path [])) [].

(** [s.rfind(".")], [None] for -1: [i] is the index of the first
    character of [s]. *)
Fixpoint rfind_dot (s : str) (i : nat) : option nat :=
  match s with
  | [] => None
  | c :: t =>
      match rfind_dot t (S i) with
      | Some j => Some j
      | None => if is_dot c then Some i else None
      end
  end.

(** [PurePosixPath(path).suffix], as the [pathlib] of CPython 3.11
    computes it: the name from its last dot on, when that dot is neither
    the first nor the last character. *)
Definition suffix (path : str) : str :=
  let name := name path in
  match rfind_dot name 0 with
  | Some i =>
      if (0 <? i) && (i <? List.length name - 1) then slice_from name i else []
  | None => []
  end.

(** [s.lower()] on code points below 256. *)
Definition lower (s : str) : str := map Re.lower s.

(** [s.lstrip(".")] *)
Fixpoint lstrip_dots (s : str) : str :=
  match s with
  | c :: t => if is_dot c then lstrip_dots t else s
  | [] => []
  end.

Definition str_eqb (a b : str) : bool :=
  if list_eq_dec ascii_dec a b then true else false.

Definition type_mapping : list (string * DocumentType) :=
  [ ("pdf", PDF); ("docx", DOCX); ("pptx", PPTX); ("xlsx", XLSX);
    ("txt", TXT); ("md", MD); ("html", HTML); ("htm", HTML);
    ("png", IMAGE); ("jpg", IMAGE); ("jpeg", IMAGE); ("tiff", IMAGE);
    ("webp", IMAGE) ]%string.

(** [type_mapping.get(extension, DocumentType.TXT)] *)
Definition type_of_extension (extension : str) : DocumentType :=
  match find (fun e => str_eqb (lit (fst e)) extension) type_mapping with
  | Some e => snd e
  | None => TXT
  end.

(** [DocumentProcessor.detect_file_type]; the content of the file at
    [file_path] is not read. *)
Definition detect_file_type (file_path filename : str) : DocumentType :=
  let extension := lstrip_dots (lower (suffix filename)) in
  type_of_extension extension.

(** No character of [s] is a slash, or a dot. *)
Definition no_slash (s : str) : Prop := Forall (fun c => is_slash c = false) s.
Definition no_dot (s : str) : Prop := Forall (fun c => is_dot c = false) s.

End FileType.

(** Redaction as one pass over the content. *)
Module Redaction.

Import Py PIIService.

(** The rest of [content] from offset [from] on, with the spans of [ds]
    replaced by the redaction string of their category; [ds] lists the
    detections from left to right. *)
Fixpoint spliced (content : str) (from : nat) (ds : list Detection) : str :=
  match ds with
  | [] => slice_from content from
  | d :: rest =>
      slice content from (start d)
      ++ _redaction_strings (category d)
      ++ spliced content (end_ d) rest
  end.

(** The detections of [ds] follow one another from left to right between
    [from] and [limit], none empty and no two overlapping. *)
Fixpoint ascending (from limit : nat) (ds : list Detection) : Prop :=
  match ds with
  | [] => True
  | d :: rest =>
      from <= start d /\ start d < end_ d /\ end_ d <= limit /\
      ascending (end_ d) limit rest
  end.

Definition two_secrets : str := lit "mail john@example.com ssn 123-45-6789".

Definition two_secrets_ascending : list Detection :=
  Eval vm_compute in
    rev (fst (_detect_with_regex two_secrets [SSN; EMAIL])).

End Redaction.

(** Where a match and its groups lie. *)
Module MatchBounds.

Import Py Re MatcherSpec.

(** A span [(a, b)] between [lo] and [hi]. *)
Definition span_within (lo hi : nat) (sp : nat * nat) : Prop :=
  lo <= fst sp /\ fst sp <= snd sp /\ snd sp <= hi.

(** The groups closed so far lie between [lo] and the position. *)
Definition inside (lo : nat) (cu : cursor) : Prop :=
  Forall (fun g => span_within lo (pos cu) (snd g)) (groups cu).

(** [cu'] is a later position of the same subject, and the groups stay
    inside. *)
Definition reaches (lo : nat) (cu cu' : cursor) : Prop :=
  later cu cu' /\ (lo <= pos cu -> inside lo cu -> inside lo cu').

(** A step that, when it succeeds, has called its continuation at a
    position it reaches. *)
Definition sound (lo : nat) (step : cursor -> K -> option cursor) : Prop :=
  forall cu k e,
    step cu k = Some e -> exists cu', reaches lo cu cu' /\ k cu' = Some e.

(** A match between [lo] and [hi], with its groups inside it. *)
Definition match_within (lo hi : nat) (ma : Match) : Prop :=
  lo <= m_start ma /\ m_start ma <= m_end ma /\ m_end ma <= hi /\
  Forall (fun g => span_within (m_start ma) (m_end ma) (snd g)) (m_groups ma).

End MatchBounds.

(** What a detection says about the content. *)
Module DetectionSpec.

Import Py PIIService.

(** The offsets of [d] lie in [content] and its text is what the
    content holds between them. *)
Definition located (content : str) (d : Detection) : Prop :=
  start d <= end_ d /\ end_ d <= List.length content /\
  text d = slice content (start d) (end_ d).

(** The categories [detect_pii] looks for. *)
Definition requested (categories : option (list PIICategory))
  : list PIICategory :=
  match categories with
  | Some (c :: l) => c :: l
  | _ => all_categories
  end.

(** What the two detectors return: every detection has its category in
    the list of categories found, which holds requested categories only
    and none twice. *)
Definition tallied (categories : list PIICategory)
           (acc : list Detection * list PIICategory) : Prop :=
  (forall d, In d (fst acc) -> In (category d) (snd acc)) /\
  incl (snd acc) categories /\
  NoDup (snd acc).

End DetectionSpec.

(** The events of one call of the embedding service. *)
Module EmbeddingRun.

Import Py EmbeddingService EmbeddingSpec.

(** The state [s] after the events [events]. *)
Definition logged (s : Service) (events : list Event) : Service :=
  {| _model := _model s; _model_name := _model_name s;
     _cache := _cache s; _cache_enabled := _cache_enabled s;
     trace := trace s ++ events |}.

(** The state [s] with the cache [d]. *)
Definition stored (s : Service) (d : list (str * Vector)) : Service :=
  {| _model := _model s; _model_name := _model_name s;
     _cache := d; _cache_enabled := _cache_enabled s;
     trace := trace s |}.

(** What [_get_model] does in state [s]. *)
Definition loading (s : Service) : list Event :=
  match _model s with
  | Some _ => []
  | None => [LoadModel (_model_name s)]
  end.

(** The model returns one vector for each text of a batch. *)
Definition batch_sized (model : SentenceTransformer) : Prop :=
  forall texts batch_size,
    List.length (encode_batch model texts batch_size) = List.length texts.

Section Collaborators.

Variable md5_hexdigest : list byte -> str.
Variable load_model : str -> SentenceTransformer.

Local Abbreviation cache_key := (_get_cache_key md5_hexdigest).

(** The state after [_get_model]. *)
Definition loaded (s : Service) : Service :=
  {| _model := Some (model_of load_model s); _model_name := _model_name s;
     _cache := _cache s; _cache_enabled := _cache_enabled s;
     trace := trace s ++ loading s |}.

Definition reads (s : Service) (texts : list str) : list Event :=
  if _cache_enabled s then map (fun t => CacheRead (cache_key t)) texts else [].

Definition writes (s : Service) (texts : list str) : list Event :=
  if _cache_enabled s then map (fun t => CacheWrite (cache_key t)) texts else [].

(** The texts of a batch that the cache does not hold, in their order. *)
Definition to_embed (s : Service) (texts : list str) : list str :=
  map snd (missed md5_hexdigest s (enumerate texts)).

(** The events of [embed_texts]: the model is loaded if it was not, the
    cache is read once for each text, the model is called once on the
    texts that the cache does not hold, if there is any, and each of
    them is written to the cache. *)
Definition batch_events (s : Service) (texts : list str) (batch_size : Z)
  : list Event :=
  match texts with
  | [] => []
  | _ :: _ =>
      loading s ++ reads s texts
      ++ match to_embed s texts with
         | [] => []
         | _ :: _ =>
             EncodeBatch (to_embed s texts) batch_size
             :: writes s (to_embed s texts)
         end
  end.

(** The cache after the writes of [embed_texts]. *)
Definition written (d : list (str * Vector)) (its : list (str * Vector))
  : list (str * Vector) :=
  fold_left (fun d it => dict_set d (fst it) (snd it)) its d.

(** The state after the second loop of [embed_texts] has stored the
    entries [its]. *)
Definition after_writes (s : Service) (its : list (str * Vector)) : Service :=
  if _cache_enabled s
  then stored (logged s (map (fun it => CacheWrite (fst it)) its))
              (written (_cache s) its)
  else s.

(** The cache entry of the embedding [snd it] of the text at index
    [fst it]. *)
Definition entry_of (texts : list str) (it : nat * Vector) : str * Vector :=
  (cache_key (nth (fst it) texts []), snd it).

End Collaborators.

End EmbeddingRun.

(** A service whose cache is full, for the examples. *)
Module FullCache.

Import Py EmbeddingService EmbeddingSpec.

(** The service after any number of calls of [embed_text]. *)
Definition after_calls (md5_hexdigest : list byte -> str)
           (load_model : str -> SentenceTransformer)
           (texts : list str) (s : Service) : Service :=
  fold_left (fun s text => snd (embed_text md5_hexdigest load_model text s))
            texts s.

(** Ten thousand entries, the oldest first. *)
Definition full_service : Service :=
  {| _model := None;
     _model_name := EMBEDDING_MODEL default_settings;
     _cache := map (fun t => (_get_cache_key sample_digest t, []))
                   (firstn (Z.to_nat 10000) many_texts);
     _cache_enabled := true;
     trace := [] |}.

Definition new_text : str := repeat "a"%char (Z.to_nat 10000).

End FullCache.

(* ================================================================== *)
(** * [pinecone_service.py]: [upsert_vectors] *)
(* ================================================================== *)

Module PineconeService.

Import Py.
Import PrimFloat.

(** The settings of [Config.py] that the vector store reads. *)
Record StoreSettings : Type := mkStoreSettings {
  PINECONE_API_KEY : option str;
  PINECONE_INDEX_NAME : str;
  PINECONE_NAMESPACE : str
}.

Definition default_store_settings : StoreSettings :=
  {| PINECONE_API_KEY := None;
     PINECONE_INDEX_NAME := lit "knowledge-base";
     PINECONE_NAMESPACE := lit "default" |}.

(** A vector as the caller gives it; [metadata] is [None] when the
    dictionary has no such key. *)
Record VectorInput : Type := mkVectorInput {
  id : str;
  values : list float;
  metadata : option DocumentService.Metadata
}.

(** A vector as it is sent. *)
Record UpsertItem : Type := mkUpsertItem {
  item_id : str;
  item_values : list float;
  item_metadata : DocumentService.Metadata
}.

(** The index handle, seen through [index.upsert]: the
    [upserted_count] of the response, or [None] when the call raises. *)
Record Index : Type := mkIndex {
  index_upsert : list UpsertItem -> str -> option Z
}.

(** What the service does to Pinecone, in order. *)
Inductive Call : Type :=
| Connect (api_key index_name : str)
| Upsert (batch : list UpsertItem) (namespace : str).

(** The fields of [PineconeService]; the client is kept as the API key
    it was made with, and [calls] records the calls so far. *)
Record Service : Type := mkService {
  _client : option str;
  _index : option Index;
  _index_name : str;
  calls : list Call
}.

Inductive Result (A : Type) : Type :=
| Ok (a : A)
| RaisesValueError (message : str)
| RaisesIndexError.

Arguments RaisesValueError {A} message.
Arguments RaisesIndexError {A}.

Definition called (s : Service) (c : Call) : Service :=
  {| _client := _client s; _index := _index s;
     _index_name := _index_name s; calls := calls s ++ [c] |}.

(** [x or default] on an optional string: [None] and the empty string
    are falsy. *)
Definition or_default (x : option str) (d : str) : str :=
  match x with
  | Some (c :: t) => c :: t
  | _ => d
  end.

Section Collaborators.

(** The constructor [Pinecone(api_key=...)] followed by
    [client.Index(name)]. *)
Variable connect : str -> str -> Index.

(** [PineconeService._get_index] *)
Definition _get_index (settings : StoreSettings) (s : Service)
  : Result Index * Service :=
  match _index s with
  | Some index => (Ok index, s)
  | None =>
      match PINECONE_API_KEY settings with
      | Some (c :: t) =>
          let index := connect (c :: t) (_index_name s) in
          (Ok index,
           {| _client := Some (c :: t); _index := Some index;
              _index_name := _index_name s;
              calls := calls s ++ [Connect (c :: t) (_index_name s)] |})
      | _ => (RaisesValueError (lit "Pinecone API key not configured"), s)
      end
  end.

(** [range(start, stop, step)] for a positive step; [fuel] bounds the
    number of elements. *)
Fixpoint range_from (fuel start stop step : nat) : list nat :=
  match fuel with
  | O => []
  | S f =>
      if start <? stop then start :: range_from f (start + step) stop step
      else []
  end.

Definition range (start stop step : nat) : list nat :=
  range_from stop start stop step.

(** [l[a:b]] on a list. *)
Definition list_slice (A : Type) (l : list A) (a b : nat) : list A :=
  firstn (b - a) (skipn a l).

(** The dictionary built for one vector. *)
Definition prepare (vec : VectorInput) : UpsertItem :=
  {| item_id := id vec;
     item_values := values vec;
     item_metadata := match metadata vec with Some m => m | None => [] end |}.

Definition batch_size : nat := 100.

(** The loop [for i in range(0, len(upsert_data), batch_size)]. *)
Fixpoint upsert_batches (index : Index) (namespace : str)
         (upsert_data : list UpsertItem) (starts : list nat)
         (total_upserted : Z) (s : Service) : Result Z * Service :=
  match starts with
  | [] => (Ok total_upserted, s)
  | i :: rest =>
      let batch := list_slice upsert_data i (i + batch_size) in
      let s' := called s (Upsert batch namespace) in
      match index_upsert index batch namespace with
      | Some upserted_count =>
          upsert_batches index namespace upsert_data rest
                         (total_upserted + upserted_count)%Z s'
      | None => (RaisesIndexError, s')
      end
  end.

(** [PineconeService.upsert_vectors] *)
Definition upsert_vectors (settings : StoreSettings)
           (vectors : list VectorInput) (namespace : option str) (s : Service)
  : Result Z * Service :=
  match vectors with
  | [] => (Ok 0%Z, s)
  | _ :: _ =>
      let namespace := or_default namespace (PINECONE_NAMESPACE settings) in
      match _get_index settings s with
      | (Ok index, s1) =>
          let upsert_data := map prepare vectors in
          upsert_batches index namespace upsert_data
                         (range 0 (List.length upsert_data) batch_size) 0%Z s1
      | (RaisesValueError message, s1) => (RaisesValueError message, s1)
      | (RaisesIndexError, s1) => (RaisesIndexError, s1)
      end
  end.

End Collaborators.

End PineconeService.

(** The batches of an upsert. *)
Module UpsertSpec.

Import Py PineconeService.

(** The index answers every call. *)
Definition answers (index : Index) : Prop :=
  forall batch namespace, index_upsert index batch namespace <> None.

(** The count that the index reports for a batch. *)
Definition reported (index : Index) (namespace : str) (batch : list UpsertItem)
  : Z :=
  match index_upsert index batch namespace with
  | Some upserted_count => upserted_count
  | None => 0%Z
  end.

(** Every batch but the last holds [batch_size] vectors. *)
Fixpoint full_but_last (batches : list (list UpsertItem)) : Prop :=
  match batches with
  | [] => True
  | b :: rest =>
      match rest with
      | [] => True
      | _ :: _ => List.length b = batch_size /\ full_but_last rest
      end
  end.

Definition total (l : list Z) : Z := fold_right Z.add 0%Z l.

(** The state after the batches [batches] were sent to [namespace]. *)
Definition sent (s : Service) (namespace : str)
           (batches : list (list UpsertItem)) : Service :=
  fold_left called (map (fun b => Upsert b namespace) batches) s.

(** An index that stores everything it is sent. *)
Definition sample_index : Index :=
  {| index_upsert := fun batch _ => Some (Z.of_nat (List.length batch)) |}.

Definition sample_store : Service :=
  {| _client := None; _index := Some sample_index;
     _index_name := lit "knowledge-base"; calls := [] |}.

Definition sample_vector (n : nat) : VectorInput :=
  {| id := DocumentService.str_of_nat n; values := []; metadata := None |}.

End UpsertSpec.

(* ================================================================== *)
(** * [Config.py]: the validators of the list settings *)
(* ================================================================== *)

Module Config.

Import Py.

Definition is_comma (c : ascii) : bool := code c =? 44.

Definition COMMA : ascii := ascii_of_nat 44.
Definition SPACE : ascii := ascii_of_nat 32.

(** [s.split(",")]; [cur] is the piece being read, reversed. *)
Fixpoint split_comma (s : str) (cur : str) : list str :=
  match s with
  | [] => [rev cur]
  | c :: t =>
      if is_comma c then rev cur :: split_comma t [] else split_comma t (c :: cur)
  end.

(** What a validator is given: the string of an environment variable,
    or a list. *)
Inductive Raw : Type :=
| RawStr (v : str)
| RawList (v : list str).

(** [Settings.parse_cors_origins] *)
Definition parse_cors_origins (v : Raw) : list str :=
  match v with
  | RawStr s => map (fun origin => strip origin) (split_comma s [])
  | RawList l => l
  end.

(** [Settings.parse_file_types] *)
Definition parse_file_types (v : Raw) : list str :=
  match v with
  | RawStr s => map (fun ft => FileType.lower (strip ft)) (split_comma s [])
  | RawList l => l
  end.

(** [Settings.parse_pii_categories] *)
Definition parse_pii_categories (v : Raw) : list str :=
  match v with
  | RawStr s => map (fun cat => FileType.lower (strip cat)) (split_comma s [])
  | RawList l => l
  end.

(** [", ".join(items)] *)
Fixpoint join (items : list str) : str :=
  match items with
  | [] => []
  | x :: rest =>
      match rest with
      | [] => x
      | _ :: _ => x ++ COMMA :: SPACE :: join rest
      end
  end.

(** An item that comes back as it was written: no comma in it, and no
    white space at either end. *)
Definition plain (x : str) : Prop :=
  Forall (fun c => is_comma c = false) x /\ (x = [] \/ Text.trimmed x).

End Config.

Example sha256_abc :
  Sha256.hexdigest (Py.blit "abc")
  = Py.lit "ba7816bf8f01cfea414140de5dae2223b00361a396177a9cb410ff61f20015ad".
Proof. vm_compute. reflexivity. Qed.

Example sha256_70a :
  Sha256.hexdigest (repeat "a"%byte 70)
  = Py.lit "6bd5e5034855a11241f0dee8fc72850ffd9955b28347a86428b5fa19119f6ad0".
Proof. vm_compute. reflexivity. Qed.


(* ================================================================== *)
(** * Properties of [compute_similarity] *)
(* ================================================================== *)

Section Similarity.

Import EmbeddingService EmbeddingSpec.
Import PrimFloat.

(** The accumulator stays at [+0] along a vector of zeros. *)
Lemma dot_self_zero (a : Vector) :
  Forall signed_zero a -> dot_aligned a a = 0%float.
Proof.
  unfold dot_aligned. intros Ha.
  induction Ha as [|x a Hx Ha IH]; [reflexivity|].
  simpl. destruct Hx as [-> | ->]; exact IH.
Qed.

Lemma norm_of_zeros (a : Vector) :
  Forall signed_zero a -> (np_linalg_norm a =? 0)%float = true.
Proof.
  intros Ha. unfold np_linalg_norm. rewrite (dot_self_zero Ha). reflexivity.
Qed.

(** C7, as amended: for two vectors of the same length, one of which has
    norm zero, [compute_similarity] returns 0.0 and raises nothing: the
    guard on the norms is reached before the division. *)
Theorem compute_similarity_zero_norm (a b : Vector) :
  List.length a = List.length b ->
  (np_linalg_norm a =? 0)%float = true \/ (np_linalg_norm b =? 0)%float = true ->
  compute_similarity a b = Returns 0%float.
Proof.
  intros Hlen Hz. unfold compute_similarity, np_dot.
  rewrite Hlen, Nat.eqb_refl.
  destruct Hz as [H | H]; rewrite H; [reflexivity|].
  now rewrite orb_true_r.
Qed.

Lemma compute_similarity_zero_norm_witness :
  compute_similarity [0; 0]%float [3; 4]%float = Returns 0%float.
Proof.
  apply (@compute_similarity_zero_norm [0; 0]%float [3; 4]%float).
  - reflexivity.
  - left. reflexivity.
Defined.

(** C7, as stated, fails when the lengths differ: [np.dot] raises before
    the guard is reached, although the first vector has norm zero. *)
Lemma compute_similarity_zero_norm_raises :
  (np_linalg_norm [0]%float =? 0)%float = true /\
  compute_similarity [0]%float [1; 2]%float = RaisesValueError /\
  compute_similarity [0]%float [1; 2]%float <> Returns 0%float.
Proof. repeat split. discriminate. Qed.

(** C6: on two opposite unit vectors the code returns -1.0, which is
    outside the interval from 0 to 1. *)
Theorem compute_similarity_opposite :
  compute_similarity [1]%float [(-1)]%float = Returns (-1)%float /\
  ((-1) <? 0)%float = true.
Proof. split; reflexivity. Qed.

End Similarity.

(* ================================================================== *)
(** * Properties of [generate_document_id] *)
(* ================================================================== *)

Section DocumentIdentity.

Import Py DocumentService.

Lemma generate_document_id_concat (c c' : list byte) (f f' : str) :
  c ++ encode f = c' ++ encode f' ->
  generate_document_id c f = generate_document_id c' f'.
Proof. unfold generate_document_id. intros ->. reflexivity. Qed.

(** C9, as amended: the id is a function of the concatenation
    [content || filename.encode()] alone, so it is the same on every
    call; for [b"abc"] and ["x.txt"] it is [1b020274b0caaa4b]; it differs
    when only the content becomes [b"abd"] or only the filename becomes
    ["y.txt"]. *)
Theorem generate_document_id_stable :
  (forall c c' f f', c ++ encode f = c' ++ encode f' ->
                     generate_document_id c f = generate_document_id c' f') /\
  generate_document_id (blit "abc") (lit "x.txt") = lit "1b020274b0caaa4b" /\
  generate_document_id (blit "abd") (lit "x.txt")
    <> generate_document_id (blit "abc") (lit "x.txt") /\
  generate_document_id (blit "abc") (lit "y.txt")
    <> generate_document_id (blit "abc") (lit "x.txt").
Proof.
  split; [exact generate_document_id_concat|].
  split; [vm_compute; reflexivity|].
  split; vm_compute; discriminate.
Qed.

Lemma generate_document_id_stable_witness :
  generate_document_id (blit "ab") (lit "c.md")
  = generate_document_id (blit "abc") (lit ".md").
Proof.
  apply (proj1 generate_document_id_stable (blit "ab") (blit "abc")
               (lit "c.md") (lit ".md")).
  reflexivity.
Defined.

(** C9, as stated, fails: moving the [x] from the filename to the end of
    the content changes both arguments and leaves the id unchanged. *)
Lemma generate_document_id_collision :
  blit "abcx" <> blit "abc" /\ lit ".txt" <> lit "x.txt" /\
  generate_document_id (blit "abcx") (lit ".txt")
  = generate_document_id (blit "abc") (lit "x.txt").
Proof.
  split; [discriminate|]. split; [discriminate|].
  vm_compute. reflexivity.
Qed.

End DocumentIdentity.

(* ================================================================== *)
(** * Properties of the PII engine *)
(* ================================================================== *)

Section PIIEngine.

Import Py Re PIIService PIISpec.
Import PrimFloat.

(** Without the extractor, [detect_pii] is the merge of the pattern
    detections into an empty list. *)
Lemma detect_pii_patterns_only settings self content categories :
  PII_DETECTION_ENABLED settings = true ->
  extractor_off settings self ->
  detect_pii settings self content categories
  = detect_pii default_settings {| _langextract := None |} content categories.
Proof.
  intros Hen Hoff. unfold detect_pii. rewrite Hen. simpl.
  destruct Hoff as [-> | Hkey]; [reflexivity|].
  rewrite Hkey. destruct (_langextract self); reflexivity.
Qed.

Lemma redact_pii_patterns_only settings self content categories :
  PII_DETECTION_ENABLED settings = true ->
  extractor_off settings self ->
  redact_pii settings self content categories
  = redact_pii default_settings {| _langextract := None |} content categories.
Proof.
  intros Hen Hoff. unfold redact_pii.
  now rewrite (detect_pii_patterns_only _ _ Hen Hoff).
Qed.

(** C2, as amended: on the example text with the categories password and
    email, detection enabled and the extractor not configured, the only
    detection is the span 41..57 of [john@example.com], of category
    email, found by the patterns; the text [secret123] is not detected
    and the redacted output is
    [My password is secret123 and my email is [REDACTED_EMAIL]]. *)
Theorem example_redaction settings self :
  PII_DETECTION_ENABLED settings = true ->
  extractor_off settings self ->
  let result := detect_pii settings self example_text (Some [PASSWORD; EMAIL]) in
  let redacted := redact_pii settings self example_text (Some [PASSWORD; EMAIL]) in
  detections result = [email_detection] /\
  categories_found result = [EMAIL] /\
  has_pii result = true /\
  slice example_text 41 57 = lit "john@example.com" /\
  fst redacted = lit "My password is secret123 and my email is [REDACTED_EMAIL]" /\
  redacted_content (snd redacted) = Some (fst redacted) /\
  detections (snd redacted) = [email_detection].
Proof.
  intros Hen Hoff. cbv zeta.
  rewrite (detect_pii_patterns_only _ _ Hen Hoff).
  rewrite (redact_pii_patterns_only _ _ Hen Hoff).
  vm_compute. repeat split; reflexivity.
Qed.

Lemma example_redaction_witness :
  fst (redact_pii default_settings {| _langextract := None |} example_text
                  (Some [PASSWORD; EMAIL]))
  = lit "My password is secret123 and my email is [REDACTED_EMAIL]".
Proof.
  apply (@example_redaction default_settings {| _langextract := None |}).
  - reflexivity.
  - left. reflexivity.
Defined.

(** C2, as stated, fails: with the extractor off the output keeps
    [secret123] and no detection has the category password. *)
Lemma example_redaction_keeps_password :
  let redacted :=
    redact_pii default_settings {| _langextract := None |} example_text
               (Some [PASSWORD; EMAIL]) in
  fst redacted
    <> lit "My password is [REDACTED_PASSWORD] and my email is [REDACTED_EMAIL]" /\
  ~ (exists d, In d (detections (snd redacted)) /\ category d = PASSWORD).
Proof.
  cbv zeta. split.
  - vm_compute. discriminate.
  - intros [d [Hin Hcat]]. vm_compute in Hin.
    destruct Hin as [<- | []]. discriminate Hcat.
Qed.

(** The password patterns ask for a colon or an equals sign after the
    keyword; with one, both spans are found and redacted. *)
Lemma example_redaction_with_colon :
  fst (redact_pii default_settings {| _langextract := None |}
         (lit "My password: secret123 and my email is john@example.com")
         (Some [PASSWORD; EMAIL]))
  = lit "My password: [REDACTED_PASSWORD] and my email is [REDACTED_EMAIL]".
Proof. vm_compute. reflexivity. Qed.

(** ** The merge of [detect_pii] *)

Lemma span_eqb_eq (a b : Span) : span_eqb a b = true <-> a = b.
Proof.
  destruct a as [a1 a2], b as [b1 b2]. unfold span_eqb. simpl.
  rewrite andb_true_iff, !Nat.eqb_eq. split.
  - intros [-> ->]. reflexivity.
  - intros H. inversion H. auto.
Qed.

Lemma span_mem_In (p : Span) (seen : list Span) :
  span_mem p seen = true <-> In p seen.
Proof.
  unfold span_mem. rewrite existsb_exists. split.
  - intros [q [Hin Heq]]. apply span_eqb_eq in Heq. now subst.
  - intros Hin. exists p. split; [assumption|]. now apply span_eqb_eq.
Qed.

Lemma span_mem_app (p : Span) (l1 l2 : list Span) :
  span_mem p (l1 ++ l2) = span_mem p l1 || span_mem p l2.
Proof. unfold span_mem. apply existsb_app. Qed.

(** The positions recorded by the loop are those of the detections it
    started from and of the pattern detections it has gone through. *)
Lemma merge_loop_seen (rx : list Detection) :
  forall acc p,
    span_mem p (snd (fold_left merge_step rx acc))
    = span_mem p (snd acc) || span_mem p (map span_of rx).
Proof.
  induction rx as [|d rx IH]; intros acc p; simpl.
  - now rewrite orb_false_r.
  - rewrite IH. unfold merge_step.
    destruct (span_mem (span_of d) (snd acc)) eqn:Hd; simpl.
    + destruct (span_eqb p (span_of d)) eqn:Hp; simpl; [|reflexivity].
      apply span_eqb_eq in Hp. subst p. rewrite Hd. reflexivity.
    + destruct (span_eqb p (span_of d)); simpl.
      * now rewrite orb_true_r.
      * reflexivity.
Qed.

Lemma merge_detections_nil (lx : list Detection) :
  merge_detections lx [] = lx.
Proof. reflexivity. Qed.

(** C4, as amended: a pattern-based detection [d] is discarded exactly
    when its exact [(start, end)] span is already that of a detection
    met before it: a high-accuracy detection, or a pattern-based
    detection earlier in the list; otherwise it is appended, whether or
    not it overlaps other spans. *)
Theorem merge_detections_snoc (lx pre : list Detection) (d : Detection) :
  merge_detections lx (pre ++ [d])
  = if span_mem (span_of d) (map span_of (lx ++ pre))
    then merge_detections lx pre
    else merge_detections lx pre ++ [d].
Proof.
  unfold merge_detections. rewrite fold_left_app. simpl.
  unfold merge_step at 1.
  rewrite merge_loop_seen. simpl.
  rewrite map_app, span_mem_app.
  destruct (span_mem (span_of d) (map span_of lx) || span_mem (span_of d) (map span_of pre));
    reflexivity.
Qed.

(** C4, as stated, fails: with no high-accuracy detection at all, the
    API-key detection of [sk-aaa...] is discarded, because the password
    pattern has already reported the same span. *)
Lemma merge_discards_pattern_duplicate :
  let content := lit "password=sk-aaaaaaaaaaaaaaaaaaaaaaaaaaaaaaaa" in
  let regex_detections := fst (_detect_with_regex content [PASSWORD; API_KEY]) in
  let discarded :=
    {| category := API_KEY;
       text := lit "sk-aaaaaaaaaaaaaaaaaaaaaaaaaaaaaaaa";
       start := 9; end_ := 44;
       confidence := 0x1.999999999999ap-1%float;
       source := regex_source |} in
  In discarded regex_detections /\
  ~ In discarded (merge_detections [] regex_detections) /\
  detections (detect_pii default_settings {| _langextract := None |} content
                         (Some [PASSWORD; API_KEY]))
  = merge_detections [] regex_detections.
Proof.
  cbv zeta. split; [|split].
  - vm_compute. right. left. reflexivity.
  - vm_compute. intros [H | []]. discriminate H.
  - vm_compute. reflexivity.
Qed.

End PIIEngine.

(* ================================================================== *)
(** * Stable sorting by a numeric key *)
(* ================================================================== *)

Section SortedBy.

Import Py.

Variable A : Type.
Variable key : A -> nat.

Local Abbreviation precedes := (fun a b : A => key a <? key b).
Local Abbreviation key_le := (fun a b : A => key a <= key b).
Local Abbreviation key_lt := (fun a b : A => key a < key b).

Lemma insert_by_perm (x : A) (l : list A) :
  Permutation (insert_by precedes x l) (x :: l).
Proof.
  induction l as [|y t IH]; simpl; [reflexivity|].
  destruct (precedes y x); [|reflexivity].
  rewrite IH. apply perm_swap.
Qed.

Lemma sorted_by_perm (l : list A) : Permutation (sorted_by precedes l) l.
Proof.
  induction l as [|x t IH]; simpl; [reflexivity|].
  unfold sorted_by in *. simpl. rewrite insert_by_perm. now constructor.
Qed.

Lemma insert_by_sorted (x : A) (l : list A) :
  StronglySorted key_le l -> StronglySorted key_le (insert_by precedes x l).
Proof.
  induction 1 as [|y t Hs IH Hy]; simpl.
  - repeat constructor.
  - destruct (key y <? key x) eqn:Hlt.
    + apply Nat.ltb_lt in Hlt. constructor; [exact IH|].
      rewrite Forall_forall in *. intros z Hz.
      apply (Permutation_in _ (insert_by_perm x t)) in Hz.
      destruct Hz as [<- | Hz]; [simpl; lia | now apply Hy].
    + apply Nat.ltb_ge in Hlt. constructor; [now constructor|].
      constructor; [exact Hlt|].
      rewrite Forall_forall in *. intros z Hz.
      specialize (Hy z Hz). simpl in *. lia.
Qed.

Lemma sorted_by_sorted (l : list A) : StronglySorted key_le (sorted_by precedes l).
Proof.
  induction l as [|x t IH]; unfold sorted_by in *; simpl.
  - constructor.
  - now apply insert_by_sorted.
Qed.

(** A list sorted by strictly increasing keys is the only sorted
    arrangement of its elements. *)
Lemma sorted_unique (l1 : list A) :
  forall l2, StronglySorted key_le l1 -> StronglySorted key_lt l2 ->
             Permutation l1 l2 -> l1 = l2.
Proof.
  induction l1 as [|a l1 IH]; intros l2 H1 H2 Hp.
  - apply Permutation_nil in Hp. now subst.
  - destruct l2 as [|b l2].
    { apply Permutation_sym, Permutation_nil in Hp. discriminate. }
    inversion H1 as [|? ? H1' Ha]; subst.
    inversion H2 as [|? ? H2' Hb]; subst.
    rewrite Forall_forall in Ha, Hb.
    assert (Hab : a = b).
    { assert (Hina : In a (b :: l2))
        by (apply (Permutation_in _ Hp); now left).
      assert (Hinb : In b (a :: l1))
        by (apply (Permutation_in _ (Permutation_sym Hp)); now left).
      destruct Hina as [Heq | Hina]; [now symmetry|].
      destruct Hinb as [Heq | Hinb]; [exact Heq|].
      specialize (Ha _ Hinb). specialize (Hb _ Hina).
      simpl in *. lia. }
    subst b. f_equal. apply IH; try assumption.
    now apply Permutation_cons_inv in Hp.
Qed.

Lemma sorted_by_of_perm (l l0 : list A) :
  Permutation l l0 -> StronglySorted key_lt l0 -> sorted_by precedes l = l0.
Proof.
  intros Hp Hs. apply sorted_unique.
  - apply sorted_by_sorted.
  - exact Hs.
  - now rewrite sorted_by_perm.
Qed.

End SortedBy.

(* ================================================================== *)
(** * Properties of the embedding service *)
(* ================================================================== *)

Section Embedding.

Import Py EmbeddingService EmbeddingSpec.

Variable md5_hexdigest : list byte -> str.
Variable load_model : str -> SentenceTransformer.

Local Abbreviation cache_key := (_get_cache_key md5_hexdigest).
Local Abbreviation embed_text := (embed_text md5_hexdigest load_model).
Local Abbreviation embed_texts := (embed_texts md5_hexdigest load_model).
Local Abbreviation partition_step := (partition_step md5_hexdigest).
Local Abbreviation store_step := (store_step md5_hexdigest).
Local Abbreviation model_of := (EmbeddingSpec.model_of load_model).
Local Abbreviation lookup := (EmbeddingSpec.lookup md5_hexdigest).
Local Abbreviation cached_or_encoded :=
  (EmbeddingSpec.cached_or_encoded md5_hexdigest load_model).
Local Abbreviation partition_pure := (EmbeddingSpec.partition_pure md5_hexdigest).
Local Abbreviation hits := (EmbeddingSpec.hits md5_hexdigest).
Local Abbreviation missed := (EmbeddingSpec.missed md5_hexdigest).
Local Abbreviation resolved := (EmbeddingSpec.resolved md5_hexdigest load_model).
Local Abbreviation encoded := (EmbeddingSpec.encoded load_model).

Lemma same_store_refl s : same_store s s.
Proof. repeat split. Qed.

Lemma same_store_trans s1 s2 s3 :
  same_store s1 s2 -> same_store s2 s3 -> same_store s1 s3.
Proof.
  intros (a & b & c & d) (a' & b' & c' & d'). repeat split; congruence.
Qed.

Lemma lookup_same_store s s' text :
  same_store s s' -> lookup s' text = lookup s text.
Proof. intros (_ & _ & Hc & He). unfold EmbeddingSpec.lookup. now rewrite Hc, He. Qed.

Lemma embed_text_value (s : Service) (text : str) :
  fst (embed_text text s) = cached_or_encoded s text.
Proof.
  unfold EmbeddingService.embed_text, cached_or_encoded, lookup, model_of,
    bind, ret, cache_enabled, cache_get, emit, _get_model, model_encode.
  destruct s as [mo name cache en tr]; simpl.
  destruct en; simpl.
  - destruct (dict_get cache (cache_key text)); simpl; [reflexivity|].
    destruct mo; simpl;
      match goal with
      | |- context [evict_oldest ?st] => destruct (evict_oldest st)
      end; reflexivity.
  - destruct mo; reflexivity.
Qed.

(** ** The first loop *)

Lemma partition_step_spec (acc : Partition) (it : nat * str) (s : Service) :
  fst (partition_step acc it s) = partition_pure s acc it /\
  same_store s (snd (partition_step acc it s)).
Proof.
  destruct acc as [[E T] I], it as [i text].
  unfold EmbeddingService.partition_step, partition_pure, lookup,
    bind, ret, cache_enabled, cache_get, emit.
  destruct s as [mo name cache en tr]; simpl.
  destruct en; simpl.
  - destruct (dict_get cache (cache_key text)); simpl; repeat split.
  - repeat split.
Qed.

Lemma partition_pure_same_store s s' acc it :
  same_store s s' -> partition_pure s' acc it = partition_pure s acc it.
Proof.
  intros Hs. destruct acc as [[E T] I]. unfold EmbeddingSpec.partition_pure.
  now rewrite (lookup_same_store _ Hs).
Qed.

Lemma partition_fold_same_store s s' (l : list (nat * str)) :
  same_store s s' ->
  forall acc, fold_left (partition_pure s') l acc = fold_left (partition_pure s) l acc.
Proof.
  intros Hs. induction l as [|it l IH]; intros acc; simpl; [reflexivity|].
  now rewrite IH, (partition_pure_same_store _ _ Hs).
Qed.

Lemma partition_loop_spec (l : list (nat * str)) :
  forall acc s,
    fst (fold_m partition_step l acc s) = fold_left (partition_pure s) l acc /\
    same_store s (snd (fold_m partition_step l acc s)).
Proof.
  induction l as [|it l IH]; intros acc s; simpl.
  - split; [reflexivity | apply same_store_refl].
  - unfold bind.
    destruct (partition_step_spec acc it s) as [Hv Hs].
    destruct (partition_step acc it s) as [acc' s']; simpl in *.
    destruct (IH acc' s') as [Hv' Hs']. split.
    + now rewrite Hv', Hv, (partition_fold_same_store _ Hs).
    + eapply same_store_trans; eassumption.
Qed.

Lemma partition_pure_loop (s : Service) (l : list (nat * str)) :
  forall E T I,
    fold_left (partition_pure s) l (E, T, I)
    = (E ++ hits s l, T ++ map snd (missed s l), I ++ map fst (missed s l)).
Proof.
  induction l as [|it l IH]; intros E T I; simpl.
  - now rewrite !app_nil_r.
  - destruct (lookup s (snd it)); simpl; rewrite IH.
    + now rewrite <- app_assoc.
    + now rewrite <- !app_assoc.
Qed.

(** ** The second loop *)

Lemma store_loop_value (texts : list str) (l : list (nat * Vector)) :
  forall E s, fst (fold_m (store_step texts) l E s) = E ++ l.
Proof.
  induction l as [|it l IH]; intros E s; simpl.
  - now rewrite app_nil_r.
  - unfold bind at 1.
    destruct (store_step texts E it s) as [E' s'] eqn:Hstep.
    rewrite IH.
    assert (E' = E ++ [it]) as ->.
    { destruct it as [idx v].
      unfold EmbeddingService.store_step, bind, ret, cache_enabled in Hstep.
      destruct (_cache_enabled s); cbv beta iota in Hstep;
        [destruct (cache_set (cache_key (nth idx texts [])) v s)|];
        now inversion Hstep. }
    now rewrite <- app_assoc.
Qed.

(** ** Merging back into the original order *)

Lemma combine_missed (s : Service) (l : list (nat * str)) :
  combine (map fst (missed s l)) (map (encode_text (model_of s)) (map snd (missed s l)))
  = encoded s (missed s l).
Proof.
  unfold EmbeddingSpec.encoded. induction (missed s l) as [|it m IH]; simpl; [reflexivity|].
  now rewrite IH.
Qed.

Lemma hits_missed_perm (s : Service) (l : list (nat * str)) :
  Permutation (hits s l ++ encoded s (missed s l)) (resolved s l).
Proof.
  unfold EmbeddingSpec.resolved, EmbeddingSpec.encoded.
  induction l as [|it l IH]; simpl; [reflexivity|].
  unfold EmbeddingSpec.cached_or_encoded at 1.
  destruct (lookup s (snd it)); simpl.
  - now constructor.
  - rewrite <- Permutation_middle. now constructor.
Qed.

Lemma resolved_sorted (s : Service) (texts : list str) :
  forall k,
    StronglySorted (fun a b => fst a < fst b)
                   (resolved s (combine (List.seq k (List.length texts)) texts)).
Proof.
  induction texts as [|t texts IH]; intros k; simpl.
  - constructor.
  - constructor; [apply IH|].
    rewrite Forall_forall. intros [i v] Hin. simpl.
    unfold EmbeddingSpec.resolved in Hin. apply in_map_iff in Hin.
    destruct Hin as [[j t'] [Heq Hin]]. inversion Heq; subst.
    apply in_combine_l in Hin. apply in_seq in Hin. simpl. lia.
Qed.

Lemma resolved_values (s : Service) (texts : list str) :
  forall k,
    map snd (resolved s (combine (List.seq k (List.length texts)) texts))
    = map (cached_or_encoded s) texts.
Proof.
  induction texts as [|t texts IH]; intros k; simpl; [reflexivity|].
  f_equal. apply IH.
Qed.

Lemma get_model_spec (s : Service) :
  fst (_get_model load_model s) = model_of s /\
  _cache (snd (_get_model load_model s)) = _cache s /\
  _cache_enabled (snd (_get_model load_model s)) = _cache_enabled s /\
  model_of (snd (_get_model load_model s)) = model_of s.
Proof.
  unfold _get_model, EmbeddingSpec.model_of.
  destruct (_model s) eqn:Hmodel; simpl; rewrite ?Hmodel; repeat split.
Qed.

Lemma embed_texts_value (s : Service) (texts : list str) (batch_size : Z) :
  batch_consistent (model_of s) ->
  fst (embed_texts texts batch_size s) = map (cached_or_encoded s) texts.
Proof.
  intros Hbatch.
  destruct texts as [|t0 texts0]; [reflexivity|].
  unfold EmbeddingService.embed_texts.
  generalize (t0 :: texts0) as texts. intros texts.
  unfold embed_texts_nonempty.
  unfold bind at 1.
  destruct (get_model_spec s) as (Hm & Hc & He & Hmo).
  destruct (_get_model load_model s) as [model s1]; simpl in Hm, Hc, He, Hmo.
  assert (Hlook : forall text, lookup s1 text = lookup s text).
  { intros text. unfold EmbeddingSpec.lookup. now rewrite Hc, He. }
  assert (Hres : forall l, resolved s1 l = resolved s l).
  { intros l. unfold EmbeddingSpec.resolved, EmbeddingSpec.cached_or_encoded.
    apply map_ext. intros it. now rewrite Hlook, Hmo. }
  unfold bind at 1.
  destruct (partition_loop_spec (enumerate texts) ([], [], []) s1) as [Hv Hs].
  destruct (fold_m partition_step (enumerate texts) ([], [], []) s1)
    as [parts s2]; simpl in Hv, Hs.
  rewrite partition_pure_loop in Hv. simpl in Hv. subst parts.
  assert (Hfinal : forall E,
             Permutation E (resolved s1 (enumerate texts)) ->
             map snd (sorted_by (fun a b => fst a <? fst b) E)
             = map (cached_or_encoded s) texts).
  { intros E Hp. rewrite (sorted_by_of_perm fst Hp).
    - rewrite Hres. apply resolved_values.
    - apply resolved_sorted. }
  unfold bind.
  destruct (map snd (missed s1 (enumerate texts))) as [|m0 ms] eqn:Hmiss.
  - unfold ret. simpl. apply Hfinal.
    rewrite <- hits_missed_perm.
    destruct (missed s1 (enumerate texts)); [|discriminate].
    simpl. now rewrite app_nil_r.
  - rewrite <- Hmiss.
    unfold model_encode_batch, bind, emit, ret.
    match goal with
    | |- fst (let (_, _) := fold_m ?f ?l ?E ?st in _) = _ =>
        pose proof (store_loop_value texts l E st) as Hstore;
        destruct (fold_m f l E st) as [E' s3]
    end.
    simpl in Hstore. subst E'. simpl. apply Hfinal.
    rewrite <- hits_missed_perm.
    rewrite Hm, Hbatch, <- Hmo, combine_missed.
    reflexivity.
Qed.

(** C1, as amended: [embed_texts] returns as many vectors as there are
    texts, and its i-th vector is the one [embed_text] returns for the
    i-th text from the same state, whatever the order and the
    repetitions of the texts, provided the batched [encode] returns, for
    every list of texts and every batch size, the vector the single
    [encode] returns for each text. *)
Theorem embed_texts_elementwise (s : Service) (texts : list str) (batch_size : Z) :
  batch_consistent (model_of s) ->
  List.length (fst (embed_texts texts batch_size s)) = List.length texts /\
  forall i, i < List.length texts ->
            nth i (fst (embed_texts texts batch_size s)) []
            = fst (embed_text (nth i texts []) s).
Proof.
  intros Hbatch. rewrite embed_texts_value by exact Hbatch. split.
  - apply length_map.
  - intros i Hi. rewrite embed_text_value.
    rewrite (nth_indep _ [] (cached_or_encoded s [])) by (now rewrite length_map).
    apply map_nth.
Qed.

(** C10: on the empty list [embed_texts] returns the empty list and
    leaves the service as it was: the model is not loaded, the cache is
    neither read nor written, and no event is recorded. *)
Theorem embed_texts_empty (s : Service) (batch_size : Z) :
  embed_texts [] batch_size s = ([], s) /\
  _model (snd (embed_texts [] batch_size s)) = _model s /\
  _cache (snd (embed_texts [] batch_size s)) = _cache s /\
  trace (snd (embed_texts [] batch_size s)) = trace s.
Proof. repeat split. Qed.

(** ** The size of the cache *)

Lemma key_eqb_refl (k : str) : key_eqb k k = true.
Proof. unfold key_eqb. destruct (list_eq_dec ascii_dec k k); congruence. Qed.

Lemma key_eqb_neq (k k' : str) : k <> k' -> key_eqb k k' = false.
Proof. unfold key_eqb. destruct (list_eq_dec ascii_dec k k'); congruence. Qed.

Lemma dict_get_none (d : list (str * Vector)) (k : str) :
  dict_get d k = None <-> ~ In k (keys d).
Proof.
  induction d as [|[k' v'] d IH]; simpl.
  - tauto.
  - unfold key_eqb. destruct (list_eq_dec ascii_dec k' k) as [-> | Hne].
    + split; [discriminate | intros H; exfalso; apply H; now left].
    + rewrite IH. tauto.
Qed.

(** Writing a key the dictionary does not hold appends the entry. *)
Lemma dict_set_new (d : list (str * Vector)) (k : str) (v : Vector) :
  ~ In k (keys d) -> dict_set d k v = d ++ [(k, v)].
Proof.
  induction d as [|[k' v'] d IH]; simpl; intros Hk; [reflexivity|].
  rewrite key_eqb_neq by tauto. f_equal. apply IH. tauto.
Qed.

(** Deleting the first [n] keys, oldest first, leaves the entries after
    the first [n]. *)
Lemma delete_oldest (d : list (str * Vector)) :
  forall n, NoDup (keys d) ->
            fold_left dict_del (firstn n (keys d)) d = skipn n d.
Proof.
  induction d as [|[k v] d IH]; intros n Hnd.
  - now destruct n.
  - destruct n as [|n]; [reflexivity|].
    inversion Hnd; subst. simpl. rewrite key_eqb_refl. now apply IH.
Qed.

Lemma for_each_del (ks : list str) :
  forall s,
    _cache (snd (for_each ks cache_del s)) = fold_left dict_del ks (_cache s).
Proof.
  induction ks as [|k ks IH]; intros s; simpl; [reflexivity|].
  unfold bind at 1. unfold cache_del at 1, bind, emit, with_cache. simpl.
  now rewrite IH.
Qed.

Lemma evict_oldest_cache (s : Service) :
  NoDup (keys (_cache s)) ->
  _cache (snd (evict_oldest s))
  = if (10000 <? Z.of_nat (List.length (_cache s)))%Z
    then skipn (Z.to_nat 5000) (_cache s)
    else _cache s.
Proof.
  intros Hnd. unfold evict_oldest, bind, cache_len, cache_keys, ret.
  destruct (10000 <? Z.of_nat (List.length (_cache s)))%Z; [|reflexivity].
  rewrite for_each_del. now apply delete_oldest.
Qed.

(** The cache after [embed_text]: unchanged on a hit or when caching is
    off; on a miss the new entry goes last and, if that makes more than
    10000 entries, the oldest 5000 are dropped. *)
Lemma embed_text_cache (s : Service) (text : str) :
  NoDup (keys (_cache s)) ->
  _cache (snd (embed_text text s))
  = match lookup s text with
    | Some _ => _cache s
    | None =>
        if _cache_enabled s then
          let d := _cache s ++ [(cache_key text, encode_text (model_of s) text)] in
          if (10000 <? Z.of_nat (List.length d))%Z
          then skipn (Z.to_nat 5000) d else d
        else _cache s
    end.
Proof.
  intros Hnd.
  unfold EmbeddingService.embed_text, lookup, model_of,
    bind, ret, cache_enabled, cache_get, emit, _get_model, model_encode.
  destruct s as [mo name cache en tr]; simpl in *.
  destruct en; simpl.
  - destruct (dict_get cache (cache_key text)) eqn:Hget; simpl; [reflexivity|].
    apply dict_get_none in Hget.
    assert (Hnd' : forall v, NoDup (keys (dict_set cache (cache_key text) v))).
    { intros v. rewrite dict_set_new by assumption.
      unfold keys. rewrite map_app. simpl.
      apply NoDup_app; [assumption | repeat constructor; simpl; tauto | ].
      intros k Hin [<- | []]. contradiction. }
    destruct mo; simpl; unfold cache_set, bind, emit, with_cache; simpl;
      match goal with
      | |- context [evict_oldest ?st] =>
          pose proof (@evict_oldest_cache st) as Hev;
          destruct (evict_oldest st) as [u s']
      end; simpl in *; rewrite Hev by apply Hnd';
      now rewrite dict_set_new by assumption.
  - destruct mo; reflexivity.
Qed.

(** A cache within the ceiling stays within it under [embed_text], and
    keeps distinct keys. *)
Lemma embed_text_cache_bounded (s : Service) (text : str) :
  NoDup (keys (_cache s)) ->
  (Z.of_nat (List.length (_cache s)) <= 10000)%Z ->
  NoDup (keys (_cache (snd (embed_text text s)))) /\
  (Z.of_nat (List.length (_cache (snd (embed_text text s)))) <= 10000)%Z.
Proof.
  intros Hnd Hlen. rewrite embed_text_cache by assumption.
  destruct (lookup s text) eqn:Hlook; [now split|].
  destruct (_cache_enabled s) eqn:Hen; [|now split].
  unfold EmbeddingSpec.lookup in Hlook. rewrite Hen in Hlook. apply dict_get_none in Hlook.
  cbv zeta.
  assert (Hnd' : NoDup (keys (_cache s ++ [(cache_key text, encode_text (model_of s) text)]))).
  { unfold keys. rewrite map_app. simpl.
    apply NoDup_app; [assumption | repeat constructor; simpl; tauto | ].
    intros k Hin [<- | []]. contradiction. }
  destruct (10000 <? _)%Z eqn:Hover.
  - split.
    + unfold keys in *. rewrite <- (firstn_skipn (Z.to_nat 5000)) in Hnd'.
      rewrite <- skipn_map. now apply NoDup_app_remove_l in Hnd'.
    + rewrite length_skipn, length_app. simpl. lia.
  - split; [assumption|]. apply Z.ltb_ge in Hover. exact Hover.
Qed.

(** ** The cache after [embed_texts] *)

Lemma enumerate_from_nth (l : list str) :
  forall k i t, In (i, t) (combine (List.seq k (List.length l)) l) ->
                k <= i /\ nth (i - k) l [] = t.
Proof.
  induction l as [|a l IH]; intros k i t Hin; simpl in Hin; [contradiction|].
  destruct Hin as [Heq | Hin].
  - inversion Heq; subst. rewrite Nat.sub_diag. split; [lia | reflexivity].
  - apply IH in Hin. destruct Hin as [Hle Hnth]. split; [lia|].
    replace (i - k) with (S (i - S k)) by lia. exact Hnth.
Qed.

Lemma enumerate_nth (texts : list str) (i : nat) (t : str) :
  In (i, t) (enumerate texts) -> nth i texts [] = t.
Proof.
  intros Hin. apply enumerate_from_nth in Hin.
  destruct Hin as [_ Hnth]. now rewrite Nat.sub_0_r in Hnth.
Qed.

Lemma enumerate_values (texts : list str) : map snd (enumerate texts) = texts.
Proof.
  unfold enumerate. generalize 0.
  induction texts as [|t texts IH]; intros k; simpl; [reflexivity|].
  now rewrite IH.
Qed.

Lemma missed_incl (s : Service) (l : list (nat * str)) (it : nat * str) :
  In it (missed s l) -> In it l.
Proof.
  unfold EmbeddingSpec.missed. rewrite in_flat_map. intros [x [Hx Hin]].
  destruct (lookup s (snd x)); [contradiction|].
  destruct Hin as [<- | []]. exact Hx.
Qed.

Lemma fold_left_ext_in (A B : Type) (f g : A -> B -> A) (l : list B) :
  (forall a b, In b l -> f a b = g a b) ->
  forall a, fold_left f l a = fold_left g l a.
Proof.
  induction l as [|b l IH]; intros Hfg a; simpl; [reflexivity|].
  rewrite Hfg by now left. apply IH. intros a' b' Hb'. apply Hfg. now right.
Qed.

Lemma fold_left_map (A B C : Type) (f : A -> C -> A) (g : B -> C) (l : list B) :
  forall a, fold_left f (map g l) a = fold_left (fun a x => f a (g x)) l a.
Proof. induction l as [|b l IH]; intros a; simpl; [reflexivity | apply IH]. Qed.

Lemma store_step_cache (texts : list str) (E : list (nat * Vector))
      (it : nat * Vector) (s : Service) :
  _cache_enabled (snd (store_step texts E it s)) = _cache_enabled s /\
  _cache (snd (store_step texts E it s))
  = if _cache_enabled s
    then dict_set (_cache s) (cache_key (nth (fst it) texts [])) (snd it)
    else _cache s.
Proof.
  destruct it as [idx v].
  unfold EmbeddingService.store_step, bind, ret, cache_enabled, cache_set,
    emit, with_cache.
  destruct (_cache_enabled s) eqn:Hen; simpl; now rewrite ?Hen.
Qed.

Lemma store_loop_cache (texts : list str) (l : list (nat * Vector)) :
  forall E s,
    _cache_enabled s = true ->
    _cache (snd (fold_m (store_step texts) l E s))
    = fold_left (fun d it => dict_set d (cache_key (nth (fst it) texts [])) (snd it))
                l (_cache s).
Proof.
  induction l as [|it l IH]; intros E s Hen; simpl; [reflexivity|].
  unfold bind at 1.
  destruct (store_step_cache texts E it s) as [He Hc].
  destruct (store_step texts E it s) as [E' s']; simpl in He, Hc.
  rewrite Hen in He, Hc. rewrite IH by exact He. now rewrite Hc.
Qed.

(** With caching on, [embed_texts] writes one entry per missed text and
    deletes nothing. *)
Lemma embed_texts_cache (s : Service) (texts : list str) (batch_size : Z) :
  batch_consistent (model_of s) ->
  _cache_enabled s = true ->
  _cache (snd (embed_texts texts batch_size s))
  = fold_left (fun d it => dict_set d (cache_key (snd it))
                                    (encode_text (model_of s) (snd it)))
              (missed s (enumerate texts)) (_cache s).
Proof.
  intros Hbatch Hen.
  destruct texts as [|t0 texts0]; [reflexivity|].
  unfold EmbeddingService.embed_texts.
  generalize (t0 :: texts0) as texts. intros texts.
  unfold embed_texts_nonempty.
  unfold bind at 1.
  destruct (get_model_spec s) as (Hm & Hc & He & Hmo).
  destruct (_get_model load_model s) as [model s1]; simpl in Hm, Hc, He, Hmo.
  assert (Hmissed : missed s1 (enumerate texts) = missed s (enumerate texts)).
  { unfold EmbeddingSpec.missed. apply flat_map_ext. intros it.
    unfold EmbeddingSpec.lookup. now rewrite Hc, He. }
  unfold bind at 1.
  destruct (partition_loop_spec (enumerate texts) ([], [], []) s1) as [Hv Hs].
  destruct (fold_m partition_step (enumerate texts) ([], [], []) s1)
    as [parts s2]; simpl in Hv, Hs.
  rewrite partition_pure_loop in Hv. simpl in Hv. subst parts.
  destruct Hs as (_ & _ & Hc2 & He2).
  unfold bind.
  destruct (map snd (missed s1 (enumerate texts))) as [|m0 ms] eqn:Hmiss.
  - unfold ret. simpl. rewrite <- Hmissed.
    destruct (missed s1 (enumerate texts)); [|discriminate].
    simpl. congruence.
  - rewrite <- Hmiss.
    unfold model_encode_batch, bind, emit, ret.
    match goal with
    | |- _cache (snd (let (_, _) := fold_m ?f ?l ?E ?st in _)) = _ =>
        pose proof (@store_loop_cache texts l E st) as Hstore;
        destruct (fold_m f l E st) as [E' s3]
    end.
    simpl in Hstore |- *. rewrite Hstore by congruence.
    rewrite Hm, Hbatch, <- Hmo, combine_missed, Hc2, Hc, Hmissed.
    unfold EmbeddingSpec.encoded. rewrite fold_left_map. simpl.
    apply fold_left_ext_in. intros d it Hin.
    apply missed_incl in Hin. destruct it as [i t].
    apply enumerate_nth in Hin. simpl. now rewrite Hin, Hmo.
Qed.

Lemma write_new_entries (enc : str -> Vector) (ts : list str) :
  forall d, NoDup (keys d ++ map cache_key ts) ->
            fold_left (fun d t => dict_set d (cache_key t) (enc t)) ts d
            = d ++ map (fun t => (cache_key t, enc t)) ts.
Proof.
  induction ts as [|t ts IH]; intros d Hnd; simpl.
  - now rewrite app_nil_r.
  - assert (Hnew : ~ In (cache_key t) (keys d)).
    { intros Hin. apply NoDup_remove_2 in Hnd. apply Hnd.
      apply in_or_app. now left. }
    rewrite dict_set_new by exact Hnew. rewrite IH.
    + now rewrite <- app_assoc.
    + unfold keys in *. rewrite map_app. simpl. now rewrite <- app_assoc.
Qed.

(** C3, on [embed_texts]: from an empty cache, with caching on, the
    texts of a batch whose cache keys are pairwise distinct all end up
    in the cache, however many they are; no entry is evicted, so a batch
    of more than 10000 such texts leaves more than 10000 entries. *)
Theorem embed_texts_cache_unbounded (s : Service) (texts : list str)
        (batch_size : Z) :
  batch_consistent (model_of s) ->
  _cache_enabled s = true ->
  _cache s = [] ->
  NoDup (map cache_key texts) ->
  _cache (snd (embed_texts texts batch_size s))
  = map (fun t => (cache_key t, encode_text (model_of s) t)) texts /\
  List.length (_cache (snd (embed_texts texts batch_size s))) = List.length texts.
Proof.
  intros Hbatch Hen Hempty Hnd.
  assert (Hcache : _cache (snd (embed_texts texts batch_size s))
                   = map (fun t => (cache_key t, encode_text (model_of s) t)) texts).
  { rewrite embed_texts_cache by assumption.
    assert (Hmissed : missed s (enumerate texts) = enumerate texts).
    { unfold EmbeddingSpec.missed, EmbeddingSpec.lookup. rewrite Hen, Hempty. simpl.
      induction (enumerate texts) as [|it l IH]; simpl; [reflexivity|].
      now rewrite IH. }
    rewrite Hmissed, Hempty.
    rewrite <- (enumerate_values texts) at 2.
    rewrite <- (fold_left_map
                  (fun d t => dict_set d (cache_key t) (encode_text (model_of s) t))
                  snd).
    rewrite enumerate_values.
    now rewrite write_new_entries. }
  split; [exact Hcache|]. rewrite Hcache. apply length_map.
Qed.

End Embedding.

(* ================================================================== *)
(** * The embedding theorems on sample collaborators *)
(* ================================================================== *)

Section EmbeddingSamples.

Import Py EmbeddingService EmbeddingSpec.
Import PrimFloat.

Lemma embed_texts_elementwise_witness :
  nth 1 (fst (embed_texts sample_digest sample_load
                          [lit "a"; lit "b"; lit "a"] 32 warm_service)) []
  = fst (embed_text sample_digest sample_load (lit "b") warm_service).
Proof.
  apply (proj2 (@embed_texts_elementwise sample_digest sample_load warm_service
                  [lit "a"; lit "b"; lit "a"] 32%Z
                  (fun texts batch_size => eq_refl))).
  simpl. lia.
Defined.

Lemma sample_key_length (n : nat) :
  List.length (_get_cache_key sample_digest (repeat "a"%char n)) = n.
Proof.
  unfold _get_cache_key, sample_digest. rewrite length_map.
  induction n as [|n IH]; simpl; [reflexivity | now rewrite IH].
Qed.

Lemma NoDup_map_injective (A B : Type) (f : A -> B) (l : list A) :
  (forall x y, f x = f y -> x = y) -> NoDup l -> NoDup (map f l).
Proof.
  intros Hinj. induction 1 as [|x l Hx Hnd IH]; simpl; constructor.
  - rewrite in_map_iff. intros [y [Heq Hy]]. apply Hinj in Heq. now subst.
  - exact IH.
Qed.

Lemma many_texts_distinct_keys :
  NoDup (map (_get_cache_key sample_digest) many_texts).
Proof.
  unfold many_texts. rewrite map_map.
  apply NoDup_map_injective; [|apply seq_NoDup].
  intros n n' Heq. apply (f_equal (@List.length ascii)) in Heq.
  now rewrite !sample_key_length in Heq.
Qed.

Lemma embed_texts_cache_unbounded_witness :
  (10000 <
   Z.of_nat (List.length
               (_cache (snd (embed_texts sample_digest sample_load many_texts 32
                                         (init default_settings))))))%Z.
Proof.
  rewrite (proj2 (@embed_texts_cache_unbounded sample_digest sample_load
                    (init default_settings) many_texts 32%Z
                    (fun texts batch_size => eq_refl) eq_refl eq_refl
                    many_texts_distinct_keys)).
  unfold many_texts. rewrite length_map, length_seq. lia.
Defined.

End EmbeddingSamples.

(* ================================================================== *)
(** * Facts about [strip], [split] and substrings *)
(* ================================================================== *)

Section Strings.

Import Py Text.

Lemma isspace_NL : isspace NL = true.
Proof. reflexivity. Qed.

Lemma is_nl_space (c : ascii) : is_nl c = true -> isspace c = true.
Proof.
  unfold is_nl, isspace. intros H. apply Nat.eqb_eq in H. now rewrite H.
Qed.

Lemma is_nl_NL : is_nl NL = true.
Proof. reflexivity. Qed.

Lemma trimmed_nonempty (p : str) : trimmed p -> p <> [].
Proof. intros [H _] ->. simpl in H. discriminate. Qed.

Lemma trimmed_cons (p : str) :
  trimmed p -> exists c t, p = c :: t /\ isspace c = false.
Proof.
  intros [H _]. destruct p as [|c t]; [discriminate|]. now exists c, t.
Qed.

Lemma trimmed_snoc (p : str) :
  trimmed p -> exists t c, p = t ++ [c] /\ isspace c = false.
Proof.
  intros Hp. destruct Hp as [Hh Hl].
  assert (Hne : p <> []) by (intros ->; discriminate).
  exists (removelast p), (last p NL). split; [|exact Hl].
  now apply app_removelast_last.
Qed.

(** ** [lstrip] *)

Lemma lstrip_decomp (s : str) : exists pre, s = pre ++ lstrip s /\ spaces pre.
Proof.
  induction s as [|c t [pre [Heq Hsp]]]; simpl.
  - exists []. split; [reflexivity | constructor].
  - destruct (isspace c) eqn:Hc.
    + exists (c :: pre). split; [simpl; now f_equal | now constructor].
    + exists []. split; [reflexivity | constructor].
Qed.

Lemma lstrip_head (s : str) (c : ascii) (t : str) :
  lstrip s = c :: t -> isspace c = false.
Proof.
  induction s as [|x s IH]; simpl; [discriminate|].
  destruct (isspace x) eqn:Hx; [exact IH|].
  intros H. inversion H; subst. exact Hx.
Qed.

Lemma lstrip_cons (c : ascii) (t : str) :
  isspace c = false -> lstrip (c :: t) = c :: t.
Proof. intros H. simpl. now rewrite H. Qed.

Lemma lstrip_spaces_app (a b : str) : spaces a -> lstrip (a ++ b) = lstrip b.
Proof.
  induction 1 as [|c a Hc Ha IH]; simpl; [reflexivity|]. now rewrite Hc.
Qed.

Lemma lstrip_app (a b : str) : lstrip a <> [] -> lstrip (a ++ b) = lstrip a ++ b.
Proof.
  induction a as [|c a IH]; simpl; [congruence|].
  destruct (isspace c); [exact IH | reflexivity].
Qed.

Lemma lstrip_idem (s : str) : lstrip (lstrip s) = lstrip s.
Proof.
  destruct (lstrip s) as [|c t] eqn:H; [reflexivity|].
  apply lstrip_cons. eapply lstrip_head; eassumption.
Qed.

(** ** [rstrip] *)

Lemma spaces_rev (s : str) : spaces s -> spaces (rev s).
Proof. unfold spaces. apply Forall_rev. Qed.

Lemma rstrip_decomp (s : str) : exists post, s = rstrip s ++ post /\ spaces post.
Proof.
  unfold rstrip. destruct (lstrip_decomp (rev s)) as [pre [Heq Hsp]].
  exists (rev pre). split; [|now apply spaces_rev].
  rewrite <- rev_app_distr, <- Heq. now rewrite rev_involutive.
Qed.

Lemma rstrip_snoc (t : str) (c : ascii) :
  isspace c = false -> rstrip (t ++ [c]) = t ++ [c].
Proof.
  intros H. unfold rstrip. rewrite rev_app_distr. simpl. rewrite H.
  simpl. now rewrite rev_involutive.
Qed.

Lemma rstrip_last (s t : str) (c : ascii) :
  rstrip s = t ++ [c] -> isspace c = false.
Proof.
  unfold rstrip. intros H. apply (f_equal (@rev ascii)) in H.
  rewrite rev_involutive, rev_app_distr in H. simpl in H.
  eapply lstrip_head; eassumption.
Qed.

Lemma rstrip_app_spaces (a b : str) : spaces b -> rstrip (a ++ b) = rstrip a.
Proof.
  intros Hb. unfold rstrip. rewrite rev_app_distr.
  now rewrite lstrip_spaces_app by now apply spaces_rev.
Qed.

Lemma rstrip_app (a b : str) : rstrip b <> [] -> rstrip (a ++ b) = a ++ rstrip b.
Proof.
  intros Hb. unfold rstrip in *. rewrite rev_app_distr, lstrip_app.
  - now rewrite rev_app_distr, rev_involutive.
  - intros H. apply Hb. now rewrite H.
Qed.

(** ** [strip] *)

Lemma lstrip_trimmed (p : str) : trimmed p -> lstrip p = p.
Proof.
  intros Hp. destruct (trimmed_cons Hp) as (c & t & -> & Hc).
  now apply lstrip_cons.
Qed.

Lemma rstrip_trimmed (p : str) : trimmed p -> rstrip p = p.
Proof.
  intros Hp. destruct (trimmed_snoc Hp) as (t & c & -> & Hc).
  now apply rstrip_snoc.
Qed.

Lemma strip_trimmed_id (p : str) : trimmed p -> strip p = p.
Proof.
  intros Hp. unfold strip. rewrite (lstrip_trimmed Hp). now apply rstrip_trimmed.
Qed.

Lemma last_cons_cons (A : Type) (a b : A) (l : list A) (d : A) :
  last (a :: b :: l) d = last (b :: l) d.
Proof. reflexivity. Qed.

Lemma strip_result (s : str) : strip s = [] \/ trimmed (strip s).
Proof.
  destruct (strip s) as [|c t] eqn:Hs; [now left|]. right.
  unfold strip in Hs. split.
  - simpl.
    destruct (rstrip_decomp (lstrip s)) as [post [Heq _]].
    rewrite Hs in Heq. simpl in Heq. eapply lstrip_head. exact Heq.
  - assert (Hne : c :: t <> []) by discriminate.
    rewrite (app_removelast_last NL Hne) in Hs.
    apply rstrip_last in Hs. exact Hs.
Qed.

Lemma strip_decomp (s : str) :
  exists pre post, s = pre ++ strip s ++ post /\ spaces pre /\ spaces post.
Proof.
  destruct (lstrip_decomp s) as [pre [Hl Hpre]].
  destruct (rstrip_decomp (lstrip s)) as [post [Hr Hpost]].
  exists pre, post. unfold strip. split; [|now split].
  now rewrite <- Hr.
Qed.

Lemma strip_infix (s : str) : infix (strip s) s.
Proof. destruct (strip_decomp s) as (a & b & H & _). now exists a, b. Qed.

Lemma strip_length (s : str) : List.length (strip s) <= List.length s.
Proof.
  destruct (strip_decomp s) as (a & b & H & _).
  rewrite H at 2. rewrite !length_app. lia.
Qed.

(** The stripped text followed by white space strips to itself. *)
Lemma strip_trimmed_spaces (p sp : str) :
  trimmed p -> spaces sp -> strip (p ++ sp) = p.
Proof.
  intros Hp Hsp. unfold strip.
  rewrite lstrip_app; rewrite (lstrip_trimmed Hp).
  - rewrite rstrip_app_spaces by exact Hsp. now apply rstrip_trimmed.
  - now apply trimmed_nonempty.
Qed.

Lemma spaces_blank : spaces [NL; NL].
Proof. repeat constructor. Qed.

(** ** Substrings *)

Lemma infix_refl (s : str) : infix s s.
Proof. exists [], []. now rewrite app_nil_r. Qed.

Lemma infix_trans (a b c : str) : infix a b -> infix b c -> infix a c.
Proof.
  intros (x & y & ->) (u & v & ->).
  exists (u ++ x), (y ++ v). now rewrite <- !app_assoc.
Qed.

Lemma infix_length (p s : str) : infix p s -> List.length p <= List.length s.
Proof. intros (a & b & ->). rewrite !length_app. lia. Qed.

Lemma infix_app_l (p a b : str) : infix p a -> infix p (a ++ b).
Proof. intros (x & y & ->). exists x, (y ++ b). now rewrite <- !app_assoc. Qed.

Lemma infix_app_r (p a b : str) : infix p b -> infix p (a ++ b).
Proof. intros (x & y & ->). exists (a ++ x), y. now rewrite <- !app_assoc. Qed.

Lemma skipn_infix (n : nat) (s : str) : infix (skipn n s) s.
Proof.
  exists (firstn n s), []. now rewrite app_nil_r, firstn_skipn.
Qed.

End Strings.

(* ================================================================== *)
(** * Properties of the chunker *)
(* ================================================================== *)

Section Chunker.

Import Py DocumentService Text ChunkerSpec.

(** ** Splitting on blank lines *)

Lemma split_blank_acc_whole (p : str) :
  forall cur, has_blank_line p = false ->
              split_blank_acc p cur = [rev cur ++ p].
Proof.
  induction p as [|c1 t IH]; intros cur Hp.
  - simpl. now rewrite app_nil_r.
  - destruct t as [|c2 t2].
    + simpl. reflexivity.
    + simpl in Hp. apply orb_false_iff in Hp. destruct Hp as [Hnl Hp].
      change (split_blank_acc (c1 :: c2 :: t2) cur)
        with (if is_nl c1 && is_nl c2
              then rev cur :: split_blank_acc t2 []
              else split_blank_acc (c2 :: t2) (c1 :: cur)).
      rewrite Hnl, (IH (c1 :: cur) Hp). simpl. now rewrite <- app_assoc.
Qed.

Lemma split_blank_acc_sep (p rest : str) :
  forall cur,
    has_blank_line p = false ->
    is_nl (last p NL) = false ->
    split_blank_acc (p ++ NL :: NL :: rest) cur
    = (rev cur ++ p) :: split_blank_acc rest [].
Proof.
  induction p as [|c1 t IH]; intros cur Hp Hlast.
  - simpl in Hlast. discriminate.
  - destruct t as [|c2 t2].
    + simpl in Hlast. simpl. rewrite Hlast. simpl. reflexivity.
    + simpl in Hp. apply orb_false_iff in Hp. destruct Hp as [Hnl Hp].
      change (split_blank_acc ((c1 :: c2 :: t2) ++ NL :: NL :: rest) cur)
        with (if is_nl c1 && is_nl c2
              then rev cur :: split_blank_acc (t2 ++ NL :: NL :: rest) []
              else split_blank_acc ((c2 :: t2) ++ NL :: NL :: rest) (c1 :: cur)).
      rewrite Hnl, (IH (c1 :: cur) Hp Hlast). simpl. now rewrite <- app_assoc.
Qed.

Lemma trimmed_last_not_nl (p : str) : trimmed p -> is_nl (last p NL) = false.
Proof.
  intros [_ Hl]. destruct (is_nl (last p NL)) eqn:H; [|reflexivity].
  apply is_nl_space in H. congruence.
Qed.

(** ** One iteration of the loop, case by case *)

Variable document_id : str.
Variable metadata : Metadata.
Variables chunk_size chunk_overlap : Z.

Local Abbreviation step := (chunk_step document_id metadata chunk_size chunk_overlap).
Local Abbreviation emit cur idx := (_create_chunk (strip cur) document_id idx metadata).
Local Abbreviation overlap_seed := (ChunkerSpec.overlap_seed chunk_overlap).

Lemma nonempty_true (s : str) : s <> [] -> nonempty s = true.
Proof. destruct s; [congruence | reflexivity]. Qed.

Lemma nonempty_false (s : str) : nonempty s = false -> s = [].
Proof. destruct s; [reflexivity | discriminate]. Qed.

Lemma chunk_step_blank (st : ChunkLoop) (para0 : str) :
  strip para0 = [] -> step st para0 = st.
Proof. intros H. unfold chunk_step. now rewrite H. Qed.

Lemma chunk_step_append (st : ChunkLoop) (para0 : str) :
  strip para0 <> [] ->
  (Z.of_nat (List.length (current_chunk st) + List.length (strip para0) + 2)
   <= chunk_size)%Z \/ current_chunk st = [] ->
  step st para0
  = {| chunks := chunks st;
       current_chunk := current_chunk st ++ strip para0 ++ [NL; NL];
       next_index := next_index st |}.
Proof.
  intros Hne Hfit. unfold chunk_step.
  rewrite (nonempty_true Hne). simpl.
  destruct (Z.gtb_spec (Z.of_nat (List.length (current_chunk st)
                                   + List.length (strip para0) + 2)) chunk_size)
    as [Hgt | Hle]; [|reflexivity].
  destruct Hfit as [Hfit | Hempty]; [lia|].
  destruct st as [cs cur idx]. simpl in *. now subst cur.
Qed.

Lemma chunk_step_emit (st : ChunkLoop) (para0 : str) :
  strip para0 <> [] ->
  current_chunk st <> [] ->
  (Z.of_nat (List.length (current_chunk st) + List.length (strip para0) + 2)
   > chunk_size)%Z ->
  step st para0
  = {| chunks := chunks st ++ [emit (current_chunk st) (next_index st)];
       current_chunk := overlap_seed (current_chunk st) ++ strip para0 ++ [NL; NL];
       next_index := S (next_index st) |}.
Proof.
  intros Hne Hcur Hgt. unfold chunk_step, ChunkerSpec.overlap_seed.
  rewrite (nonempty_true Hne), (nonempty_true Hcur). simpl.
  destruct (Z.gtb_spec (Z.of_nat (List.length (current_chunk st)
                                   + List.length (strip para0) + 2)) chunk_size)
    as [Hlt | Hle]; [reflexivity | lia].
Qed.

End Chunker.

Section ChunkerExample.

Import Py DocumentService Text ChunkerSpec.

Lemma last_app_nonempty (A : Type) (a b : list A) (d : A) :
  b <> [] -> last (a ++ b) d = last b d.
Proof.
  intros Hb. induction a as [|x a IH]; [reflexivity|].
  simpl. destruct (a ++ b) eqn:Hab; [|exact IH].
  apply app_eq_nil in Hab. tauto.
Qed.

Lemma trimmed_join (a mid b : str) :
  trimmed a -> trimmed b -> trimmed (a ++ mid ++ b).
Proof.
  intros Ha Hb. split.
  - destruct (trimmed_cons Ha) as (c & t & -> & Hc). exact Hc.
  - rewrite app_assoc, last_app_nonempty by now apply trimmed_nonempty.
    apply Hb.
Qed.

(** The left-trimmed tail of a text that ends with a non-space
    character is trimmed. *)
Lemma lstrip_snoc_trimmed (t : str) (c : ascii) :
  isspace c = false -> trimmed (lstrip (t ++ [c])).
Proof.
  intros Hc. induction t as [|x t IH]; simpl.
  - rewrite Hc. now split.
  - destruct (isspace x) eqn:Hx; [exact IH|]. split; [exact Hx|].
    change (x :: t ++ [c]) with ((x :: t) ++ [c]). now rewrite last_last.
Qed.

Lemma lstrip_suffix (s : str) :
  lstrip s = skipn (List.length s - List.length (lstrip s)) s.
Proof.
  destruct (lstrip_decomp s) as [pre [Heq _]].
  assert (Hn : List.length s - List.length (lstrip s) = List.length pre).
  { rewrite Heq at 1. rewrite length_app. lia. }
  rewrite Hn. rewrite Heq at 2.
  now rewrite skipn_app, skipn_all, Nat.sub_diag.
Qed.

Lemma lstrip_length (s : str) : List.length (lstrip s) <= List.length s.
Proof.
  destruct (lstrip_decomp s) as [pre [Heq _]].
  rewrite Heq at 2. rewrite length_app. lia.
Qed.

(** C5: with [chunk_size = 50] and [chunk_overlap = 10], a text made of
    two paragraphs of 40 characters separated by a blank line gives
    exactly two chunks; the first is the first paragraph, and the second
    begins with the last [k] characters of the first, for some [k]
    between 1 and 10 (the last eight characters, less leading white
    space), followed by the second paragraph. *)
Theorem chunk_two_paragraphs (settings : Settings) (doc : str)
        (meta : Metadata) (p1 p2 : str) :
  List.length p1 = 40 -> List.length p2 = 40 ->
  trimmed p1 -> trimmed p2 ->
  has_blank_line p1 = false -> has_blank_line p2 = false ->
  exists c1 c2 k,
    _chunk_content settings (p1 ++ [NL; NL] ++ p2) doc meta
                   (Some 50%Z) (Some 10%Z) = [c1; c2] /\
    content c1 = p1 /\
    content c2 = lstrip (skipn 32 p1) ++ [NL; NL] ++ p2 /\
    chunk_index c1 = 0 /\ chunk_index c2 = 1 /\
    1 <= k <= 10 /\
    firstn k (content c2)
    = skipn (List.length (content c1) - k) (content c1).
Proof.
  intros Hl1 Hl2 Ht1 Ht2 Hb1 Hb2.
  set (seed := lstrip (skipn 32 p1)).
  assert (Hseed : trimmed seed).
  { destruct (trimmed_snoc Ht1) as (t & c & Hp1 & Hc).
    unfold seed. rewrite Hp1, skipn_app.
    assert (Hlt : List.length t = 39).
    { rewrite Hp1, length_app in Hl1. simpl in Hl1. lia. }
    rewrite Hlt. change (skipn (32 - 39) [c]) with [c].
    now apply lstrip_snoc_trimmed. }
  assert (Hseedlen : 1 <= List.length seed <= 8).
  { split.
    - pose proof (trimmed_nonempty Hseed). destruct seed; [congruence|simpl; lia].
    - unfold seed. etransitivity; [apply lstrip_length|].
      rewrite length_skipn. lia. }
  assert (Hsuffix : seed = skipn (40 - List.length seed) p1).
  { unfold seed at 1. rewrite lstrip_suffix, skipn_skipn.
    fold seed. rewrite length_skipn, Hl1. f_equal. lia. }
  unfold _chunk_content. simpl or_default.
  rewrite (strip_trimmed_id (trimmed_join [NL; NL] Ht1 Ht2)).
  rewrite (nonempty_true (trimmed_nonempty (trimmed_join [NL; NL] Ht1 Ht2))).
  simpl negb. cbv iota.
  unfold split_blank. simpl app.
  rewrite split_blank_acc_sep
    by (assumption || now apply trimmed_last_not_nl).
  rewrite split_blank_acc_whole by assumption. simpl rev. simpl app.
  simpl fold_left.
  assert (Hstep1 :
            chunk_step doc meta 50 10
                       {| chunks := []; current_chunk := []; next_index := 0 |} p1
            = {| chunks := []; current_chunk := p1 ++ [NL; NL]; next_index := 0 |}).
  { rewrite chunk_step_append; rewrite ?(strip_trimmed_id Ht1);
      [reflexivity | now apply trimmed_nonempty | right; reflexivity]. }
  rewrite Hstep1.
  assert (Hstep2 :
            chunk_step doc meta 50 10
                       {| chunks := []; current_chunk := p1 ++ [NL; NL];
                          next_index := 0 |} p2
            = {| chunks := [_create_chunk (strip (p1 ++ [NL; NL])) doc 0 meta];
                 current_chunk := overlap_seed 10 (p1 ++ [NL; NL]) ++ p2 ++ [NL; NL];
                 next_index := 1 |}).
  { rewrite chunk_step_emit; simpl current_chunk; rewrite ?(strip_trimmed_id Ht2);
      [ reflexivity
      | now apply trimmed_nonempty
      | destruct (trimmed_cons Ht1) as (c & t & -> & _); discriminate
      | rewrite length_app, Hl1, Hl2; simpl; lia ]. }
  rewrite Hstep2. simpl current_chunk. simpl chunks. simpl next_index.
  assert (Hov : overlap_seed 10 (p1 ++ [NL; NL]) = seed ++ [NL; NL]).
  { unfold overlap_seed, slice_from. rewrite length_app, Hl1.
    change (Z.to_nat (Z.max 0 (Z.of_nat (40 + List.length [NL; NL]) - 10))) with 32.
    rewrite skipn_app, Hl1. change (skipn (32 - 40) [NL; NL]) with [NL; NL].
    assert (Hs : strip (skipn 32 p1 ++ [NL; NL]) = seed).
    { unfold strip. rewrite lstrip_app; fold seed.
      - rewrite rstrip_app_spaces by apply spaces_blank.
        now apply rstrip_trimmed.
      - now apply trimmed_nonempty. }
    rewrite Hs. now rewrite (nonempty_true (trimmed_nonempty Hseed)). }
  rewrite Hov.
  assert (Hfinal : strip ((seed ++ [NL; NL]) ++ p2 ++ [NL; NL])
                   = seed ++ [NL; NL] ++ p2).
  { replace ((seed ++ [NL; NL]) ++ p2 ++ [NL; NL])
      with ((seed ++ [NL; NL] ++ p2) ++ [NL; NL])
      by (now rewrite <- !app_assoc).
    apply strip_trimmed_spaces; [now apply trimmed_join | apply spaces_blank]. }
  rewrite Hfinal.
  rewrite (nonempty_true (trimmed_nonempty (trimmed_join [NL; NL] Hseed Ht2))).
  rewrite (strip_trimmed_spaces Ht1 spaces_blank).
  eexists _, _, (List.length seed).
  split; [reflexivity|]. simpl content. simpl chunk_index.
  repeat split; try reflexivity; try lia.
  rewrite firstn_app, firstn_all, Nat.sub_diag. simpl firstn.
  rewrite app_nil_r, Hl1. exact Hsuffix.
Qed.

Lemma chunk_two_paragraphs_witness :
  exists c1 c2 k,
    _chunk_content default_settings (paragraph_a ++ [NL; NL] ++ paragraph_b)
                   (lit "doc") [] (Some 50%Z) (Some 10%Z) = [c1; c2] /\
    content c1 = paragraph_a /\
    content c2 = lstrip (skipn 32 paragraph_a) ++ [NL; NL] ++ paragraph_b /\
    chunk_index c1 = 0 /\ chunk_index c2 = 1 /\
    1 <= k <= 10 /\
    firstn k (content c2)
    = skipn (List.length (content c1) - k) (content c1).
Proof.
  apply (@chunk_two_paragraphs default_settings (lit "doc") []
                               paragraph_a paragraph_b);
    try reflexivity; split; reflexivity.
Defined.

Example chunk_two_paragraphs_contents :
  map content
      (_chunk_content default_settings (paragraph_a ++ [NL; NL] ++ paragraph_b)
                      (lit "doc") [] (Some 50%Z) (Some 10%Z))
  = [ paragraph_a; lit "he dogs." ++ [NL; NL] ++ paragraph_b ].
Proof. vm_compute. reflexivity. Qed.

End ChunkerExample.

(* ================================================================== *)
(** * The chunker never cuts a paragraph *)
(* ================================================================== *)

Section Paragraphs.

Import Py DocumentService Text ChunkerSpec.

(** ** More on substrings *)

Lemma is_nl_eq (c : ascii) : is_nl c = true -> c = NL.
Proof.
  unfold is_nl, code, NL. intros H. apply Nat.eqb_eq in H.
  rewrite <- H. symmetry. apply ascii_nat_embedding.
Qed.

Lemma has_blank_line_infix (s : str) :
  has_blank_line s = true <-> infix [NL; NL] s.
Proof.
  split.
  - induction s as [|c1 t IH]; [discriminate|].
    destruct t as [|c2 t2]; [discriminate|].
    simpl. intros H. apply orb_true_iff in H. destruct H as [H | H].
    + apply andb_true_iff in H. destruct H as [H1 H2].
      apply is_nl_eq in H1, H2. subst. now exists [], t2.
    + destruct (IH H) as (a & b & Heq). exists (c1 :: a), b.
      simpl. now rewrite Heq.
  - intros (a & b & ->). induction a as [|x a IH]; [reflexivity|].
    simpl in IH |- *. rewrite IH.
    destruct (a ++ NL :: NL :: b) eqn:Hab.
    + destruct a; discriminate.
    + apply orb_true_r.
Qed.

Lemma no_blank_line_infix (p s : str) :
  infix p s -> has_blank_line s = false -> has_blank_line p = false.
Proof.
  intros Hin Hs. destruct (has_blank_line p) eqn:Hp; [|reflexivity].
  apply has_blank_line_infix in Hp.
  assert (H : has_blank_line s = true)
    by (apply has_blank_line_infix; eapply infix_trans; eassumption).
  congruence.
Qed.

Lemma trimmed_rev (p : str) : trimmed p -> trimmed (rev p).
Proof.
  intros Hp. split.
  - destruct (trimmed_snoc Hp) as (t & c & -> & Hc).
    rewrite rev_app_distr. exact Hc.
  - destruct (trimmed_cons Hp) as (c & t & -> & Hc).
    simpl. now rewrite last_last.
Qed.

Lemma lstrip_keeps (p a b : str) :
  trimmed p -> exists a', lstrip (a ++ p ++ b) = a' ++ p ++ b.
Proof.
  intros Hp. induction a as [|x a [a' IH]]; simpl.
  - exists []. destruct (trimmed_cons Hp) as (c & t & -> & Hc).
    simpl. now rewrite Hc.
  - destruct (isspace x); [now exists a' | now exists (x :: a)].
Qed.

Lemma rstrip_keeps (p a b : str) :
  trimmed p -> exists b', rstrip (a ++ p ++ b) = a ++ p ++ b'.
Proof.
  intros Hp. unfold rstrip. rewrite !rev_app_distr, <- app_assoc.
  destruct (lstrip_keeps (rev b) (rev a) (trimmed_rev Hp)) as [b' Heq].
  rewrite Heq. exists (rev b').
  now rewrite !rev_app_distr, !rev_involutive, <- app_assoc.
Qed.

(** Trimming a text keeps every trimmed substring of it. *)
Lemma strip_keeps_infix (p s : str) :
  trimmed p -> infix p s -> infix p (strip s).
Proof.
  intros Hp (a & b & ->). unfold strip.
  destruct (lstrip_keeps a b Hp) as [a' ->].
  destruct (rstrip_keeps a' b Hp) as [b' ->].
  now exists a', b'.
Qed.

Lemma infix_nil_inv (p : str) : infix p [] -> p = [].
Proof.
  intros (a & b & H). symmetry in H.
  apply app_eq_nil in H. destruct H as [_ H].
  apply app_eq_nil in H. tauto.
Qed.

(** A trimmed text without a blank line that occurs in two texts joined
    by a blank line occurs in one of them. *)
Lemma infix_across_blank (p x y : str) :
  trimmed p -> has_blank_line p = false ->
  infix p (x ++ [NL; NL] ++ y) -> infix p x \/ infix p y.
Proof.
  intros Hp Hnb (a & b & Heq).
  assert (Hhead : forall t, p <> NL :: t).
  { intros t ->. destruct Hp as [Hh _]. simpl in Hh. discriminate. }
  assert (Hlast : forall t, p <> t ++ [NL]).
  { intros t ->. destruct Hp as [_ Hl]. rewrite last_last in Hl. discriminate. }
  assert (Hmid : forall u v, p <> u ++ NL :: NL :: v).
  { intros u v ->.
    assert (H : has_blank_line (u ++ NL :: NL :: v) = true)
      by (apply has_blank_line_infix; now exists u, v).
    congruence. }
  apply app_eq_app in Heq. destruct Heq as [l [[Hx Hrest] | [Ha Hrest]]].
  - (* the occurrence starts inside [x] *)
    apply app_eq_app in Hrest.
    destruct Hrest as [l' [[Hp' Hb] | [Hl Hb]]].
    + (* and ends at or after the end of [x] *)
      destruct l' as [|c1 [|c2 l'']].
      * rewrite app_nil_r in Hp'. subst. left. exists a, [].
        now rewrite app_nil_r.
      * inversion Hb; subst. exfalso. now apply (Hlast l).
      * inversion Hb; subst. exfalso. now apply (Hmid l l'').
    + (* and ends inside [x] *)
      subst. left. now exists a, l'.
  - (* the occurrence starts at or after the blank line *)
    destruct l as [|c1 [|c2 l'']].
    + simpl in Hrest. destruct p as [|c t]; [now destruct Hp|].
      inversion Hrest; subst. exfalso. now apply (Hhead t).
    + simpl in Hrest. inversion Hrest as [[Hc Hrest']].
      destruct p as [|c t]; [now destruct Hp|].
      inversion Hrest'; subst. exfalso. now apply (Hhead t).
    + simpl in Hrest. inversion Hrest; subst. right. now exists l'', b.
Qed.

(** ** The paragraphs of a text *)

Lemma snoc_no_blank_line (u : str) (c1 c2 : ascii) :
  has_blank_line (u ++ [c1]) = false ->
  is_nl c1 && is_nl c2 = false ->
  has_blank_line (u ++ [c1; c2]) = false.
Proof.
  intros Hu Hc. induction u as [|x u IH].
  - simpl. now rewrite Hc.
  - destruct u as [|y u].
    + simpl in *. apply orb_false_iff in Hu. destruct Hu as [Hx _].
      now rewrite Hx, Hc.
    + simpl in Hu |- *. apply orb_false_iff in Hu. destruct Hu as [Hx Hu].
      rewrite Hx. simpl. apply IH. exact Hu.
Qed.

Lemma prefix_no_blank_line (u v : str) :
  has_blank_line (u ++ v) = false -> has_blank_line u = false.
Proof.
  apply no_blank_line_infix. exists [], v. reflexivity.
Qed.

(** No piece of [split] holds a blank line. *)
Lemma split_blank_acc_pieces (n : nat) :
  forall s cur piece,
    List.length s <= n ->
    has_blank_line (rev cur ++ firstn 1 s) = false ->
    In piece (split_blank_acc s cur) ->
    has_blank_line piece = false.
Proof.
  induction n as [|n IH]; intros s cur piece Hn Hinv Hin.
  - destruct s; [|simpl in Hn; lia].
    simpl in Hin, Hinv. rewrite app_nil_r in Hinv.
    destruct Hin as [<- | []]. exact Hinv.
  - destruct s as [|c1 [|c2 t2]].
    + simpl in Hin, Hinv. rewrite app_nil_r in Hinv.
      destruct Hin as [<- | []]. exact Hinv.
    + simpl in Hin, Hinv. destruct Hin as [<- | []]. exact Hinv.
    + change (split_blank_acc (c1 :: c2 :: t2) cur)
        with (if is_nl c1 && is_nl c2
              then rev cur :: split_blank_acc t2 []
              else split_blank_acc (c2 :: t2) (c1 :: cur)) in Hin.
      simpl in Hinv, Hn.
      destruct (is_nl c1 && is_nl c2) eqn:Hnl.
      * destruct Hin as [<- | Hin].
        -- now apply prefix_no_blank_line in Hinv.
        -- apply (IH t2 [] piece); [lia | | exact Hin].
           destruct t2; reflexivity.
      * apply (IH (c2 :: t2) (c1 :: cur) piece); [simpl; lia | | exact Hin].
        simpl. rewrite <- app_assoc. simpl.
        now apply snoc_no_blank_line.
Qed.

Lemma split_blank_pieces (s piece : str) :
  In piece (split_blank s) -> has_blank_line piece = false.
Proof.
  apply (@split_blank_acc_pieces (List.length s)); [lia|].
  destruct s; reflexivity.
Qed.

Lemma nonempty_true_iff (s : str) : nonempty s = true <-> s <> [].
Proof. destruct s; simpl; split; congruence. Qed.

Lemma paragraphs_trimmed (text p : str) : In p (paragraphs text) -> trimmed p.
Proof.
  unfold paragraphs. rewrite filter_In, in_map_iff.
  intros [[q [<- _]] Hne]. apply nonempty_true_iff in Hne.
  destruct (strip_result q); [contradiction | assumption].
Qed.

Lemma paragraphs_no_blank_line (text p : str) :
  In p (paragraphs text) -> has_blank_line p = false.
Proof.
  unfold paragraphs. rewrite filter_In, in_map_iff.
  intros [[q [<- Hq]] _]. apply split_blank_pieces in Hq.
  eapply no_blank_line_infix; [apply strip_infix | exact Hq].
Qed.

(** ** The loop over the paragraphs *)

Variable document_id : str.
Variable metadata : Metadata.
Variables chunk_size chunk_overlap : Z.

Local Abbreviation step := (chunk_step document_id metadata chunk_size chunk_overlap).
Local Abbreviation emit cur idx := (_create_chunk (strip cur) document_id idx metadata).
Local Abbreviation seed_of cur := (overlap_seed chunk_overlap cur).
Local Abbreviation finish := (ChunkerSpec.finish document_id metadata).

Lemma strip_idem (s : str) : strip (strip s) = strip s.
Proof.
  destruct (strip_result s) as [-> | H]; [reflexivity|].
  now apply strip_trimmed_id.
Qed.

Lemma chunk_step_strip (st : ChunkLoop) (para0 : str) :
  step st (strip para0) = step st para0.
Proof. unfold chunk_step. now rewrite strip_idem. Qed.

Lemma loop_over_paragraphs (pieces : list str) :
  forall st,
    fold_left step pieces st
    = fold_left step (filter nonempty (map strip pieces)) st.
Proof.
  induction pieces as [|q pieces IH]; intros st; simpl; [reflexivity|].
  destruct (nonempty (strip q)) eqn:Hq; simpl.
  - now rewrite chunk_step_strip, IH.
  - apply nonempty_false in Hq. now rewrite chunk_step_blank, IH.
Qed.

Lemma step_cases (st : ChunkLoop) (q : str) :
  trimmed q ->
  step st q
  = {| chunks := chunks st;
       current_chunk := current_chunk st ++ q ++ [NL; NL];
       next_index := next_index st |}
  \/
  (current_chunk st <> [] /\
   (Z.of_nat (List.length (current_chunk st) + List.length q + 2) > chunk_size)%Z /\
   step st q
   = {| chunks := chunks st ++ [emit (current_chunk st) (next_index st)];
        current_chunk := seed_of (current_chunk st) ++ q ++ [NL; NL];
        next_index := S (next_index st) |}).
Proof.
  intros Hq.
  assert (Hs : strip q = q) by now apply strip_trimmed_id.
  assert (Hne : strip q <> []) by (rewrite Hs; now apply trimmed_nonempty).
  destruct (current_chunk st) as [|c cur] eqn:Hcur.
  - left. rewrite chunk_step_append; rewrite ?Hs, ?Hcur;
      auto using trimmed_nonempty.
  - destruct (Z_le_gt_dec
                (Z.of_nat (List.length (c :: cur) + List.length q + 2))
                chunk_size) as [Hle | Hgt].
    + left. rewrite chunk_step_append; rewrite ?Hs, ?Hcur;
        auto using trimmed_nonempty.
    + right. split; [discriminate|]. split; [exact Hgt|].
      rewrite chunk_step_emit; rewrite ?Hs, ?Hcur;
        auto using trimmed_nonempty. discriminate.
Qed.

(** The seed is empty or a trimmed part of the emitted buffer followed
    by a blank line, and it is no longer than the overlap. *)
Lemma seed_cases (cur : str) :
  seed_of cur = [] \/
  exists seed, seed_of cur = seed ++ [NL; NL] /\ infix seed cur /\
               (Z.of_nat (List.length seed) <= Z.max 0 chunk_overlap)%Z.
Proof.
  unfold ChunkerSpec.overlap_seed, slice_from.
  set (n := Z.to_nat (Z.max 0 (Z.of_nat (List.length cur) - chunk_overlap))).
  destruct (strip (skipn n cur)) as [|c t] eqn:Hseed; [now left|].
  right. exists (c :: t). split; [reflexivity|]. rewrite <- Hseed. split.
  - eapply infix_trans; [apply strip_infix | apply skipn_infix].
  - pose proof (strip_length (skipn n cur)) as Hlen.
    rewrite length_skipn in Hlen. unfold n in *. lia.
Qed.

(** ** Every paragraph is kept whole *)

Lemma step_keeps_placed (st : ChunkLoop) (q p : str) :
  trimmed q -> trimmed p -> placed p st -> placed p (step st q).
Proof.
  intros Hq Hp Hpl.
  destruct (step_cases st Hq) as [-> | (Hne & Hgt & ->)]; unfold placed; simpl.
  - destruct Hpl as [Hc | Hb]; [now left | right; now apply infix_app_l].
  - left. destruct Hpl as [(c & Hc & Hin) | Hb].
    + exists c. split; [apply in_or_app; now left | exact Hin].
    + eexists. split; [apply in_or_app; right; now left|].
      simpl. now apply strip_keeps_infix.
Qed.

Lemma step_places (st : ChunkLoop) (q : str) : trimmed q -> placed q (step st q).
Proof.
  intros Hq. right.
  destruct (step_cases st Hq) as [-> | (Hne & Hgt & ->)]; simpl;
    apply infix_app_r; apply infix_app_l; apply infix_refl.
Qed.

Lemma loop_keeps_placed (ps : list str) :
  forall st p, Forall trimmed ps -> trimmed p -> placed p st ->
               placed p (fold_left step ps st).
Proof.
  induction ps as [|q ps IH]; intros st p Hps Hp Hpl; simpl; [exact Hpl|].
  inversion Hps; subst. apply IH; try assumption.
  now apply step_keeps_placed.
Qed.

Lemma loop_places (ps : list str) :
  forall st p, Forall trimmed ps -> In p ps -> placed p (fold_left step ps st).
Proof.
  induction ps as [|q ps IH]; intros st p Hps Hin; [contradiction|].
  inversion Hps; subst. simpl. destruct Hin as [-> | Hin].
  - apply loop_keeps_placed; try assumption. now apply step_places.
  - now apply IH.
Qed.

Lemma finish_placed (st : ChunkLoop) (p : str) :
  trimmed p -> placed p st ->
  exists c, In c (finish st) /\ infix p (content c).
Proof.
  intros Hp [(c & Hc & Hin) | Hb]; unfold ChunkerSpec.finish.
  - exists c. split; [|exact Hin].
    destruct (nonempty _); [apply in_or_app; now left | exact Hc].
  - assert (Hs : infix p (strip (current_chunk st)))
      by now apply strip_keeps_infix.
    rewrite nonempty_true.
    + eexists. split; [apply in_or_app; right; now left | exact Hs].
    + intros Hnil. rewrite Hnil in Hs. apply infix_nil_inv in Hs.
      now apply (trimmed_nonempty Hp).
Qed.

(** ** A paragraph longer than the chunk size lies in one chunk only *)

Section Oversized.

Variable P : str.
Hypothesis P_trimmed : trimmed P.
Hypothesis P_no_blank_line : has_blank_line P = false.

Local Abbreviation none := (ChunkerSpec.none P).
Local Abbreviation once := (ChunkerSpec.once P).

Lemma not_in_buffer (cur q : str) :
  ends_blank cur -> ~ infix P cur -> ~ infix P q ->
  ~ infix P (cur ++ q ++ [NL; NL]).
Proof.
  intros Hcur HnP Hnq Hin.
  assert (Hq : ~ infix P (q ++ [NL; NL])).
  { intros H. replace (q ++ [NL; NL]) with (q ++ [NL; NL] ++ []) in H
      by reflexivity.
    apply infix_across_blank in H; try assumption.
    destruct H as [H | H]; [contradiction|].
    apply infix_nil_inv in H. now apply (trimmed_nonempty P_trimmed). }
  destruct Hcur as [-> | [x ->]]; [contradiction|].
  rewrite <- app_assoc in Hin.
  apply infix_across_blank in Hin; try assumption.
  destruct Hin as [Hin | Hin]; [|contradiction].
  apply HnP. now apply infix_app_l.
Qed.

Lemma ends_blank_snoc (cur q : str) : ends_blank (cur ++ q ++ [NL; NL]).
Proof. right. exists (cur ++ q). now rewrite <- app_assoc. Qed.

Lemma seed_without (cur : str) :
  ~ infix P cur -> ends_blank (seed_of cur) /\ ~ infix P (seed_of cur).
Proof.
  intros HnP. destruct (seed_cases cur) as [-> | (seed & -> & Hin & _)].
  - split; [now left|]. intros H. apply infix_nil_inv in H.
    now apply (trimmed_nonempty P_trimmed).
  - split; [right; now exists seed|]. intros H.
    replace (seed ++ [NL; NL]) with (seed ++ [NL; NL] ++ []) in H
      by reflexivity.
    apply infix_across_blank in H; try assumption.
    destruct H as [H | H].
    + apply HnP. eapply infix_trans; eassumption.
    + apply infix_nil_inv in H. now apply (trimmed_nonempty P_trimmed).
Qed.

(** A step on another paragraph, while [P] is not in the buffer. *)
Lemma step_without (st : ChunkLoop) (q : str) :
  trimmed q -> ~ infix P q ->
  ends_blank (current_chunk st) -> ~ infix P (current_chunk st) ->
  ends_blank (current_chunk (step st q)) /\
  ~ infix P (current_chunk (step st q)) /\
  exists extra, chunks (step st q) = chunks st ++ extra /\ none extra.
Proof.
  intros Hq Hnq Hend HnP.
  destruct (step_cases st Hq) as [-> | (Hne & Hgt & ->)]; simpl.
  - split; [apply ends_blank_snoc|]. split; [now apply not_in_buffer|].
    exists []. split; [now rewrite app_nil_r | intros c []].
  - destruct (seed_without HnP) as [Hse HsP].
    split; [apply ends_blank_snoc|]. split; [now apply not_in_buffer|].
    eexists. split; [reflexivity|].
    intros c [<- | []]. simpl. intros H. apply HnP.
    eapply infix_trans; [exact H | apply strip_infix].
Qed.

(** The step on [P] itself. *)
Lemma step_arrives (st : ChunkLoop) :
  ~ infix P (current_chunk st) ->
  infix P (current_chunk (step st P)) /\
  exists extra, chunks (step st P) = chunks st ++ extra /\ none extra.
Proof.
  intros HnP.
  destruct (step_cases st P_trimmed) as [-> | (Hne & Hgt & ->)]; simpl.
  - split; [apply infix_app_r, infix_app_l, infix_refl|].
    exists []. split; [now rewrite app_nil_r | intros c []].
  - split; [apply infix_app_r, infix_app_l, infix_refl|].
    eexists. split; [reflexivity|].
    intros c [<- | []]. simpl. intros H. apply HnP.
    eapply infix_trans; [exact H | apply strip_infix].
Qed.

Hypothesis P_oversized : (Z.of_nat (List.length P) > chunk_size)%Z.
Hypothesis overlap_bounded : (chunk_overlap <= chunk_size)%Z.

(** The step after [P]: the buffer that holds [P] is emitted, and the
    seed is too short to hold [P] again. *)
Lemma step_leaves (st : ChunkLoop) (q : str) :
  trimmed q -> ~ infix P q ->
  infix P (current_chunk st) ->
  ends_blank (current_chunk (step st q)) /\
  ~ infix P (current_chunk (step st q)) /\
  exists c, chunks (step st q) = chunks st ++ [c] /\ infix P (content c).
Proof.
  intros Hq Hnq HinP.
  pose proof (infix_length HinP) as Hlen.
  assert (Hcur : current_chunk st <> []).
  { intros H. rewrite H in HinP. apply infix_nil_inv in HinP.
    now apply (trimmed_nonempty P_trimmed). }
  assert (Hstep : step st q
                  = {| chunks := chunks st ++ [emit (current_chunk st) (next_index st)];
                       current_chunk := seed_of (current_chunk st) ++ q ++ [NL; NL];
                       next_index := S (next_index st) |}).
  { rewrite chunk_step_emit; rewrite ?(strip_trimmed_id Hq);
      auto using trimmed_nonempty. lia. }
  rewrite Hstep. simpl.
  split; [apply ends_blank_snoc|]. split.
  - assert (Hseed : ends_blank (seed_of (current_chunk st)) /\
                    ~ infix P (seed_of (current_chunk st))).
    { destruct (seed_cases (current_chunk st)) as [-> | (seed & -> & _ & Hsl)].
      - split; [now left|]. intros H. apply infix_nil_inv in H.
        now apply (trimmed_nonempty P_trimmed).
      - split; [right; now exists seed|]. intros H.
        replace (seed ++ [NL; NL]) with (seed ++ [NL; NL] ++ []) in H
          by reflexivity.
        apply infix_across_blank in H; try assumption.
        destruct H as [H | H].
        + apply infix_length in H.
          pose proof (trimmed_nonempty P_trimmed) as HP.
          destruct P; [congruence | simpl in *; lia].
        + apply infix_nil_inv in H. now apply (trimmed_nonempty P_trimmed). }
    destruct Hseed as [Hse HsP]. now apply not_in_buffer.
  - eexists. split; [reflexivity|]. simpl.
    now apply strip_keeps_infix.
Qed.

Lemma loop_without (qs : list str) :
  forall st,
    Forall (fun q => trimmed q /\ ~ infix P q) qs ->
    ends_blank (current_chunk st) -> ~ infix P (current_chunk st) ->
    ~ infix P (current_chunk (fold_left step qs st)) /\
    exists extra, chunks (fold_left step qs st) = chunks st ++ extra /\ none extra.
Proof.
  induction qs as [|q qs IH]; intros st Hqs Hend HnP; simpl.
  - split; [exact HnP|]. exists []. split; [now rewrite app_nil_r | intros c []].
  - inversion Hqs as [|? ? [Hq Hnq] Hqs']; subst.
    destruct (step_without st Hq Hnq Hend HnP) as (Hend' & HnP' & e1 & He1 & Hn1).
    destruct (IH (step st q) Hqs' Hend' HnP') as (HnP'' & e2 & He2 & Hn2).
    split; [exact HnP''|]. exists (e1 ++ e2). split.
    + now rewrite He2, He1, app_assoc.
    + intros c Hc. apply in_app_or in Hc. destruct Hc; auto.
Qed.

Lemma finish_without (st : ChunkLoop) :
  ~ infix P (current_chunk st) ->
  exists extra, finish st = chunks st ++ extra /\ none extra.
Proof.
  intros HnP. unfold ChunkerSpec.finish. destruct (nonempty _).
  - eexists. split; [reflexivity|]. intros c [<- | []]. simpl.
    intros H. apply HnP. eapply infix_trans; [exact H | apply strip_infix].
  - exists []. split; [now rewrite app_nil_r | intros c []].
Qed.

Lemma none_app (a b : list Chunk) : none a -> none b -> none (a ++ b).
Proof.
  intros Ha Hb c Hc. apply in_app_or in Hc. destruct Hc; auto.
Qed.

(** The whole run, [P] being the only paragraph above the size. *)
Lemma loop_once (pre post : list str) :
  Forall (fun q => trimmed q /\ ~ infix P q) (pre ++ post) ->
  once (finish (fold_left step (pre ++ P :: post) start)).
Proof.
  intros Hall. apply Forall_app in Hall. destruct Hall as [Hpre Hpost].
  rewrite fold_left_app. simpl.
  assert (Hstart : ~ infix P (current_chunk start)).
  { simpl. intros H. apply infix_nil_inv in H.
    now apply (trimmed_nonempty P_trimmed). }
  destruct (@loop_without pre start Hpre (or_introl eq_refl) Hstart)
    as (HnP1 & e1 & He1 & Hn1).
  set (st1 := fold_left step pre start) in *. simpl in He1.
  destruct (step_arrives st1 HnP1) as (HinP & e2 & He2 & Hn2).
  set (st2 := step st1 P) in *.
  destruct post as [|q post].
  - simpl. unfold ChunkerSpec.finish.
    assert (Hs : infix P (strip (current_chunk st2)))
      by now apply strip_keeps_infix.
    rewrite nonempty_true.
    + exists (chunks st2), (emit (current_chunk st2) (next_index st2)), [].
      split; [reflexivity|]. split; [exact Hs|].
      rewrite app_nil_r, He2, He1. now apply none_app.
    + intros Hnil. rewrite Hnil in Hs. apply infix_nil_inv in Hs.
      now apply (trimmed_nonempty P_trimmed).
  - simpl. apply Forall_cons_iff in Hpost.
    destruct Hpost as [[Hq Hnq] Hpost'].
    destruct (step_leaves st2 Hq Hnq HinP) as (Hend3 & HnP3 & c & Hc & HcP).
    set (st3 := step st2 q) in *.
    destruct (@loop_without post st3 Hpost' Hend3 HnP3)
      as (HnP4 & e4 & He4 & Hn4).
    set (st4 := fold_left step post st3) in *.
    destruct (finish_without st4 HnP4) as (e5 & He5 & Hn5).
    exists (chunks st2), c, (e4 ++ e5).
    split; [|split; [exact HcP|]].
    + rewrite He5, He4, Hc. now rewrite <- !app_assoc.
    + rewrite He2, He1. repeat apply none_app; assumption.
Qed.

End Oversized.

End Paragraphs.

Section NeverSplit.

Import Py DocumentService Text ChunkerSpec.

(** [_chunk_content] as the loop over the paragraphs followed by the
    last statement. *)
Lemma chunk_content_loop (settings : Settings) (text doc : str)
      (meta : Metadata) (chunk_size chunk_overlap : option Z) :
  _chunk_content settings text doc meta chunk_size chunk_overlap
  = finish doc meta
      (fold_left (chunk_step doc meta
                             (or_default chunk_size (CHUNK_SIZE settings))
                             (or_default chunk_overlap (CHUNK_OVERLAP settings)))
                 (paragraphs text) start).
Proof.
  unfold _chunk_content, paragraphs.
  destruct (nonempty (strip text)) eqn:Hne; simpl negb; cbv iota.
  - now rewrite loop_over_paragraphs.
  - apply nonempty_false in Hne. rewrite Hne. reflexivity.
Qed.

(** X1: Whatever the sizes, every paragraph of the text lies whole in an
    emitted chunk. *)
Lemma every_paragraph_kept_whole (settings : Settings) (text doc : str)
      (meta : Metadata) (chunk_size chunk_overlap : option Z) (p : str) :
  In p (paragraphs text) ->
  exists c,
    In c (_chunk_content settings text doc meta chunk_size chunk_overlap) /\
    infix p (content c).
Proof.
  intros Hp. rewrite chunk_content_loop.
  apply finish_placed; [now apply (paragraphs_trimmed text)|].
  apply loop_places; [|exact Hp].
  rewrite Forall_forall. intros q Hq. now apply (paragraphs_trimmed text).
Qed.

(** X2: A text that is one paragraph gives one chunk, the paragraph. *)
Lemma single_paragraph_single_chunk (settings : Settings) (text doc : str)
      (meta : Metadata) (chunk_size chunk_overlap : option Z) (p : str) :
  paragraphs text = [p] ->
  map content (_chunk_content settings text doc meta chunk_size chunk_overlap)
  = [p].
Proof.
  intros Hp. rewrite chunk_content_loop, Hp. simpl fold_left.
  assert (Ht : trimmed p) by (apply (paragraphs_trimmed text); rewrite Hp; now left).
  rewrite chunk_step_append;
    rewrite ?(strip_trimmed_id Ht); [ | now apply trimmed_nonempty | now right].
  unfold finish. simpl current_chunk. simpl app.
  rewrite (strip_trimmed_spaces Ht spaces_blank).
  now rewrite (nonempty_true (trimmed_nonempty Ht)).
Qed.

(** C8, as amended: when the text has exactly one paragraph longer than
    [chunk_size] and [chunk_overlap] does not exceed [chunk_size], that
    paragraph is not split: it lies whole in exactly one emitted chunk,
    which is therefore longer than [chunk_size]. *)
Theorem oversized_paragraph_in_one_chunk (settings : Settings) (text doc : str)
        (meta : Metadata) (chunk_size chunk_overlap : option Z)
        (pre post : list str) (P : str) :
  let size := or_default chunk_size (CHUNK_SIZE settings) in
  let overlap := or_default chunk_overlap (CHUNK_OVERLAP settings) in
  paragraphs text = pre ++ P :: post ->
  (Z.of_nat (List.length P) > size)%Z ->
  (forall q, In q (pre ++ post) -> (Z.of_nat (List.length q) <= size)%Z) ->
  (overlap <= size)%Z ->
  exists before c after,
    _chunk_content settings text doc meta chunk_size chunk_overlap
    = before ++ c :: after /\
    infix P (content c) /\
    (Z.of_nat (char_count c) > size)%Z /\
    forall c', In c' (before ++ after) -> ~ infix P (content c').
Proof.
  intros size overlap Hps Hbig Hsmall Hov.
  assert (HP : In P (paragraphs text)) by (rewrite Hps; apply in_elt).
  assert (Hothers : Forall (fun q => trimmed q /\ ~ infix P q) (pre ++ post)).
  { rewrite Forall_forall. intros q Hq. split.
    - apply (paragraphs_trimmed text). rewrite Hps.
      apply in_app_or in Hq. apply in_or_app.
      destruct Hq; [now left | right; now right].
    - intros Hin. apply infix_length in Hin. specialize (Hsmall q Hq). lia. }
  rewrite chunk_content_loop, Hps.
  destruct (@loop_once doc meta size overlap P
                       (paragraphs_trimmed text P HP)
                       (paragraphs_no_blank_line text P HP)
                       Hbig Hov pre post Hothers)
    as (before & c & after & Heq & Hc & Hnone).
  exists before, c, after. split; [exact Heq|]. split; [exact Hc|].
  split; [|exact Hnone].
  assert (Hcount : char_count c = List.length (content c)).
  { assert (Hin : In c (before ++ c :: after)) by apply in_elt.
    rewrite <- Heq in Hin. unfold finish in Hin.
    assert (Hall : forall st ps,
               (forall c, In c (chunks st) -> char_count c = List.length (content c)) ->
               forall c, In c (chunks (fold_left (chunk_step doc meta size overlap) ps st)) ->
                         char_count c = List.length (content c)).
    { intros st ps. revert st. induction ps as [|q ps IH]; intros st Hst; [exact Hst|].
      simpl. apply IH. intros c0 Hc0. unfold chunk_step in Hc0.
      destruct (negb (nonempty (strip q))); [now apply Hst|].
      simpl in Hc0.
      destruct (Z.of_nat _ >? size)%Z; [|now apply Hst].
      destruct (nonempty (current_chunk st)); [|now apply Hst].
      simpl in Hc0. apply in_app_or in Hc0.
      destruct Hc0 as [Hc0 | [<- | []]]; [now apply Hst | reflexivity]. }
    destruct (nonempty _).
    - apply in_app_or in Hin. destruct Hin as [Hin | [<- | []]]; [|reflexivity].
      eapply Hall; [|exact Hin]. intros c0 [].
    - eapply Hall; [|exact Hin]. intros c0 []. }
  rewrite Hcount. apply infix_length in Hc. lia.
Qed.

Lemma oversized_paragraph_in_one_chunk_witness :
  exists before c after,
    _chunk_content default_settings long_text (lit "doc") []
                   (Some 10%Z) (Some 3%Z)
    = before ++ c :: after /\
    infix (lit "A paragraph well over ten characters") (content c) /\
    (Z.of_nat (char_count c) > 10)%Z /\
    forall c', In c' (before ++ after) ->
               ~ infix (lit "A paragraph well over ten characters") (content c').
Proof.
  apply (@oversized_paragraph_in_one_chunk
           default_settings long_text (lit "doc") [] (Some 10%Z) (Some 3%Z)
           [lit "Intro"] [lit "End"]
           (lit "A paragraph well over ten characters")).
  - reflexivity.
  - simpl. lia.
  - intros q [<- | [<- | []]]; simpl; lia.
  - simpl. lia.
Defined.

(** C8, as stated, fails when the overlap is large: with
    [chunk_size = 5] and [chunk_overlap = 100] the paragraph [abcdefgh],
    the only one longer than 5, is emitted as a chunk and then carried
    whole, as overlap, into the next chunk. *)
Lemma oversized_paragraph_in_two_chunks :
  let P := lit "abcdefgh" in
  let text := P ++ [NL; NL] ++ lit "xy" in
  let result :=
    _chunk_content default_settings text (lit "doc") [] (Some 5%Z) (Some 100%Z) in
  paragraphs text = [P; lit "xy"] /\
  map content result = [P; P ++ [NL; NL] ++ lit "xy"] /\
  ~ once P result.
Proof.
  cbv zeta. split; [reflexivity|]. split; [vm_compute; reflexivity|].
  intros (before & c & after & Heq & Hc & Hnone).
  assert (H1 : infix (lit "abcdefgh") (lit "abcdefgh"))
    by apply infix_refl.
  assert (H2 : infix (lit "abcdefgh") (lit "abcdefgh" ++ [NL; NL] ++ lit "xy"))
    by (exists [], ([NL; NL] ++ lit "xy"); reflexivity).
  vm_compute in Heq.
  destruct before as [|b0 [|b1 before]].
  - inversion Heq; subst. apply (Hnone _ (or_introl eq_refl)). exact H2.
  - inversion Heq; subst. apply (Hnone _ (or_introl eq_refl)). exact H1.
  - inversion Heq as [[Hb0 Hb1 Hrest]].
    destruct before; discriminate.
Qed.

End NeverSplit.

(* ================================================================== *)
(** * The matcher never runs out of fuel *)
(* ================================================================== *)

Section MatcherFuel.

Import Py Re MatcherSpec.

Lemma later_refl (cu : cursor) : later cu cu.
Proof. split; reflexivity. Qed.

Lemma later_trans (a b c : cursor) : later a b -> later b c -> later a c.
Proof. unfold later. intros [H1 H2] [H3 H4]. split; lia. Qed.

Lemma later_advance (cu : cursor) (x : ascii) (t : str) :
  rest cu = x :: t -> later cu (advance cu x t).
Proof. unfold later. intros H. rewrite H. simpl. lia. Qed.

Lemma later_close_group (cu cu' : cursor) (n from : nat) :
  later cu cu' -> later cu (close_group cu' n from).
Proof. unfold later. simpl. tauto. Qed.

Lemma rep_loop_forward (step : cursor -> K -> option cursor)
      (lo : nat) (hi : option nat) :
  forward step ->
  forall fuel count, forward (fun cu k => rep_loop step lo hi fuel count cu k).
Proof.
  intros Hstep fuel. induction fuel as [|f IH]; intros count cu k1 k2 Hk; simpl.
  - reflexivity.
  - assert (Hmore :
              step cu (fun cu' => if pos cu <? pos cu'
                                  then rep_loop step lo hi f (S count) cu' k1
                                  else None)
              = step cu (fun cu' => if pos cu <? pos cu'
                                    then rep_loop step lo hi f (S count) cu' k2
                                    else None)).
    { apply Hstep. intros cu' Hl. destruct (pos cu <? pos cu'); [|reflexivity].
      apply IH. intros cu'' Hl'. apply Hk. eapply later_trans; eassumption. }
    rewrite Hmore, (Hk cu (later_refl cu)). reflexivity.
Qed.

Lemma rep_loop_fuel (step : cursor -> K -> option cursor)
      (lo : nat) (hi : option nat) :
  forward step ->
  forall f f' count cu k,
    List.length (rest cu) < f -> List.length (rest cu) < f' ->
    rep_loop step lo hi f count cu k = rep_loop step lo hi f' count cu k.
Proof.
  intros Hstep f. induction f as [|f IH]; intros f' count cu k Hf Hf'; [lia|].
  destruct f' as [|f']; [lia|]. simpl.
  assert (Hmore :
            step cu (fun cu' => if pos cu <? pos cu'
                                then rep_loop step lo hi f (S count) cu' k
                                else None)
            = step cu (fun cu' => if pos cu <? pos cu'
                                  then rep_loop step lo hi f' (S count) cu' k
                                  else None)).
  { apply Hstep. intros cu' [Htotal Hle].
    destruct (pos cu <? pos cu') eqn:Hlt; [|reflexivity].
    apply Nat.ltb_lt in Hlt. apply IH; lia. }
  now rewrite Hmore.
Qed.

Lemma rep_loop_same_step (step1 step2 : cursor -> K -> option cursor)
      (lo : nat) (hi : option nat) :
  forward step2 ->
  (forall cu k, step1 cu k = step2 cu k) ->
  forall fuel count cu k,
    rep_loop step1 lo hi fuel count cu k = rep_loop step2 lo hi fuel count cu k.
Proof.
  intros Hfwd Hsame fuel.
  induction fuel as [|f IH]; intros count cu k; simpl; [reflexivity|].
  rewrite Hsame.
  assert (Hmore :
            step2 cu (fun cu' => if pos cu <? pos cu'
                                 then rep_loop step1 lo hi f (S count) cu' k
                                 else None)
            = step2 cu (fun cu' => if pos cu <? pos cu'
                                   then rep_loop step2 lo hi f (S count) cu' k
                                   else None)).
  { apply Hfwd. intros cu' _. now rewrite IH. }
  now rewrite Hmore.
Qed.

Lemma m_with_forward (extra : nat) (r : regex) : forward (m_with extra r).
Proof.
  induction r as [ | c | negate items | r1 IH1 r2 IH2 | r1 IH1 r2 IH2
                   | lo hi r1 IH1 | n r1 IH1 | ];
    intros cu k1 k2 Hk; cbn [m_with].
  - apply Hk, later_refl.
  - destruct (rest cu) as [|x t] eqn:Hrest; [reflexivity|].
    destruct (item_match (CChar c) x); [|reflexivity].
    apply Hk. now apply later_advance.
  - destruct (rest cu) as [|x t] eqn:Hrest; [reflexivity|].
    destruct (xorb negate _); [|reflexivity].
    apply Hk. now apply later_advance.
  - apply IH1. intros cu' Hl. apply IH2. intros cu'' Hl'.
    apply Hk. eapply later_trans; eassumption.
  - rewrite (IH1 cu k1 k2 Hk), (IH2 cu k1 k2 Hk). reflexivity.
  - now apply (@rep_loop_forward (m_with extra r1) lo hi IH1).
  - apply IH1. intros cu' Hl. apply Hk. now apply later_close_group.
  - destruct (at_boundary cu); [|reflexivity]. apply Hk, later_refl.
Qed.

(** More fuel changes nothing: the matcher of the model, which adds no
    spare fuel, already computes the result of an unbounded search. *)
Theorem fuel_irrelevant (extra : nat) (r : regex) :
  forall cu k, m_with extra r cu k = m r cu k.
Proof.
  unfold m.
  induction r as [ | c | negate items | r1 IH1 r2 IH2 | r1 IH1 r2 IH2
                   | lo hi r1 IH1 | n r1 IH1 | ];
    intros cu k; cbn [m_with]; try reflexivity.
  - rewrite IH1. apply m_with_forward. intros cu' _. apply IH2.
  - now rewrite IH1, IH2.
  - rewrite (@rep_loop_same_step (m_with extra r1) (m_with 0 r1) lo hi
                                  (m_with_forward 0 r1) IH1).
    apply rep_loop_fuel; [apply m_with_forward | lia | lia].
  - apply IH1.
Qed.

End MatcherFuel.

(* ================================================================== *)
(** * [embed_texts] and [embed_text] on a model that batches differently *)
(* ================================================================== *)

Section BatchDiffers.

Import Py EmbeddingService EmbeddingSpec BatchModels.
Import PrimFloat.

(** C1, as stated, fails: that [encode] returns the same vectors for
    the same input does not make the batched call agree with the call
    on one text.  On a new service, with a model whose batched call
    returns [2.0] where the single call returns [1.0], the vector of
    [embed_texts] for a text is not the vector of [embed_text] for it;
    with a model whose batched call returns nothing, [embed_texts]
    returns no vector for two texts. *)
Lemma embed_texts_elementwise_batch_differs :
  fst (embed_texts sample_digest split_load [lit "a"] 32 (init default_settings))
    = [[2%float]] /\
  fst (embed_text sample_digest split_load (lit "a") (init default_settings))
    = [1%float] /\
  nth 0 (fst (embed_texts sample_digest split_load [lit "a"] 32
                (init default_settings))) []
    <> fst (embed_text sample_digest split_load (nth 0 [lit "a"] [])
              (init default_settings)) /\
  List.length (fst (embed_texts sample_digest mute_load [lit "a"; lit "b"] 32
                      (init default_settings)))
    <> List.length [lit "a"; lit "b"].
Proof.
  split; [vm_compute; reflexivity|].
  split; [vm_compute; reflexivity|]. split.
  - intros H.
    apply (f_equal (fun v => match v with
                             | [x] => (x =? 1)%float
                             | _ => false
                             end)) in H.
    vm_compute in H. discriminate.
  - vm_compute. discriminate.
Qed.

End BatchDiffers.

Section ChunkRecords.

Import Py DocumentService Text ChunkerSpec ChunkShape.

Variable document_id : str.
Variable metadata : Metadata.
Variables chunk_size chunk_overlap : Z.

Local Abbreviation step := (chunk_step document_id metadata chunk_size chunk_overlap).
Local Abbreviation records := (numbered document_id metadata).
Local Abbreviation counted := (ChunkShape.counted document_id metadata).

Lemma numbered_app (a b : list str) :
  forall k, records k (a ++ b) = records k a ++ records (k + List.length a) b.
Proof.
  induction a as [|s a IH]; intros k; simpl.
  - now rewrite Nat.add_0_r.
  - rewrite IH. do 3 f_equal. lia.
Qed.

Lemma counted_emit (st : ChunkLoop) (s : str) :
  counted st ->
  chunks st ++ [_create_chunk s document_id (next_index st) metadata]
  = records 0 (map content (chunks st ++ [_create_chunk s document_id (next_index st) metadata])).
Proof.
  intros [Hc Hn]. rewrite map_app, numbered_app, <- Hc. simpl.
  now rewrite length_map, Hn.
Qed.

Lemma step_counted (st : ChunkLoop) (q : str) :
  trimmed q -> counted st -> counted (step st q).
Proof.
  intros Hq Hst.
  destruct (step_cases document_id metadata chunk_size chunk_overlap st Hq)
    as [-> | (_ & _ & ->)]; [exact Hst|].
  split; simpl.
  - now apply counted_emit.
  - rewrite length_app. simpl. destruct Hst as [_ ->]. lia.
Qed.

Lemma loop_counted (ps : list str) :
  forall st, Forall trimmed ps -> counted st -> counted (fold_left step ps st).
Proof.
  induction ps as [|q ps IH]; intros st Hps Hst; simpl; [exact Hst|].
  apply Forall_cons_iff in Hps. destruct Hps as [Hq Hps].
  apply IH; [exact Hps|]. now apply step_counted.
Qed.


Lemma finish_counted (st : ChunkLoop) :
  counted st ->
  finish document_id metadata st
  = records 0 (map content (finish document_id metadata st)).
Proof.
  intros Hst. unfold finish.
  destruct (nonempty (strip (current_chunk st))).
  - now apply counted_emit.
  - apply Hst.
Qed.

(** ** Contents are trimmed *)

Lemma strip_spaces_nil (s : str) : strip s = [] -> spaces s.
Proof.
  intros H. destruct (strip_decomp s) as (pre & post & Hs & Hpre & Hpost).
  rewrite H in Hs. rewrite Hs. apply Forall_app. split; assumption.
Qed.

Lemma spaces_strip_nil (s : str) : spaces s -> strip s = [].
Proof.
  intros H. destruct (strip_result s) as [E | Ht]; [exact E|].
  exfalso. destruct (trimmed_cons Ht) as (c & t & Hc & Hsp).
  pose proof (strip_infix s) as (a & b & Hs).
  rewrite Hs, Hc in H. apply Forall_app in H. destruct H as [_ H].
  inversion H; subst. congruence.
Qed.

Lemma holds_text (p s : str) : trimmed p -> infix p s -> strip s <> [].
Proof.
  intros Hp Hin E. apply (strip_keeps_infix Hp) in Hin. rewrite E in Hin.
  apply infix_nil_inv in Hin. now apply (trimmed_nonempty Hp).
Qed.

Lemma step_buffer_holds (st : ChunkLoop) (q : str) :
  trimmed q -> strip (current_chunk (step st q)) <> [].
Proof.
  intros Hq. apply (holds_text Hq).
  destruct (step_cases document_id metadata chunk_size chunk_overlap st Hq)
    as [-> | (_ & _ & ->)]; simpl;
    apply infix_app_r; apply infix_app_l; apply infix_refl.
Qed.

Lemma step_trimmed (st : ChunkLoop) (q : str) :
  trimmed q ->
  has_text (current_chunk st) ->
  Forall (fun c => trimmed (content c)) (chunks st) ->
  has_text (current_chunk (step st q)) /\
  Forall (fun c => trimmed (content c)) (chunks (step st q)).
Proof.
  intros Hq Hcur Hcs. split; [right; now apply step_buffer_holds|].
  destruct (step_cases document_id metadata chunk_size chunk_overlap st Hq)
    as [-> | (Hne & _ & ->)]; simpl; [exact Hcs|].
  apply Forall_app. split; [exact Hcs|]. constructor; [|constructor].
  simpl. destruct Hcur as [E | Hs]; [contradiction|].
  destruct (strip_result (current_chunk st)); [contradiction | assumption].
Qed.

Lemma loop_trimmed (ps : list str) :
  forall st,
    Forall trimmed ps ->
    has_text (current_chunk st) ->
    Forall (fun c => trimmed (content c)) (chunks st) ->
    has_text (current_chunk (fold_left step ps st)) /\
    Forall (fun c => trimmed (content c)) (chunks (fold_left step ps st)).
Proof.
  induction ps as [|q ps IH]; intros st Hps Hcur Hcs; simpl; [now split|].
  apply Forall_cons_iff in Hps. destruct Hps as [Hq Hps].
  destruct (@step_trimmed st q Hq Hcur Hcs) as [H1 H2]. now apply IH.
Qed.

Lemma finish_trimmed (st : ChunkLoop) :
  Forall (fun c => trimmed (content c)) (chunks st) ->
  Forall (fun c => trimmed (content c)) (finish document_id metadata st).
Proof.
  intros Hcs. unfold finish.
  destruct (nonempty (strip (current_chunk st))) eqn:Hne; [|exact Hcs].
  apply Forall_app. split; [exact Hcs|]. constructor; [|constructor]. simpl.
  destruct (strip_result (current_chunk st)) as [E | Ht]; [|exact Ht].
  rewrite E in Hne. discriminate.
Qed.

(** ** A text with a visible character gives a chunk *)

Lemma split_blank_acc_spaces (n : nat) :
  forall s cur,
    List.length s <= n ->
    Forall spaces (split_blank_acc s cur) -> spaces (rev cur ++ s).
Proof.
  induction n as [|n IH]; intros s cur Hlen Hall.
  - destruct s; [|simpl in Hlen; lia]. simpl in Hall.
    apply Forall_cons_iff in Hall. rewrite app_nil_r. apply Hall.
  - destruct s as [|c1 [|c2 t2]].
    + simpl in Hall. apply Forall_cons_iff in Hall. rewrite app_nil_r. apply Hall.
    + simpl in Hall. apply Forall_cons_iff in Hall. apply Hall.
    + simpl in Hlen. cbn [split_blank_acc] in Hall.
      destruct (is_nl c1 && is_nl c2) eqn:Hnl.
      * apply andb_true_iff in Hnl. destruct Hnl as [H1 H2].
        apply Forall_cons_iff in Hall. destruct Hall as [Hcur Hrest].
        apply (IH t2 []) in Hrest; [|lia]. simpl in Hrest.
        apply Forall_app. split; [exact Hcur|].
        constructor; [now apply is_nl_space|].
        constructor; [now apply is_nl_space | exact Hrest].
      * apply (IH (c2 :: t2) (c1 :: cur)) in Hall; [|simpl; lia].
        simpl in Hall. now rewrite <- app_assoc in Hall.
Qed.

Lemma paragraphs_nil (text : str) : paragraphs text = [] <-> strip text = [].
Proof.
  unfold paragraphs. split.
  - intros Hnil.
    assert (Hall : Forall spaces (split_blank (strip text))).
    { rewrite Forall_forall. intros piece Hin. apply strip_spaces_nil.
      destruct (strip piece) as [|c t] eqn:Hp; [reflexivity|].
      assert (Hf : In (c :: t) (filter nonempty (map strip (split_blank (strip text))))).
      { apply filter_In. split; [|reflexivity]. rewrite <- Hp. now apply in_map. }
      rewrite Hnil in Hf. contradiction. }
    apply (@split_blank_acc_spaces (List.length (strip text))) in Hall; [|lia].
    simpl in Hall. apply spaces_strip_nil in Hall. now rewrite strip_idem in Hall.
  - intros ->. reflexivity.
Qed.


(** ** The length of a chunk *)

Lemma strip_app_spaces (a b : str) : spaces b -> strip (a ++ b) = strip a.
Proof.
  intros Hb. unfold strip.
  destruct (lstrip a) as [|c t] eqn:Ha.
  - destruct (lstrip_decomp a) as (pre & Hpre & Hsp).
    rewrite Ha, app_nil_r in Hpre. subst pre.
    rewrite (lstrip_spaces_app b Hsp).
    destruct (lstrip_decomp b) as (pre & Hpre & Hsp').
    assert (Hl : spaces (lstrip b)).
    { rewrite Hpre in Hb. apply Forall_app in Hb. apply Hb. }
    fold (strip b). replace (rstrip (lstrip b)) with (strip b) by reflexivity.
    now apply spaces_strip_nil.
  - rewrite lstrip_app by (rewrite Ha; discriminate).
    rewrite Ha. now apply rstrip_app_spaces.
Qed.

(** The seed is cut from a buffer that ends with a blank line, so it is
    two characters short of the overlap. *)
Lemma seed_short (x : str) :
  overlap_seed chunk_overlap (x ++ [NL; NL]) = [] \/
  exists seed, overlap_seed chunk_overlap (x ++ [NL; NL]) = seed ++ [NL; NL] /\
               (Z.of_nat (List.length seed) + 2 <= chunk_overlap)%Z.
Proof.
  unfold overlap_seed, slice_from.
  set (n := Z.to_nat (Z.max 0 (Z.of_nat (List.length (x ++ [NL; NL]))
                               - chunk_overlap))).
  assert (Hn : n = Z.to_nat (Z.max 0 (Z.of_nat (List.length x) + 2 - chunk_overlap))).
  { unfold n. rewrite length_app. simpl. f_equal. lia. }
  assert (Hseed : strip (skipn n (x ++ [NL; NL])) = strip (skipn n x)).
  { rewrite skipn_app.
    apply strip_app_spaces.
    destruct (skipn_infix (n - List.length x) [NL; NL]) as (a & b & E).
    pose proof spaces_blank as Hb. rewrite E in Hb.
    apply Forall_app in Hb. destruct Hb as [_ Hb].
    apply Forall_app in Hb. apply Hb. }
  rewrite Hseed.
  destruct (strip (skipn n x)) as [|c t] eqn:Hs; [now left|].
  right. exists (c :: t). split; [reflexivity|]. rewrite <- Hs.
  pose proof (strip_length (skipn n x)) as Hlen. rewrite length_skipn in Hlen.
  assert (Hpos : List.length (strip (skipn n x)) <> 0) by (rewrite Hs; discriminate).
  lia.
Qed.

Lemma step_within (bound : Z) (st : ChunkLoop) (q : str) :
  trimmed q ->
  (Z.of_nat (List.length q) + Z.max 0 chunk_overlap <= bound)%Z ->
  (chunk_size - 2 <= bound)%Z ->
  within bound (current_chunk st) ->
  Forall (fun c => (Z.of_nat (char_count c) <= bound)%Z) (chunks st) ->
  within bound (current_chunk (step st q)) /\
  Forall (fun c => (Z.of_nat (char_count c) <= bound)%Z) (chunks (step st q)).
Proof.
  intros Hq Hlen Hsize Hcur Hcs.
  assert (Hs : strip q = q) by now apply strip_trimmed_id.
  assert (Hne : strip q <> []) by (rewrite Hs; now apply trimmed_nonempty).
  destruct (list_eq_dec ascii_dec (current_chunk st) []) as [Hnil | Hfull].
  { rewrite (@chunk_step_append document_id metadata chunk_size chunk_overlap
               st q Hne (or_intror Hnil)).
    rewrite Hs, Hnil. simpl.
    split; [|exact Hcs]. right. exists q. split; [reflexivity | lia]. }
  destruct (Z_le_gt_dec
              (Z.of_nat (List.length (current_chunk st) + List.length q + 2))
              chunk_size) as [Hle | Hgt].
  { rewrite Hs in Hne. rewrite <- Hs in Hle, Hne.
    rewrite (@chunk_step_append document_id metadata chunk_size chunk_overlap
               st q Hne (or_introl Hle)).
    rewrite Hs in Hle |- *. simpl.
    split; [|exact Hcs]. right. exists (current_chunk st ++ q).
    split; [now rewrite <- app_assoc|]. rewrite length_app. lia. }
  rewrite <- Hs in Hgt.
  rewrite (@chunk_step_emit document_id metadata chunk_size chunk_overlap
             st q Hne Hfull Hgt).
  rewrite Hs. simpl. split.
  - right. destruct Hcur as [E | (x & E & Hx)]; [contradiction|].
    rewrite E. destruct (seed_short x) as [-> | (seed & -> & Hseed)].
    + exists q. split; [reflexivity | lia].
    + exists (seed ++ [NL; NL] ++ q). split.
      * now rewrite <- !app_assoc.
      * rewrite !length_app. simpl. lia.
  - apply Forall_app. split; [exact Hcs|]. constructor; [|constructor]. simpl.
    destruct Hcur as [E | (x & -> & Hx)]; [contradiction|].
    rewrite (strip_app_spaces x spaces_blank).
    pose proof (strip_length x). lia.
Qed.

Lemma loop_within (bound : Z) (ps : list str) :
  forall st,
    Forall (fun q => trimmed q /\
                     (Z.of_nat (List.length q) + Z.max 0 chunk_overlap
                      <= bound)%Z) ps ->
    (chunk_size - 2 <= bound)%Z ->
    within bound (current_chunk st) ->
    Forall (fun c => (Z.of_nat (char_count c) <= bound)%Z) (chunks st) ->
    within bound (current_chunk (fold_left step ps st)) /\
    Forall (fun c => (Z.of_nat (char_count c) <= bound)%Z)
           (chunks (fold_left step ps st)).
Proof.
  induction ps as [|q ps IH]; intros st Hps Hsize Hcur Hcs; simpl; [now split|].
  apply Forall_cons_iff in Hps. destruct Hps as [[Hq Hlen] Hps].
  destruct (@step_within bound st q Hq Hlen Hsize Hcur Hcs) as [H1 H2].
  now apply IH.
Qed.

Lemma finish_within (bound : Z) (st : ChunkLoop) :
  within bound (current_chunk st) ->
  Forall (fun c => (Z.of_nat (char_count c) <= bound)%Z) (chunks st) ->
  Forall (fun c => (Z.of_nat (char_count c) <= bound)%Z)
         (finish document_id metadata st).
Proof.
  intros Hcur Hcs. unfold finish.
  destruct (nonempty (strip (current_chunk st))) eqn:Hne; [|exact Hcs].
  apply Forall_app. split; [exact Hcs|]. constructor; [|constructor]. simpl.
  destruct Hcur as [E | (x & E & Hx)].
  - rewrite E in Hne. discriminate.
  - rewrite E, (strip_app_spaces x spaces_blank).
    pose proof (strip_length x). lia.
Qed.

End ChunkRecords.

Section ChunkList.

Import Py DocumentService Text ChunkerSpec ChunkShape.

Variable settings : Settings.
Variables text doc : str.
Variable meta : Metadata.
Variables chunk_size chunk_overlap : option Z.

Local Abbreviation result :=
  (_chunk_content settings text doc meta chunk_size chunk_overlap).

Lemma paragraphs_all_trimmed : Forall trimmed (paragraphs text).
Proof. rewrite Forall_forall. intros q Hq. now apply (paragraphs_trimmed text). Qed.

Lemma numbered_nth_error (contents : list str) :
  forall k i c,
    nth_error (numbered doc meta k contents) i = Some c ->
    c = _create_chunk (content c) doc (k + i) meta.
Proof.
  induction contents as [|s rest IH]; intros k i c Hc.
  - destruct i; discriminate.
  - destruct i as [|i]; simpl in Hc.
    + injection Hc as <-. simpl. now rewrite Nat.add_0_r.
    + apply IH in Hc. now rewrite Nat.add_succ_r.
Qed.

Lemma chunk_content_numbered :
  result = numbered doc meta 0 (map content result).
Proof.
  rewrite chunk_content_loop. apply finish_counted.
  apply loop_counted; [apply paragraphs_all_trimmed|].
  split; reflexivity.
Qed.

(** X3: The list of chunks is determined by the contents: the chunk at
    position [i] is the record [_create_chunk] builds for its content
    with [chunk_index = i].  The indices run from 0 without a gap, the
    chunk id is the document id followed by [_chunk_] and the index,
    and [char_count] is the length of the content. *)
Theorem chunk_list_numbered :
  result = numbered doc meta 0 (map content result) /\
  forall i c,
    nth_error result i = Some c ->
    chunk_index c = i /\
    chunk_id c = doc ++ lit "_chunk_" ++ str_of_nat i /\
    document_id c = doc /\
    char_count c = List.length (content c).
Proof.
  pose proof chunk_content_numbered as H.
  split; [exact H|]. intros i c Hc. rewrite H in Hc.
  apply numbered_nth_error in Hc. rewrite Hc. simpl. tauto.
Qed.

(** X4: No chunk is empty and no chunk starts or ends with white space. *)
Theorem chunk_contents_trimmed :
  Forall (fun c => trimmed (content c)) result.
Proof.
  rewrite chunk_content_loop. apply finish_trimmed.
  apply loop_trimmed; [apply paragraphs_all_trimmed | now left | constructor].
Qed.

(** X5: There is no chunk exactly when the text is white space only. *)
Theorem no_chunk_iff_blank : result = [] <-> spaces text.
Proof.
  rewrite chunk_content_loop. split.
  - intros Hnil. apply strip_spaces_nil. apply paragraphs_nil.
    destruct (paragraphs text) as [|p ps] eqn:Hps; [reflexivity|]. exfalso.
    pose proof paragraphs_all_trimmed as Hall. rewrite Hps in Hall.
    assert (Hlast : exists qs q, p :: ps = qs ++ [q]).
    { destruct (@exists_last _ (p :: ps)) as (qs & q & E); [discriminate|].
      now exists qs, q. }
    destruct Hlast as (qs & q & E). rewrite E in Hnil, Hall.
    rewrite fold_left_app in Hnil. simpl in Hnil.
    apply Forall_app in Hall. destruct Hall as [_ Hq].
    apply Forall_cons_iff in Hq. destruct Hq as [Hq _].
    unfold finish in Hnil.
    rewrite nonempty_true in Hnil by now apply step_buffer_holds.
    symmetry in Hnil. now apply app_cons_not_nil in Hnil.
  - intros Hsp. apply spaces_strip_nil in Hsp.
    apply paragraphs_nil in Hsp. rewrite Hsp. reflexivity.
Qed.

(** X6: When no paragraph is longer than [longest], no chunk is longer than
    the larger of [chunk_size - 2] and [longest + max(0, chunk_overlap)]:
    the overlap is added without a look at [chunk_size]. *)
Theorem chunk_length_bounded (longest : Z) :
  let size := or_default chunk_size (CHUNK_SIZE settings) in
  let overlap := or_default chunk_overlap (CHUNK_OVERLAP settings) in
  (forall p, In p (paragraphs text) -> (Z.of_nat (List.length p) <= longest)%Z) ->
  Forall (fun c => (Z.of_nat (char_count c) <= size_bound size overlap longest)%Z)
         result.
Proof.
  intros size overlap Hlong. rewrite chunk_content_loop. fold size overlap.
  apply finish_within; apply loop_within; try (now left); try constructor.
  - rewrite Forall_forall. intros q Hq. split; [now apply (paragraphs_trimmed text)|].
    specialize (Hlong q Hq). unfold size_bound. lia.
  - unfold size_bound. lia.
  - rewrite Forall_forall. intros q Hq. split; [now apply (paragraphs_trimmed text)|].
    specialize (Hlong q Hq). unfold size_bound. lia.
  - unfold size_bound. lia.
Qed.

End ChunkList.

Section ChunkListSamples.

Import Py DocumentService Text ChunkerSpec ChunkShape.

Lemma three_paragraphs_split :
  paragraphs three_paragraphs = [lit "alpha beta"; lit "gamma"; lit "delta epsilon"].
Proof. vm_compute. reflexivity. Defined.

Lemma chunk_length_bounded_witness :
  Forall (fun c => (Z.of_nat (char_count c) <= size_bound 20 5 13)%Z)
         (_chunk_content default_settings three_paragraphs (lit "doc") []
                         (Some 20%Z) (Some 5%Z)).
Proof.
  apply (@chunk_length_bounded default_settings three_paragraphs (lit "doc") []
           (Some 20%Z) (Some 5%Z) 13).
  rewrite three_paragraphs_split. intros p Hin. simpl in Hin.
  destruct Hin as [<- | [<- | [<- | []]]]; vm_compute; discriminate.
Defined.

Lemma every_paragraph_kept_whole_witness :
  exists c,
    In c (_chunk_content default_settings three_paragraphs (lit "doc") []
                         (Some 20%Z) (Some 5%Z)) /\
    infix (lit "gamma") (content c).
Proof.
  apply (@every_paragraph_kept_whole default_settings three_paragraphs (lit "doc")
           [] (Some 20%Z) (Some 5%Z) (lit "gamma")).
  rewrite three_paragraphs_split. right. left. reflexivity.
Defined.

Lemma single_paragraph_single_chunk_witness :
  map content (_chunk_content default_settings (lit "  one paragraph  ")
                              (lit "doc") [] (Some 5%Z) (Some 2%Z))
  = [lit "one paragraph"].
Proof.
  apply (@single_paragraph_single_chunk default_settings (lit "  one paragraph  ")
           (lit "doc") [] (Some 5%Z) (Some 2%Z) (lit "one paragraph")).
  vm_compute. reflexivity.
Defined.

(** The bound is reached: with an overlap of 20, paragraphs of 30
    characters give chunks of 50 under a chunk size of 40. *)
Example chunk_longer_than_chunk_size :
  map char_count
      (_chunk_content default_settings
         (repeat "a"%char 30 ++ [NL; NL] ++ repeat "b"%char 30 ++ [NL; NL]
            ++ repeat "c"%char 30)
         (lit "doc") [] (Some 40%Z) (Some 20%Z))
  = [30; 50; 50].
Proof. vm_compute. reflexivity. Qed.

End ChunkListSamples.

(* ================================================================== *)
(** * Chunk identifiers, and what a chunk takes over from the one before *)
(* ================================================================== *)

Section ChunkIds.

Import Py DocumentService Text ChunkerSpec ChunkShape.

Lemma str_of_nat_injective (n m : nat) : str_of_nat n = str_of_nat m -> n = m.
Proof.
  unfold str_of_nat, lit. intros H.
  apply (f_equal string_of_list_ascii) in H.
  rewrite !string_of_list_ascii_of_string in H.
  apply (f_equal NilZero.uint_of_string) in H.
  assert (Hnn : forall k, Nat.to_uint k <> Decimal.Nil).
  { intros k. rewrite <- (DecimalNat.Unsigned.of_to k) at 1.
    rewrite DecimalNat.Unsigned.to_of. apply DecimalFacts.unorm_nonnil. }
  rewrite !NilZero.usu in H by apply Hnn.
  injection H as H. now apply DecimalNat.Unsigned.to_uint_inj.
Qed.

Lemma numbered_ids (doc : str) (meta : Metadata) (contents : list str) :
  forall k,
    map chunk_id (numbered doc meta k contents)
    = map (fun i => doc ++ lit "_chunk_" ++ str_of_nat i)
          (List.seq k (List.length contents)).
Proof.
  induction contents as [|s rest IH]; intros k; simpl; [reflexivity|].
  now rewrite IH.
Qed.

(** X7: No two chunks of a document have the same [chunk_id]. *)
Theorem chunk_ids_distinct (settings : Settings) (text doc : str)
        (meta : Metadata) (chunk_size chunk_overlap : option Z) :
  NoDup (map chunk_id
             (_chunk_content settings text doc meta chunk_size chunk_overlap)).
Proof.
  rewrite chunk_content_numbered, numbered_ids.
  apply NoDup_map_injective; [|apply seq_NoDup].
  intros i j H. apply app_inv_head in H. apply app_inv_head in H.
  now apply str_of_nat_injective.
Qed.

End ChunkIds.

Section ChunkOverlap.

Import Py DocumentService Text ChunkerSpec ChunkShape.

Variable document_id : str.
Variable metadata : Metadata.
Variables chunk_size chunk_overlap : Z.

Local Abbreviation step := (chunk_step document_id metadata chunk_size chunk_overlap).
Local Abbreviation continues := (ChunkShape.continues chunk_overlap).
Local Abbreviation carried := (ChunkShape.carried chunk_overlap).
Local Abbreviation resumes := (ChunkShape.resumes chunk_overlap).

(** The tail of a trimmed text, left-trimmed, is trimmed or empty. *)
Lemma lstrip_skipn_trimmed (x : str) (n : nat) :
  trimmed x -> skipn n x <> [] -> trimmed (lstrip (skipn n x)).
Proof.
  intros Hx Hne.
  destruct (@exists_last _ (skipn n x) Hne) as (t & c & Ht).
  rewrite Ht. apply lstrip_snoc_trimmed.
  destruct (trimmed_snoc Hx) as (t' & c' & Hx' & Hc').
  assert (Hl : last x NL = c') by (rewrite Hx'; apply last_last).
  rewrite <- (firstn_skipn n x) in Hl.
  rewrite last_app_nonempty in Hl by exact Hne.
  rewrite Ht, last_last in Hl. congruence.
Qed.

(** The seed that the code cuts from the buffer, in terms of the
    content of the chunk just emitted. *)
Lemma overlap_seed_carried (x : str) :
  trimmed x -> overlap_seed chunk_overlap (x ++ [NL; NL]) = carried x.
Proof.
  intros Hx. unfold overlap_seed, ChunkShape.carried, slice_from. cbv zeta.
  replace (Z.of_nat (List.length (x ++ [NL; NL])) - chunk_overlap)%Z
    with (Z.of_nat (List.length x) + 2 - chunk_overlap)%Z
    by (rewrite length_app; simpl; lia).
  set (n := Z.to_nat (Z.max 0 (Z.of_nat (List.length x) + 2 - chunk_overlap))).
  assert (Hseed : strip (skipn n (x ++ [NL; NL])) = lstrip (skipn n x)).
  { rewrite skipn_app.
    rewrite strip_app_spaces.
    - destruct (list_eq_dec ascii_dec (skipn n x) []) as [-> | Hne];
        [reflexivity|].
      unfold strip. apply rstrip_trimmed. now apply lstrip_skipn_trimmed.
    - destruct (skipn_infix (n - List.length x) [NL; NL]) as (a & b & E).
      pose proof spaces_blank as Hb. rewrite E in Hb.
      apply Forall_app in Hb. destruct Hb as [_ Hb].
      apply Forall_app in Hb. apply Hb. }
  rewrite Hseed. now destruct (lstrip (skipn n x)).
Qed.

Lemma carried_closed (x q : str) :
  trimmed x -> trimmed q -> closed (carried x ++ q ++ [NL; NL]).
Proof.
  intros Hx Hq. right. unfold ChunkShape.carried, slice_from. cbv zeta.
  set (n := Z.to_nat (Z.max 0 (Z.of_nat (List.length x) + 2 - chunk_overlap))).
  destruct (lstrip (skipn n x)) as [|c t] eqn:Hseed; simpl nonempty; cbv iota.
  - exists q. now split.
  - exists ((c :: t) ++ [NL; NL] ++ q). split; [now rewrite <- !app_assoc|].
    apply trimmed_join; [|exact Hq]. rewrite <- Hseed.
    apply lstrip_skipn_trimmed; [exact Hx|].
    intros E. rewrite E in Hseed. discriminate.
Qed.

Lemma chained_snoc (R : Chunk -> Chunk -> Prop) (cs : list Chunk) (c' : Chunk) :
  chained R cs ->
  (forall front c, cs = front ++ [c] -> R c c') ->
  chained R (cs ++ [c']).
Proof.
  induction cs as [|c rest IH]; intros Hch Hlast; [exact I|].
  destruct rest as [|c1 rest'].
  - simpl. split; [apply (Hlast [] c); reflexivity | exact I].
  - destruct Hch as [Hc Hrest].
    change ((c :: c1 :: rest') ++ [c']) with (c :: (c1 :: rest') ++ [c']).
    cbn [chained app]. split; [exact Hc|].
    apply IH; [exact Hrest|].
    intros front c0 E. apply (Hlast (c :: front) c0). now rewrite E.
Qed.

(** Emitting the buffer [x] and a blank line: the new chunk holds [x]
    and continues the chunk before it. *)
Lemma emit_chained (st : ChunkLoop) (x : str) :
  trimmed x ->
  current_chunk st = x ++ [NL; NL] ->
  chained continues (chunks st) ->
  resumes st ->
  chained continues
          (chunks st ++ [_create_chunk (strip (current_chunk st)) document_id
                                       (next_index st) metadata]).
Proof.
  intros Hx Hcur Hch Hres. apply chained_snoc; [exact Hch|].
  intros front c E. destruct (Hres front c E) as (tail & Htail).
  exists tail. simpl.
  rewrite Hcur, (strip_trimmed_spaces Hx spaces_blank).
  rewrite Hcur, !app_assoc in Htail. apply app_inv_tail in Htail.
  exact Htail.
Qed.

Lemma step_overlap (st : ChunkLoop) (q : str) :
  trimmed q ->
  closed (current_chunk st) ->
  chained continues (chunks st) ->
  resumes st ->
  closed (current_chunk (step st q)) /\
  chained continues (chunks (step st q)) /\
  resumes (step st q).
Proof.
  intros Hq Hcl Hch Hres.
  destruct (step_cases document_id metadata chunk_size chunk_overlap st Hq)
    as [-> | (Hne & _ & ->)]; simpl.
  - split; [|split; [exact Hch|]].
    + destruct Hcl as [-> | (x & -> & Hx)].
      * right. exists q. now split.
      * right. exists (x ++ [NL; NL] ++ q).
        split; [now rewrite <- !app_assoc | now apply trimmed_join].
    + intros front c E. destruct (Hres front c E) as (tail & ->).
      exists (tail ++ [NL; NL] ++ q). simpl. now rewrite <- !app_assoc.
  - destruct Hcl as [E | (x & Hcur & Hx)]; [contradiction|].
    assert (Hseed : overlap_seed chunk_overlap (current_chunk st) = carried x)
      by (rewrite Hcur; now apply overlap_seed_carried).
    rewrite Hseed. split; [now apply carried_closed|].
    split; [now apply (@emit_chained st x Hx)|].
    intros front c E. apply app_inj_tail in E. destruct E as [_ <-].
    exists q. simpl.
    now rewrite Hcur, (strip_trimmed_spaces Hx spaces_blank).
Qed.

Lemma loop_overlap (ps : list str) :
  forall st,
    Forall trimmed ps ->
    closed (current_chunk st) ->
    chained continues (chunks st) ->
    resumes st ->
    closed (current_chunk (fold_left step ps st)) /\
    chained continues (chunks (fold_left step ps st)) /\
    resumes (fold_left step ps st).
Proof.
  induction ps as [|q ps IH]; intros st Hps Hcl Hch Hres; simpl; [now repeat split|].
  apply Forall_cons_iff in Hps. destruct Hps as [Hq Hps].
  destruct (@step_overlap st q Hq Hcl Hch Hres) as (H1 & H2 & H3).
  now apply IH.
Qed.

Lemma finish_overlap (st : ChunkLoop) :
  closed (current_chunk st) ->
  chained continues (chunks st) ->
  resumes st ->
  chained continues (finish document_id metadata st).
Proof.
  intros Hcl Hch Hres. unfold finish.
  destruct (nonempty (strip (current_chunk st))) eqn:Hne; [|exact Hch].
  destruct Hcl as [E | (x & Hcur & Hx)].
  - rewrite E in Hne. discriminate.
  - now apply (@emit_chained st x Hx).
Qed.

End ChunkOverlap.

Section ChunkOverlapList.

Import Py DocumentService Text ChunkerSpec ChunkShape.

(** X8: Every chunk after the first starts with what it takes over from the
    chunk before it: the last [chunk_overlap - 2] characters of that
    chunk, without the white space they start with, followed by a blank
    line; and with nothing of it when no character is left. *)
Theorem chunks_overlap (settings : Settings) (text doc : str)
        (meta : Metadata) (chunk_size chunk_overlap : option Z) :
  chained (continues (or_default chunk_overlap (CHUNK_OVERLAP settings)))
          (_chunk_content settings text doc meta chunk_size chunk_overlap).
Proof.
  rewrite chunk_content_loop.
  apply finish_overlap; apply loop_overlap;
    try apply paragraphs_all_trimmed; try (now left); try exact I;
    intros front c E; now destruct front.
Qed.

End ChunkOverlapList.

(* ================================================================== *)
(** * The format of document identifiers *)
(* ================================================================== *)

Section DocumentIdFormat.

Import Py DocumentService Hex.

Local Open Scope Z_scope.





End DocumentIdFormat.

(* ================================================================== *)
(** * The document type of a file name *)
(* ================================================================== *)

Section FileTypes.

Import Py FileType.

Lemma split_slash_whole (s : str) :
  forall cur, no_slash s -> split_slash s cur = [rev cur ++ s].
Proof.
  induction s as [|c t IH]; intros cur Hs; simpl.
  - now rewrite app_nil_r.
  - apply Forall_cons_iff in Hs. destruct Hs as [Hc Ht].
    rewrite Hc, IH by exact Ht. simpl. now rewrite <- app_assoc.
Qed.

(** The part after the last slash is the last part. *)
Lemma split_slash_last (a b : str) :
  no_slash b ->
  forall cur, exists front, split_slash (a ++ SLASH :: b) cur = front ++ [b].
Proof.
  intros Hb. induction a as [|c a IH]; intros cur; simpl.
  - exists [rev cur]. change (is_slash SLASH) with true. cbv iota.
    now rewrite split_slash_whole.
  - destruct (is_slash c).
    + destruct (IH []) as (front & ->). now exists (rev cur :: front).
    + apply IH.
Qed.

Lemma last_snoc (A : Type) (l : list A) (x d : A) : last (l ++ [x]) d = x.
Proof.
  induction l as [|y l IH]; [reflexivity|].
  simpl. destruct (l ++ [x]) eqn:E; [now destruct l | exact IH].
Qed.

Lemma name_of_file (dir file : str) :
  dir = [] \/ (exists d, dir = d ++ [SLASH]) ->
  no_slash file ->
  is_component file = true ->
  name (dir ++ file) = file.
Proof.
  intros Hdir Hfile Hcomp. unfold name.
  destruct Hdir as [-> | (d & ->)].
  - simpl. rewrite split_slash_whole by exact Hfile. simpl. now rewrite Hcomp.
  - rewrite <- app_assoc. simpl.
    destruct (split_slash_last d Hfile []) as (front & ->).
    rewrite filter_app. simpl. rewrite Hcomp. apply last_snoc.
Qed.

Lemma rfind_dot_none (s : str) :
  forall i, no_dot s -> rfind_dot s i = None.
Proof.
  induction s as [|c t IH]; intros i Hs; simpl; [reflexivity|].
  apply Forall_cons_iff in Hs. destruct Hs as [Hc Ht].
  now rewrite IH, Hc.
Qed.

Lemma rfind_dot_last (pre ext : str) :
  no_dot ext ->
  forall i, rfind_dot (pre ++ DOT :: ext) i = Some (i + List.length pre).
Proof.
  intros Hext. induction pre as [|c pre IH]; intros i; simpl.
  - rewrite rfind_dot_none by exact Hext.
    change (is_dot DOT) with true. cbv iota. f_equal. lia.
  - rewrite IH. f_equal. lia.
Qed.

(** Lower-casing makes no dot. *)
Lemma lower_not_dot (c : ascii) : is_dot c = false -> is_dot (Re.lower c) = false.
Proof.
  destruct c as [[] [] [] [] [] [] [] []]; intros H;
    first [discriminate H | vm_compute; reflexivity].
Qed.

Lemma suffix_of_file (dir stem ext : str) :
  dir = [] \/ (exists d, dir = d ++ [SLASH]) ->
  no_slash stem -> no_slash ext -> no_dot ext ->
  stem <> [] -> ext <> [] ->
  suffix (dir ++ stem ++ DOT :: ext) = DOT :: ext.
Proof.
  intros Hdir Hstem Hext Hdots Hs He. unfold suffix.
  rewrite name_of_file; try assumption.
  - cbv zeta. rewrite rfind_dot_last by exact Hdots. simpl Nat.add.
    assert (Hlen : (0 <? List.length stem)
                   && (List.length stem
                       <? List.length (stem ++ DOT :: ext) - 1) = true).
    { rewrite length_app. simpl.
      destruct stem; [contradiction|]. destruct ext; [contradiction|].
      apply andb_true_iff. split; [reflexivity|].
      apply Nat.ltb_lt. simpl. lia. }
    rewrite Hlen. unfold slice_from.
    rewrite skipn_app, Nat.sub_diag, skipn_all2 by lia. reflexivity.
  - apply Forall_app. split; [exact Hstem|].
    constructor; [reflexivity | exact Hext].
  - destruct stem as [|c [|c' t]]; [contradiction | reflexivity | reflexivity].
Qed.

(** X10: The type of a file is read off its extension alone, whatever the
    case of its letters: for a name made of a stem that does not start
    with a dot, a dot and an extension that holds no further dot, in
    any directory, the type is the entry of the lower-cased extension,
    and [TXT] when there is none.  The path of the file plays no part.
    (Names that start with a dot, the hidden files of [pathlib], are
    left out.) *)
Theorem detect_file_type_by_extension (file_path dir stem ext : str) :
  dir = [] \/ (exists d, dir = d ++ [SLASH]) ->
  no_slash stem -> no_slash ext -> no_dot ext ->
  (exists c t, stem = c :: t /\ is_dot c = false) ->
  ext <> [] ->
  detect_file_type file_path (dir ++ stem ++ DOT :: ext)
  = type_of_extension (lower ext).
Proof.
  intros Hdir Hstem Hext Hdots (c & t & -> & _) He.
  unfold detect_file_type. cbv zeta.
  rewrite suffix_of_file by (assumption || discriminate).
  unfold lower. cbn [map]. change (Re.lower DOT) with DOT.
  cbn [lstrip_dots]. change (is_dot DOT) with true. cbv iota.
  destruct ext as [|e ext]; [contradiction|].
  apply Forall_cons_iff in Hdots. destruct Hdots as [Hd _].
  cbn [map lstrip_dots]. now rewrite (lower_not_dot e Hd).
Qed.

Lemma detect_file_type_by_extension_witness :
  detect_file_type (lit "/tmp/upload-1") (lit "inbox/Report.PDF")
  = type_of_extension (lit "pdf").
Proof.
  apply (@detect_file_type_by_extension (lit "/tmp/upload-1") (lit "inbox/")
           (lit "Report") (lit "PDF")).
  - right. exists (lit "inbox"). reflexivity.
  - repeat constructor.
  - repeat constructor.
  - repeat constructor.
  - exists "R"%char, (lit "eport"). split; reflexivity.
  - discriminate.
Defined.

(** A name that is an extension and nothing else has no type of its
    own, and neither has a name that ends with a dot. *)
Example detect_file_type_samples :
  map (detect_file_type (lit "/tmp/upload"))
      [lit "report.pdf"; lit "REPORT.PDF"; lit "notes.Md"; lit "a.tar.gz";
       lit "photo.jpeg"; lit "README"; lit ".pdf"; lit "draft.";
       lit "dir.d/page.htm"; lit ""]
  = [PDF; PDF; MD; TXT; IMAGE; TXT; TXT; TXT; HTML; TXT].
Proof. vm_compute. reflexivity. Qed.

End FileTypes.

(* ================================================================== *)
(** * Redaction from right to left is one pass from left to right *)
(* ================================================================== *)

Section SortedExt.

Import Py.

Variable A : Type.

Lemma insert_by_ext_in (p p' : A -> A -> bool) (x : A) (l : list A) :
  (forall y, In y l -> p y x = p' y x) ->
  insert_by p x l = insert_by p' x l.
Proof.
  induction l as [|y t IH]; intros H; simpl; [reflexivity|].
  rewrite (H y) by now left.
  destruct (p' y x); [|reflexivity].
  f_equal. apply IH. intros z Hz. apply H. now right.
Qed.

Lemma insert_by_elements (p : A -> A -> bool) (x : A) (l : list A) (z : A) :
  In z (insert_by p x l) -> z = x \/ In z l.
Proof.
  induction l as [|y t IH]; simpl.
  - intros [<- | []]. now left.
  - destruct (p y x); simpl.
    + intros [<- | Hz]; [right; now left|].
      destruct (IH Hz) as [-> | Hin]; [now left | right; now right].
    + intros [<- | Hz]; [now left | now right].
Qed.

Lemma sorted_by_elements (p : A -> A -> bool) (l : list A) (z : A) :
  In z (sorted_by p l) -> In z l.
Proof.
  induction l as [|x t IH]; unfold sorted_by in *; simpl; [tauto|].
  intros Hz. apply insert_by_elements in Hz.
  destruct Hz as [-> | Hz]; [now left | right; now apply IH].
Qed.

(** Sorting looks at the order of the elements of the list only. *)
Lemma sorted_by_ext_in (p p' : A -> A -> bool) (l : list A) :
  (forall a b, In a l -> In b l -> p a b = p' a b) ->
  sorted_by p l = sorted_by p' l.
Proof.
  induction l as [|x t IH]; intros H; [reflexivity|].
  unfold sorted_by in *. simpl.
  rewrite IH by (intros a b Ha Hb; apply H; now right).
  apply insert_by_ext_in. intros y Hy.
  apply H; [right; now apply (@sorted_by_elements p' t) | now left].
Qed.

Lemma strongly_sorted_snoc (R : A -> A -> Prop) (l : list A) (x : A) :
  StronglySorted R l -> Forall (fun y => R y x) l -> StronglySorted R (l ++ [x]).
Proof.
  induction 1 as [|y t Hs IH Hy]; intros Hx; simpl.
  - repeat constructor.
  - apply Forall_cons_iff in Hx. destruct Hx as [Hyx Hx].
    constructor; [now apply IH|].
    apply Forall_app. split; [exact Hy | now constructor].
Qed.

Lemma strongly_sorted_rev (R : A -> A -> Prop) (l : list A) :
  StronglySorted R l -> StronglySorted (fun a b => R b a) (rev l).
Proof.
  induction 1 as [|y t Hs IH Hy]; simpl; [constructor|].
  apply strongly_sorted_snoc; [exact IH|].
  rewrite Forall_forall in *. intros z Hz. apply Hy. now apply in_rev.
Qed.

End SortedExt.

Section RedactionOrder.

Import Py PIIService Redaction.

Variable content : str.

Lemma ascending_starts (ds : list Detection) :
  forall from,
    ascending from (List.length content) ds ->
    StronglySorted (fun a b => start a < start b) ds /\
    Forall (fun d => from <= start d /\ start d <= List.length content) ds.
Proof.
  induction ds as [|d rest IH]; intros from Hasc; simpl in Hasc.
  - split; constructor.
  - destruct Hasc as (Hfrom & Hne & Hend & Hrest).
    destruct (IH _ Hrest) as [Hs Hall]. split.
    + constructor; [exact Hs|].
      rewrite Forall_forall in *. intros z Hz. specialize (Hall z Hz). lia.
    + constructor; [lia|].
      rewrite Forall_forall in *. intros z Hz. specialize (Hall z Hz). lia.
Qed.

(** The order in which [redact_pii] goes through the detections. *)
Lemma sorted_descending (ds asc : list Detection) :
  Permutation ds asc ->
  ascending 0 (List.length content) asc ->
  sorted_by (fun a b => start b <? start a) ds = rev asc.
Proof.
  intros Hperm Hasc. destruct (ascending_starts _ _ Hasc) as [Hs Hall].
  set (key := fun d : Detection => List.length content - start d).
  rewrite (@sorted_by_ext_in _ _ (fun a b => key a <? key b)).
  - apply sorted_by_of_perm.
    + rewrite Hperm. apply Permutation_rev.
    + apply strongly_sorted_rev in Hs.
      assert (Hin : Forall (fun d => start d <= List.length content) (rev asc)).
      { rewrite Forall_forall in *. intros z Hz. apply in_rev in Hz.
        now apply Hall. }
      revert Hs Hin. generalize (rev asc). intros l Hs.
      induction Hs as [|y t Hs IH Hy]; intros Hin; constructor.
      * apply IH. now apply Forall_cons_iff in Hin.
      * apply Forall_cons_iff in Hin. destruct Hin as [Hy' Hin].
        rewrite Forall_forall in *. intros z Hz.
        specialize (Hy z Hz). specialize (Hin z Hz). unfold key. lia.
  - intros a b Ha Hb. rewrite Forall_forall in Hall.
    apply (Permutation_in _ Hperm) in Ha, Hb.
    specialize (Hall a Ha) as Ha'. specialize (Hall b Hb) as Hb'.
    unfold key.
    destruct (Nat.ltb_spec (start b) (start a));
      destruct (Nat.ltb_spec (List.length content - start a)
                             (List.length content - start b)); lia || reflexivity.
Qed.

(** Replacing the last detection first leaves what is to the left of it
    as it was. *)
Lemma redact_right_to_left (asc : list Detection) :
  forall from,
    from <= List.length content ->
    ascending from (List.length content) asc ->
    fold_right (fun d acc => redact_one acc d) content asc
    = firstn from content ++ spliced content from asc.
Proof.
  induction asc as [|d rest IH]; intros from Hfrom Hasc; simpl.
  - unfold slice_from. now rewrite firstn_skipn.
  - simpl in Hasc. destruct Hasc as (Hstart & Hne & Hend & Hrest).
    rewrite (IH (end_ d)) by assumption.
    unfold redact_one, slice_to, slice_from, slice.
    assert (Hlen : List.length (firstn (end_ d) content) = end_ d)
      by (rewrite length_firstn; lia).
    rewrite firstn_app, Hlen, firstn_firstn.
    replace (Nat.min (start d) (end_ d)) with (start d) by lia.
    replace (start d - end_ d) with 0 by lia. simpl firstn. rewrite app_nil_r.
    rewrite skipn_app, Hlen, Nat.sub_diag. simpl skipn.
    rewrite skipn_all2 by lia. simpl app.
    assert (Hfirst : firstn (start d) content
                     = firstn from content
                       ++ firstn (start d - from) (skipn from content)).
    { rewrite <- (firstn_skipn from content) at 1.
      rewrite firstn_app, length_firstn, firstn_firstn.
      replace (Nat.min from (List.length content)) with from by lia.
      replace (Nat.min (start d) from) with from by lia.
      reflexivity. }
    rewrite Hfirst, <- app_assoc. reflexivity.
Qed.

End RedactionOrder.

Section RedactionSplice.

Import Py PIIService Redaction.

(** X11: When the detections are not empty and no two of them overlap,
    [redact_pii] returns the content with every detected span replaced
    by the redaction string of its category: the text between the spans
    is kept, in place. *)
Theorem redact_pii_splices (settings : Settings) (self : PIIProtectionService)
        (content : str) (categories : option (list PIICategory))
        (asc : list Detection) :
  Permutation (detections (detect_pii settings self content categories)) asc ->
  ascending 0 (List.length content) asc ->
  fst (redact_pii settings self content categories) = spliced content 0 asc.
Proof.
  intros Hperm Hasc. unfold redact_pii.
  destruct (has_pii (detect_pii settings self content categories)) eqn:Hpii;
    simpl negb; cbv iota; simpl fst.
  - rewrite (@sorted_descending content _ asc Hperm Hasc).
    rewrite <- fold_left_rev_right, rev_involutive.
    rewrite (@redact_right_to_left content asc 0) by (assumption || lia).
    reflexivity.
  - assert (Hnil : detections (detect_pii settings self content categories) = []).
    { revert Hpii. unfold detect_pii.
      destruct (negb (PII_DETECTION_ENABLED settings)); [reflexivity|].
      simpl. intros H. apply Nat.ltb_ge in H.
      now apply length_zero_iff_nil, Nat.le_0_r. }
    rewrite Hnil in Hperm. apply Permutation_nil in Hperm. subst asc.
    reflexivity.
Qed.

Lemma redact_pii_splices_witness :
  fst (redact_pii default_settings {| _langextract := None |} two_secrets
                  (Some [SSN; EMAIL]))
  = spliced two_secrets 0 two_secrets_ascending.
Proof.
  apply (@redact_pii_splices default_settings {| _langextract := None |}
           two_secrets (Some [SSN; EMAIL]) two_secrets_ascending).
  - vm_compute. apply perm_swap.
  - vm_compute. repeat split; repeat constructor.
Defined.

Example redact_pii_two_secrets :
  fst (redact_pii default_settings {| _langextract := None |} Redaction.two_secrets
                  (Some [SSN; EMAIL]))
  = lit "mail [REDACTED_EMAIL] ssn [REDACTED_SSN]".
Proof. vm_compute. reflexivity. Qed.

End RedactionSplice.

(* ================================================================== *)
(** * Detections lie in the content *)
(* ================================================================== *)

Section MatcherBounds.

Import Py Re MatcherSpec MatchBounds.

Variable lo : nat.

Lemma reaches_refl (cu : cursor) : reaches lo cu cu.
Proof. split; [apply later_refl | auto]. Qed.

Lemma reaches_trans (a b c : cursor) :
  reaches lo a b -> reaches lo b c -> reaches lo a c.
Proof.
  intros [Hab Iab] [Hbc Ibc]. split; [eapply later_trans; eassumption|].
  intros Hlo Ha. apply Ibc; [|now apply Iab].
  destruct Hab as [_ Hab]. lia.
Qed.

Lemma reaches_advance (cu : cursor) (x : ascii) (t : str) :
  rest cu = x :: t -> reaches lo cu (advance cu x t).
Proof.
  intros Hrest. split; [now apply later_advance|].
  intros _ Hin. unfold inside, span_within in *. simpl.
  rewrite Forall_forall in *. intros g Hg. specialize (Hin g Hg). lia.
Qed.

Lemma reaches_close_group (cu cu' : cursor) (n : nat) :
  reaches lo cu cu' -> reaches lo cu (close_group cu' n (pos cu)).
Proof.
  intros [Hl Hin]. split; [now apply later_close_group|].
  intros Hlo Hcu. specialize (Hin Hlo Hcu).
  unfold inside, span_within in *. simpl.
  constructor.
  - simpl. destruct Hl as [_ Hl]. lia.
  - rewrite Forall_forall in *. intros g Hg.
    apply filter_In in Hg. now apply Hin.
Qed.

Lemma rep_loop_sound (step : cursor -> K -> option cursor)
      (l : nat) (hi : option nat) :
  sound lo step ->
  forall fuel count, sound lo (fun cu k => rep_loop step l hi fuel count cu k).
Proof.
  intros Hstep. induction fuel as [|f IH]; intros count cu k e He;
    [discriminate|].
  cbn [rep_loop] in He.
  set (more := step cu (fun cu' => if pos cu <? pos cu'
                                   then rep_loop step l hi f (S count) cu' k
                                   else None)) in *.
  assert (Hmore : more = Some e ->
                  exists cu', reaches lo cu cu' /\ k cu' = Some e).
  { intros Hm. apply Hstep in Hm. destruct Hm as (cu1 & H1 & Hk).
    destruct (pos cu <? pos cu1); [|discriminate].
    apply IH in Hk. destruct Hk as (cu2 & H2 & Hk).
    exists cu2. split; [eapply reaches_trans; eassumption | exact Hk]. }
  assert (Hstay : k cu = Some e ->
                  exists cu', reaches lo cu cu' /\ k cu' = Some e).
  { intros Hk. exists cu. split; [apply reaches_refl | exact Hk]. }
  destruct (count <? l); [now apply Hmore|].
  destruct (below hi count); [|now apply Hstay].
  destruct more as [r|]; [|now apply Hstay].
  apply Hmore. exact He.
Qed.

(** When the matcher succeeds, the continuation was called at a later
    position of the subject, the groups inside. *)
Lemma m_with_sound (extra : nat) (r : regex) : sound lo (m_with extra r).
Proof.
  induction r as [|c|negate items|r1 IH1 r2 IH2|r1 IH1 r2 IH2|l hi r1 IH1
                  |n r1 IH1|]; intros cu k e He; cbn [m_with] in He.
  - exists cu. split; [apply reaches_refl | exact He].
  - destruct (rest cu) as [|x t] eqn:Hrest; [discriminate|].
    destruct (item_match (CChar c) x); [|discriminate].
    exists (advance cu x t). split; [now apply reaches_advance | exact He].
  - destruct (rest cu) as [|x t] eqn:Hrest; [discriminate|].
    destruct (xorb negate (existsb (fun it => item_match it x) items));
      [|discriminate].
    exists (advance cu x t). split; [now apply reaches_advance | exact He].
  - apply IH1 in He. destruct He as (cu1 & H1 & He).
    apply IH2 in He. destruct He as (cu2 & H2 & He).
    exists cu2. split; [eapply reaches_trans; eassumption | exact He].
  - destruct (m_with extra r1 cu k) as [e1|] eqn:H1.
    + apply IH1 in H1. injection He as <-. exact H1.
    + now apply IH2.
  - apply (@rep_loop_sound (m_with extra r1) l hi IH1) in He. exact He.
  - apply IH1 in He. destruct He as (cu1 & H1 & He).
    exists (close_group cu1 n (pos cu)).
    split; [now apply reaches_close_group | exact He].
  - destruct (at_boundary cu); [|discriminate].
    exists cu. split; [apply reaches_refl | exact He].
Qed.

End MatcherBounds.

Section MatchPositions.

Import Py Re MatcherSpec MatchBounds.

Lemma match_at_within (r : regex) (p : option ascii) (i : nat) (s : str)
      (e : cursor) :
  match_at r p i s = Some e ->
  match_within i (i + List.length s)
               {| m_start := i; m_end := pos e; m_groups := groups e |}.
Proof.
  unfold match_at, m. intros He.
  apply (@m_with_sound i) in He. destruct He as (cu & [[Hsum Hle] Hin] & Hk).
  injection Hk as <-. simpl in *.
  unfold match_within. simpl. repeat split; try lia.
  apply Hin; [lia | constructor].
Qed.

Lemma match_within_wider (lo lo' hi hi' : nat) (ma : Match) :
  lo' <= lo -> hi <= hi' -> match_within lo hi ma -> match_within lo' hi' ma.
Proof. unfold match_within. intros ? ? (? & ? & ? & ?). repeat split; auto; lia. Qed.

Lemma scan_within (r : regex) (s : str) :
  forall p i skip ma,
    In ma (scan r p i s skip) -> match_within i (i + List.length s) ma.
Proof.
  induction s as [|c t IH]; intros p i skip ma Hin.
  - destruct skip; simpl in Hin; [|contradiction].
    destruct (match_at r p i []) as [e|] eqn:He; [|contradiction].
    destruct Hin as [<- | []]. now apply (match_at_within r p).
  - assert (Htail : forall q k, In ma (scan r q (S i) t k) ->
                                match_within i (i + List.length (c :: t)) ma).
    { intros q k Hk. apply IH in Hk.
      apply (match_within_wider (lo := S i) (hi := S i + List.length t));
        simpl; try lia; exact Hk. }
    destruct skip as [|k]; cbn [scan] in Hin; [|now apply (Htail (Some c) k)].
    destruct (match_at r p i (c :: t)) as [e|] eqn:He.
    + destruct Hin as [<- | Hin]; [now apply (match_at_within r p)|].
      now apply (Htail (Some c) (pos e - i - 1)).
    + now apply (Htail (Some c) 0).
Qed.

Lemma finditer_within (r : regex) (subject : str) (ma : Match) :
  In ma (finditer r subject) -> match_within 0 (List.length subject) ma.
Proof. intros Hin. now apply scan_within in Hin. Qed.

Lemma span_bounds (hi : nat) (ma : Match) (g : nat) :
  match_within 0 hi ma ->
  fst (span ma g) <= snd (span ma g) /\ snd (span ma g) <= hi.
Proof.
  intros (_ & Hse & Hhi & Hgs). destruct g as [|g]; simpl; [lia|].
  destruct (find _ (m_groups ma)) as [e|] eqn:Hf; simpl; [|lia].
  apply find_some in Hf. destruct Hf as [Hin _].
  rewrite Forall_forall in Hgs. specialize (Hgs e Hin).
  unfold span_within in Hgs. lia.
Qed.

End MatchPositions.

Section DetectionInvariants.

Import Py Re PIIService MatchBounds DetectionSpec.
Import PrimFloat.

(** A property of the accumulator that every iteration keeps holds
    after the loop. *)
Lemma fold_left_invariant (A B : Type) (P : A -> Prop) (f : A -> B -> A)
      (l : list B) :
  (forall a b, In b l -> P a -> P (f a b)) ->
  forall a, P a -> P (fold_left f l a).
Proof.
  induction l as [|b t IH]; intros Hf a Ha; simpl; [exact Ha|].
  apply IH; [intros a' b' Hb'; apply Hf; now right|].
  apply Hf; [now left | exact Ha].
Qed.

Variable content : str.

Lemma detection_of_match_located (c : PIICategory) (ma : Match) :
  match_within 0 (List.length content) ma ->
  located content (detection_of_match content c ma).
Proof.
  intros Hma. unfold located, detection_of_match. simpl.
  set (g := match lastindex ma with Some _ => 1 | None => 0 end).
  destruct (span_bounds g Hma) as [H1 H2].
  unfold Re.start_, Re.end_, group. repeat split; assumption.
Qed.

(** The loops of [_detect_with_regex] keep a property of the detections
    that every new detection has and a property of the categories that
    adding a category of the list keeps. *)
Lemma detect_with_regex_invariant (categories : list PIICategory)
      (P : list Detection * list PIICategory -> Prop) :
  P ([], []) ->
  (forall acc c ma,
      In c categories ->
      (exists pattern, In pattern (_patterns c) /\ In ma (finditer pattern content)) ->
      P acc ->
      P (fst acc ++ [detection_of_match content c ma], add_category (snd acc) c)) ->
  P (_detect_with_regex content categories).
Proof.
  intros Hstart Hstep. unfold _detect_with_regex.
  apply fold_left_invariant; [|exact Hstart].
  intros acc c Hc Hacc.
  apply fold_left_invariant; [|exact Hacc].
  intros acc1 pattern Hp Hacc1.
  apply fold_left_invariant; [|exact Hacc1].
  intros acc2 ma Hma Hacc2.
  apply Hstep; [exact Hc | now exists pattern | exact Hacc2].
Qed.

Lemma detect_with_regex_located (categories : list PIICategory) :
  Forall (located content) (fst (_detect_with_regex content categories)).
Proof.
  apply (@detect_with_regex_invariant categories
           (fun acc => Forall (located content) (fst acc))); [constructor|].
  intros acc c ma _ (pattern & _ & Hma) Hacc. simpl.
  apply Forall_app. split; [exact Hacc|]. constructor; [|constructor].
  apply detection_of_match_located. now apply finditer_within in Hma.
Qed.

(** ** [str.find] *)

Lemma starts_with_firstn (p s : str) :
  starts_with p s = true ->
  List.length p <= List.length s /\ firstn (List.length p) s = p.
Proof.
  revert s. induction p as [|a p IH]; intros s H; simpl in *.
  - split; [lia | reflexivity].
  - destruct s as [|b s]; [discriminate|].
    destruct (ascii_dec a b) as [<- | _]; [|discriminate].
    destruct (IH s H) as [Hlen Hf]. simpl. split; [lia | now rewrite Hf].
Qed.

Lemma find_from_found (sub s : str) :
  forall i j,
    find_from sub s i = Some j ->
    exists k, j = i + k /\ k + List.length sub <= List.length s /\
              firstn (List.length sub) (skipn k s) = sub.
Proof.
  induction s as [|c t IH]; intros i j H; simpl in H.
  - destruct (starts_with sub []) eqn:Hs; [|discriminate].
    injection H as <-. apply starts_with_firstn in Hs. exists 0.
    simpl. split; [lia|]. split; [apply Hs | apply Hs].
  - destruct (starts_with sub (c :: t)) eqn:Hs.
    + injection H as <-. apply starts_with_firstn in Hs. exists 0.
      simpl skipn. split; [lia|]. split; [apply Hs | apply Hs].
    + apply IH in H. destruct H as (k & -> & Hlen & Hf).
      exists (S k). simpl. split; [lia|]. split; [lia | exact Hf].
Qed.

Lemma str_find_found (sub : str) (i : nat) :
  str_find content sub = Some i ->
  i + List.length sub <= List.length content /\
  slice content i (i + List.length sub) = sub.
Proof.
  unfold str_find. intros H. apply find_from_found in H.
  destruct H as (k & -> & Hlen & Hf). simpl. split; [exact Hlen|].
  unfold slice. now replace (k + List.length sub - k) with (List.length sub) by lia.
Qed.

(** The loop of [_detect_with_langextract], in the same way. *)
Lemma detect_with_langextract_invariant (lx : LangExtract)
      (categories : list PIICategory)
      (P : list Detection * list PIICategory -> Prop) :
  P ([], []) ->
  (forall acc c text i,
      cat_mem c categories = true ->
      str_find content text = Some i ->
      P acc ->
      P (fst acc ++ [{| category := c; text := text; start := i;
                        end_ := i + List.length text;
                        confidence := 0x1.ccccccccccccdp-1%float;
                        source := langextract_source |}],
         add_category (snd acc) c)) ->
  P (_detect_with_langextract lx content categories).
Proof.
  intros Hstart Hstep. unfold _detect_with_langextract.
  destruct (lx content) as [extractions|]; [|exact Hstart].
  apply fold_left_invariant; [|exact Hstart].
  intros acc extraction _ Hacc.
  destruct (_map_extraction_to_category (extraction_class extraction)) as [c|];
    [|exact Hacc].
  destruct (cat_mem c categories) eqn:Hc; [|exact Hacc].
  destruct (str_find content (extraction_text extraction)) as [i|] eqn:Hi;
    [|exact Hacc].
  now apply Hstep.
Qed.

Lemma detect_with_langextract_located (lx : LangExtract)
      (categories : list PIICategory) :
  Forall (located content) (fst (_detect_with_langextract lx content categories)).
Proof.
  apply (@detect_with_langextract_invariant lx categories
           (fun acc => Forall (located content) (fst acc))); [constructor|].
  intros acc c text i _ Hi Hacc. simpl.
  apply Forall_app. split; [exact Hacc|]. constructor; [|constructor].
  apply str_find_found in Hi. destruct Hi as [Hlen Hs].
  unfold located. simpl. repeat split; [lia | exact Hlen | now symmetry].
Qed.

(** ** The merge keeps detections of its two arguments only *)

Lemma merge_loop_from (rx : list Detection) :
  forall acc d,
    In d (fst (fold_left merge_step rx acc)) -> In d (fst acc) \/ In d rx.
Proof.
  induction rx as [|x rx IH]; intros acc d Hd; simpl in *; [now left|].
  apply IH in Hd. destruct Hd as [Hd | Hd]; [|right; now right].
  unfold merge_step in Hd. destruct (span_mem (span_of x) (snd acc)).
  - now left.
  - simpl in Hd. apply in_app_or in Hd.
    destruct Hd as [Hd | [<- | []]]; [now left | right; now left].
Qed.

Lemma merge_detections_from (lx rx : list Detection) (d : Detection) :
  In d (merge_detections lx rx) -> In d lx \/ In d rx.
Proof. unfold merge_detections. intros Hd. now apply merge_loop_from in Hd. Qed.

End DetectionInvariants.

Section DetectionsLocated.

Import Py Re PIIService MatchBounds DetectionSpec.

Lemma detect_pii_from (settings : Settings) (self : PIIProtectionService)
      (content : str) (categories : option (list PIICategory)) (d : Detection) :
  In d (detections (detect_pii settings self content categories)) ->
  (exists lx, In d (fst (_detect_with_langextract lx content (requested categories))))
  \/ In d (fst (_detect_with_regex content (requested categories))).
Proof.
  unfold detect_pii.
  destruct (negb (PII_DETECTION_ENABLED settings)); [contradiction|].
  fold (requested categories). cbn [detections]. intros Hd.
  apply merge_detections_from in Hd. destruct Hd as [Hd | Hd]; [|now right].
  destruct (_langextract self) as [lx|]; [|contradiction].
  destruct (truthy (GOOGLE_API_KEY settings)); [|contradiction].
  left. now exists lx.
Qed.

(** X12: Every detection that [detect_pii] reports lies in the content:
    [start <= end <= len(content)], and its text is
    [content[start:end]], for the detections of the patterns and for
    those of the extractor. *)
Theorem detections_located (settings : Settings) (self : PIIProtectionService)
        (content : str) (categories : option (list PIICategory)) :
  Forall (located content)
         (detections (detect_pii settings self content categories)).
Proof.
  rewrite Forall_forall. intros d Hd. apply detect_pii_from in Hd.
  destruct Hd as [(lx & Hd) | Hd].
  - pose proof (detect_with_langextract_located content lx (requested categories)) as H.
    rewrite Forall_forall in H. now apply H.
  - pose proof (detect_with_regex_located content (requested categories)) as H.
    rewrite Forall_forall in H. now apply H.
Qed.

End DetectionsLocated.

(* ================================================================== *)
(** * The categories that [detect_pii] reports *)
(* ================================================================== *)

Section CategoriesFound.

Import Py Re PIIService DetectionSpec.
Import PrimFloat.

Lemma cat_mem_In (c : PIICategory) (l : list PIICategory) :
  cat_mem c l = true <-> In c l.
Proof.
  unfold cat_mem. rewrite existsb_exists. split.
  - intros (x & Hx & Heq). unfold cat_eqb in Heq.
    destruct (PIICategory_eq_dec c x); [now subst | discriminate].
  - intros H. exists c. split; [exact H|]. unfold cat_eqb.
    destruct (PIICategory_eq_dec c c); [reflexivity | contradiction].
Qed.

Lemma add_category_In (found : list PIICategory) (c x : PIICategory) :
  In x (add_category found c) <-> In x found \/ x = c.
Proof.
  unfold add_category. destruct (cat_mem c found) eqn:Hc.
  - apply cat_mem_In in Hc. split; [now left | intros [H | ->]; assumption].
  - rewrite in_app_iff. simpl. intuition.
Qed.

Lemma add_category_NoDup (found : list PIICategory) (c : PIICategory) :
  NoDup found -> NoDup (add_category found c).
Proof.
  intros Hnd. unfold add_category. destruct (cat_mem c found) eqn:Hc; [exact Hnd|].
  apply NoDup_app; [exact Hnd | repeat constructor; intros [] |].
  intros x Hx [<- | []]. apply cat_mem_In in Hx. congruence.
Qed.

Lemma add_categories_In (l : list PIICategory) :
  forall found x,
    In x (fold_left add_category l found) <-> In x found \/ In x l.
Proof.
  induction l as [|c l IH]; intros found x; simpl; [tauto|].
  rewrite IH, add_category_In. intuition.
Qed.

Lemma add_categories_NoDup (l : list PIICategory) :
  forall found, NoDup found -> NoDup (fold_left add_category l found).
Proof.
  induction l as [|c l IH]; intros found Hnd; simpl; [exact Hnd|].
  apply IH. now apply add_category_NoDup.
Qed.

Lemma tallied_start (categories : list PIICategory) : tallied categories ([], []).
Proof. repeat split; [intros d [] | intros x [] | constructor]. Qed.

Lemma tallied_step (categories : list PIICategory)
      (acc : list Detection * list PIICategory) (d : Detection) :
  In (category d) categories ->
  tallied categories acc ->
  tallied categories (fst acc ++ [d], add_category (snd acc) (category d)).
Proof.
  intros Hc (Hd & Hincl & Hnd). repeat split; simpl.
  - intros x Hx. apply add_category_In. apply in_app_or in Hx.
    destruct Hx as [Hx | [<- | []]]; [left; now apply Hd | now right].
  - intros x Hx. apply add_category_In in Hx.
    destruct Hx as [Hx | ->]; [now apply Hincl | exact Hc].
  - now apply add_category_NoDup.
Qed.

Lemma detect_with_regex_tallied (content : str) (categories : list PIICategory) :
  tallied categories (_detect_with_regex content categories).
Proof.
  apply detect_with_regex_invariant; [apply tallied_start|].
  intros acc c ma Hc _ Hacc.
  now apply (@tallied_step categories acc (detection_of_match content c ma)).
Qed.

Lemma detect_with_langextract_tallied (lx : LangExtract) (content : str)
      (categories : list PIICategory) :
  tallied categories (_detect_with_langextract lx content categories).
Proof.
  apply detect_with_langextract_invariant; [apply tallied_start|].
  intros acc c text i Hc _ Hacc. apply cat_mem_In in Hc.
  now apply (@tallied_step categories acc
               {| category := c; text := text; start := i;
                  end_ := i + List.length text;
                  confidence := 0x1.ccccccccccccdp-1%float;
                  source := langextract_source |}).
Qed.

(** X13: Every detection that [detect_pii] reports has its category in
    [categories_found]; [categories_found] holds requested categories
    only (all seven when none is given), and none twice. *)
Theorem detect_pii_categories (settings : Settings) (self : PIIProtectionService)
        (content : str) (categories : option (list PIICategory)) :
  let result := detect_pii settings self content categories in
  (forall d, In d (detections result) ->
             In (category d) (categories_found result)) /\
  incl (categories_found result) (requested categories) /\
  NoDup (categories_found result).
Proof.
  unfold detect_pii.
  destruct (negb (PII_DETECTION_ENABLED settings));
    [cbn; repeat split; [intros d [] | intros x [] | constructor]|].
  fold (requested categories). cbn zeta. cbn [detections categories_found].
  set (lxr := match _langextract self with
              | Some lx =>
                  if truthy (GOOGLE_API_KEY settings)
                  then _detect_with_langextract lx content (requested categories)
                  else ([], [])
              | None => ([], [])
              end).
  assert (Hlx : tallied (requested categories) lxr).
  { unfold lxr. destruct (_langextract self) as [lx|]; [|apply tallied_start].
    destruct (truthy (GOOGLE_API_KEY settings)); [|apply tallied_start].
    apply detect_with_langextract_tallied. }
  pose proof (detect_with_regex_tallied content (requested categories)) as Hrx.
  destruct Hlx as (Hlx1 & Hlx2 & Hlx3). destruct Hrx as (Hrx1 & Hrx2 & Hrx3).
  repeat split.
  - intros d Hd. apply add_categories_In. apply merge_detections_from in Hd.
    destruct Hd as [Hd | Hd]; [left | right; now apply Hrx1].
    apply add_categories_In. right. now apply Hlx1.
  - intros x Hx. apply add_categories_In in Hx.
    destruct Hx as [Hx | Hx]; [|now apply Hrx2].
    apply add_categories_In in Hx. destruct Hx as [[] | Hx]. now apply Hlx2.
  - apply add_categories_NoDup, add_categories_NoDup. constructor.
Qed.

(** A category can be found without a detection of that category: the
    credit of a span goes to the first pattern that matches it. *)
Example category_found_without_detection :
  let result :=
    detect_pii default_settings {| _langextract := None |}
               (lit "password=sk-aaaaaaaaaaaaaaaaaaaaaaaaaaaaaaaa")
               (Some [PASSWORD; API_KEY]) in
  In API_KEY (categories_found result) /\
  map category (detections result) = [PASSWORD].
Proof. vm_compute. split; [tauto | reflexivity]. Qed.

End CategoriesFound.

(* ================================================================== *)
(** * What the merge of [detect_pii] keeps *)
(* ================================================================== *)

Section MergeKeeps.

Import Py PIIService.

Lemma merge_loop_keeps (rx : list Detection) :
  forall ds seen,
    (forall p, In p seen <-> In p (map span_of ds)) ->
    exists kept,
      fst (fold_left merge_step rx (ds, seen)) = ds ++ kept /\
      incl kept rx /\
      NoDup (map span_of kept) /\
      (forall d, In d kept -> ~ In (span_of d) (map span_of ds)) /\
      (forall d, In d rx -> In (span_of d) (map span_of (ds ++ kept))).
Proof.
  induction rx as [|x rx IH]; intros ds seen Hseen.
  - exists []. simpl. rewrite app_nil_r.
    repeat split; [intros d [] | constructor | intros d [] | intros d []].
  - cbn [fold_left]. unfold merge_step at 2. cbn [fst snd].
    destruct (span_mem (span_of x) seen) eqn:Hx.
    + destruct (IH ds seen Hseen) as (kept & Hk & Hincl & Hnd & Hnew & Hall).
      exists kept. split; [exact Hk|]. split; [now apply incl_tl|].
      split; [exact Hnd|]. split; [exact Hnew|].
      intros d [<- | Hd]; [|now apply Hall].
      apply span_mem_In, Hseen in Hx. rewrite map_app. apply in_or_app. now left.
    + assert (Hnot : ~ In (span_of x) (map span_of ds)).
      { intros Hin. apply Hseen, span_mem_In in Hin. congruence. }
      destruct (IH (ds ++ [x]) (span_of x :: seen))
        as (kept & Hk & Hincl & Hnd & Hnew & Hall).
      { intros p. rewrite map_app, in_app_iff. simpl. rewrite Hseen. tauto. }
      exists (x :: kept). rewrite Hk, <- app_assoc. split; [reflexivity|].
      split; [|split; [|split]].
      * intros d [<- | Hd]; [now left | right; now apply Hincl].
      * simpl. constructor; [|exact Hnd].
        intros Hin. apply in_map_iff in Hin. destruct Hin as (d & Hsp & Hd).
        apply (Hnew d Hd). rewrite Hsp, map_app. apply in_or_app. right. now left.
      * intros d [<- | Hd]; [exact Hnot|].
        intros Hin. apply (Hnew d Hd). rewrite map_app. apply in_or_app. now left.
      * intros d [<- | Hd].
        -- rewrite map_app. apply in_or_app. right. now left.
        -- specialize (Hall d Hd). now rewrite <- app_assoc in Hall.
Qed.

(** X14: The merge returns the detections of the extractor, all of them and
    in their order, followed by detections of the patterns: no two of
    these at the same position, none at a position of the extractor, and
    every position the patterns found is among the positions returned. *)
Theorem merge_detections_keeps (lx rx : list Detection) :
  exists kept,
    merge_detections lx rx = lx ++ kept /\
    incl kept rx /\
    NoDup (map span_of kept) /\
    (forall d, In d kept -> ~ In (span_of d) (map span_of lx)) /\
    (forall d, In d rx -> In (span_of d) (map span_of (merge_detections lx rx))).
Proof.
  unfold merge_detections.
  destruct (@merge_loop_keeps rx lx (map span_of lx)) as (kept & Hk & H).
  { tauto. }
  exists kept. rewrite Hk. split; [reflexivity | exact H].
Qed.

End MergeKeeps.

(* ================================================================== *)
(** * The calls that [embed_texts] and [embed_text] make *)
(* ================================================================== *)

Section EmbeddingCalls.

Import Py EmbeddingService EmbeddingSpec EmbeddingRun.

Variable md5_hexdigest : list byte -> str.
Variable load_model : str -> SentenceTransformer.

Local Abbreviation cache_key := (_get_cache_key md5_hexdigest).
Local Abbreviation embed_text := (embed_text md5_hexdigest load_model).
Local Abbreviation embed_texts := (embed_texts md5_hexdigest load_model).
Local Abbreviation partition_step := (partition_step md5_hexdigest).
Local Abbreviation store_step := (store_step md5_hexdigest).
Local Abbreviation model_of := (EmbeddingSpec.model_of load_model).
Local Abbreviation lookup := (EmbeddingSpec.lookup md5_hexdigest).
Local Abbreviation partition_pure := (EmbeddingSpec.partition_pure md5_hexdigest).
Local Abbreviation hits := (EmbeddingSpec.hits md5_hexdigest).
Local Abbreviation missed := (EmbeddingSpec.missed md5_hexdigest).
Local Abbreviation loaded := (EmbeddingRun.loaded load_model).
Local Abbreviation reads := (EmbeddingRun.reads md5_hexdigest).
Local Abbreviation writes := (EmbeddingRun.writes md5_hexdigest).
Local Abbreviation to_embed := (EmbeddingRun.to_embed md5_hexdigest).
Local Abbreviation batch_events := (EmbeddingRun.batch_events md5_hexdigest).
Local Abbreviation entry_of := (EmbeddingRun.entry_of md5_hexdigest).

Lemma logged_nil (s : Service) : logged s [] = s.
Proof. destruct s. unfold logged. simpl. now rewrite app_nil_r. Qed.

Lemma logged_logged (s : Service) (a b : list Event) :
  logged (logged s a) b = logged s (a ++ b).
Proof. unfold logged. simpl. now rewrite app_assoc. Qed.

Lemma lookup_logged (s : Service) (events : list Event) (text : str) :
  lookup (logged s events) text = lookup s text.
Proof. reflexivity. Qed.

Lemma get_model_run (s : Service) :
  _get_model load_model s = (model_of s, loaded s).
Proof.
  unfold _get_model, EmbeddingSpec.model_of, EmbeddingRun.loaded, loading,
    EmbeddingSpec.model_of.
  destruct s as [mo name cache en tr]. simpl.
  destruct mo; simpl; [now rewrite app_nil_r | reflexivity].
Qed.

Lemma partition_step_run (acc : Partition) (it : nat * str) (s : Service) :
  partition_step acc it s
  = (partition_pure s acc it, logged s (reads s [snd it])).
Proof.
  destruct acc as [[E T] I], it as [i text].
  unfold EmbeddingService.partition_step, EmbeddingSpec.partition_pure,
    EmbeddingSpec.lookup, EmbeddingRun.reads,
    bind, ret, cache_enabled, cache_get, emit.
  destruct s as [mo name cache en tr]; simpl.
  destruct en; simpl.
  - destruct (dict_get cache (cache_key text)); reflexivity.
  - unfold logged. simpl. now rewrite app_nil_r.
Qed.

Lemma partition_pure_logged (s : Service) (events : list Event)
      (l : list (nat * str)) :
  forall acc,
    fold_left (partition_pure (logged s events)) l acc
    = fold_left (partition_pure s) l acc.
Proof. induction l as [|it l IH]; intros acc; simpl; [reflexivity | apply IH]. Qed.

Lemma reads_cons (s : Service) (t : str) (ts : list str) :
  reads s [t] ++ reads (logged s (reads s [t])) ts = reads s (t :: ts).
Proof. unfold EmbeddingRun.reads. simpl. now destruct (_cache_enabled s). Qed.

Lemma partition_loop_run (l : list (nat * str)) :
  forall acc s,
    fold_m partition_step l acc s
    = (fold_left (partition_pure s) l acc, logged s (reads s (map snd l))).
Proof.
  induction l as [|it l IH]; intros acc s; simpl.
  - unfold ret, EmbeddingRun.reads. simpl.
    destruct (_cache_enabled s); now rewrite logged_nil.
  - unfold bind. rewrite partition_step_run, IH.
    rewrite partition_pure_logged, logged_logged, reads_cons. reflexivity.
Qed.

Lemma store_step_run (texts : list str) (E : list (nat * Vector))
      (it : nat * Vector) (s : Service) :
  store_step texts E it s = (E ++ [it], after_writes s [entry_of texts it]).
Proof.
  destruct it as [idx v].
  unfold EmbeddingService.store_step, after_writes, EmbeddingRun.entry_of,
    written, stored, logged, bind, ret, cache_enabled, cache_set, emit, with_cache.
  destruct s as [mo name cache en tr]; simpl.
  destruct en; reflexivity.
Qed.

Lemma after_writes_cons (s : Service) (it : str * Vector)
      (its : list (str * Vector)) :
  after_writes (after_writes s [it]) its = after_writes s (it :: its).
Proof.
  unfold after_writes, written, stored, logged.
  destruct s as [mo name cache en tr]; simpl.
  destruct en; simpl; [|reflexivity]. now rewrite <- app_assoc.
Qed.

Lemma after_writes_nil (s : Service) : after_writes s [] = s.
Proof.
  unfold after_writes, written, stored, logged.
  destruct s as [mo name cache en tr]; simpl.
  destruct en; simpl; [|reflexivity]. now rewrite app_nil_r.
Qed.

Lemma store_loop_run (texts : list str) (l : list (nat * Vector)) :
  forall E s,
    fold_m (store_step texts) l E s
    = (E ++ l, after_writes s (map (entry_of texts) l)).
Proof.
  induction l as [|it l IH]; intros E s; simpl.
  - unfold ret. now rewrite app_nil_r, after_writes_nil.
  - unfold bind. rewrite store_step_run, IH, after_writes_cons.
    now rewrite <- app_assoc.
Qed.

(** The state in which [embed_texts] leaves the service. *)
Lemma embed_texts_state (s : Service) (texts : list str) (batch_size : Z) :
  texts <> [] ->
  snd (embed_texts texts batch_size s)
  = let s2 := logged (loaded s) (reads s texts) in
    match to_embed s texts with
    | [] => s2
    | _ :: _ =>
        after_writes
          (logged s2 [EncodeBatch (to_embed s texts) batch_size])
          (map (entry_of texts)
               (combine (map fst (missed s (enumerate texts)))
                        (encode_batch (model_of s) (to_embed s texts) batch_size)))
    end.
Proof.
  intros Hne. destruct texts as [|t0 texts0]; [contradiction|].
  unfold EmbeddingService.embed_texts.
  generalize (t0 :: texts0) as texts. intros texts.
  unfold embed_texts_nonempty.
  unfold bind at 1. rewrite get_model_run.
  unfold bind at 1. rewrite partition_loop_run, partition_pure_loop.
  rewrite enumerate_values. cbn [app].
  change (EmbeddingSpec.missed md5_hexdigest (loaded s) (enumerate texts))
    with (missed s (enumerate texts)).
  change (reads (loaded s) texts) with (reads s texts).
  unfold EmbeddingRun.to_embed. cbv zeta.
  destruct (map snd (missed s (enumerate texts))) as [|m0 ms] eqn:Hmiss.
  - reflexivity.
  - rewrite <- Hmiss. unfold bind at 1.
    unfold model_encode_batch, bind, emit, ret. cbn [fst snd].
    rewrite store_loop_run. reflexivity.
Qed.

Lemma after_writes_trace (s : Service) (its : list (str * Vector)) :
  trace (after_writes s its)
  = trace s ++ (if _cache_enabled s
                then map (fun it => CacheWrite (fst it)) its else []).
Proof.
  unfold after_writes. destruct (_cache_enabled s); simpl;
    [reflexivity | now rewrite app_nil_r].
Qed.

Lemma map_fst_combine (A B : Type) (a : list A) (b : list B) :
  List.length a = List.length b -> map fst (combine a b) = a.
Proof.
  revert b. induction a as [|x a IH]; intros [|y b] H; simpl in *;
    try discriminate; [reflexivity|].
  f_equal. apply IH. now injection H.
Qed.

(** The keys that the second loop writes are the keys of the texts that
    the cache did not hold. *)
Lemma entries_written (s : Service) (texts : list str) (batch_size : Z) :
  batch_sized (model_of s) ->
  map fst (map (entry_of texts)
               (combine (map fst (missed s (enumerate texts)))
                        (encode_batch (model_of s) (to_embed s texts) batch_size)))
  = map cache_key (to_embed s texts).
Proof.
  intros Hsized. rewrite map_map. unfold EmbeddingRun.entry_of at 1. cbn [fst].
  rewrite <- (map_map fst (fun i => cache_key (nth i texts []))).
  rewrite map_fst_combine
    by (rewrite Hsized; unfold EmbeddingRun.to_embed; now rewrite !length_map).
  unfold EmbeddingRun.to_embed. rewrite !map_map.
  apply map_ext_in. intros [i t] Hin.
  apply missed_incl, enumerate_nth in Hin. simpl. now rewrite Hin.
Qed.

(** X15: [embed_texts] loads the model if it was not loaded, reads the cache
    once for each text, in order, and calls the model at most once: on
    the texts that the cache did not hold, in their order and with
    their repetitions, each of which is then written to the cache.  It
    encodes no text on its own and deletes nothing from the cache. *)
Theorem embed_texts_trace (s : Service) (texts : list str) (batch_size : Z) :
  batch_sized (model_of s) ->
  trace (snd (embed_texts texts batch_size s))
  = trace s ++ batch_events s texts batch_size.
Proof.
  intros Hsized. destruct texts as [|t0 texts0].
  { simpl. now rewrite app_nil_r. }
  rewrite embed_texts_state by discriminate.
  unfold EmbeddingRun.batch_events.
  generalize (t0 :: texts0) as texts. intros texts. cbv zeta.
  pose proof (entries_written s texts batch_size Hsized) as Hkeys.
  destruct (to_embed s texts) as [|m0 ms] eqn:Htodo.
  - simpl. now rewrite app_nil_r, <- app_assoc.
  - rewrite after_writes_trace. cbn [trace logged _cache_enabled loaded].
    unfold EmbeddingRun.writes.
    destruct (_cache_enabled s).
    + rewrite <- (map_map fst CacheWrite), Hkeys, map_map.
      rewrite <- !app_assoc. reflexivity.
    + rewrite app_nil_r, <- !app_assoc. reflexivity.
Qed.

(** ** A batch embedded twice *)

Lemma dict_set_keys (d : list (str * Vector)) (k k' : str) (v : Vector) :
  In k (keys (dict_set d k' v)) <-> In k (keys d) \/ k = k'.
Proof.
  induction d as [|[k0 v0] d IH]; simpl.
  - intuition.
  - unfold key_eqb. destruct (list_eq_dec ascii_dec k0 k') as [-> | Hne]; simpl.
    + intuition.
    + rewrite IH. intuition.
Qed.

Lemma written_keys (its : list (str * Vector)) :
  forall d k, In k (keys (written d its)) <-> In k (keys d) \/ In k (map fst its).
Proof.
  induction its as [|it its IH]; intros d k; simpl; [tauto|].
  unfold written in *. simpl. rewrite IH, dict_set_keys. intuition.
Qed.

Lemma dict_get_some (d : list (str * Vector)) (k : str) :
  In k (keys d) -> dict_get d k <> None.
Proof. intros Hin Hnone. now apply (proj1 (dict_get_none load_model d k)) in Hnone. Qed.

Lemma dict_get_in (d : list (str * Vector)) (k : str) :
  dict_get d k <> None -> In k (keys d).
Proof.
  intros Hsome.
  destruct (in_dec (list_eq_dec ascii_dec) k (keys d)) as [Hin | Hout];
    [exact Hin|].
  exfalso. apply Hsome. now apply (dict_get_none load_model).
Qed.

Lemma to_embed_holds (s : Service) (texts : list str) (t : str) :
  In t texts -> lookup s t = None -> In t (to_embed s texts).
Proof.
  intros Hin Hmiss. rewrite <- (enumerate_values texts) in Hin.
  apply in_map_iff in Hin. destruct Hin as ([i t'] & Ht & Hin). simpl in Ht. subst t'.
  unfold EmbeddingRun.to_embed. apply in_map_iff. exists (i, t). split; [reflexivity|].
  unfold EmbeddingSpec.missed. apply in_flat_map. exists (i, t). split; [exact Hin|].
  simpl. rewrite Hmiss. now left.
Qed.

Lemma nothing_to_embed (s : Service) (texts : list str) :
  (forall t, In t texts -> lookup s t <> None) -> to_embed s texts = [].
Proof.
  intros Hall. unfold EmbeddingRun.to_embed, EmbeddingSpec.missed.
  assert (H : forall l : list (nat * str),
             (forall it, In it l -> lookup s (snd it) <> None) ->
             flat_map (fun it => match lookup s (snd it) with
                                 | Some _ => []
                                 | None => [it]
                                 end) l = []).
  { induction l as [|it l IH]; intros Hl; simpl; [reflexivity|].
    destruct (lookup s (snd it)) eqn:Hit.
    - apply IH. intros it' Hin. apply Hl. now right.
    - exfalso. apply (Hl it); [now left | exact Hit]. }
  rewrite H; [reflexivity|].
  intros [i t] Hin. apply Hall. rewrite <- (enumerate_values texts).
  apply in_map_iff. now exists (i, t).
Qed.

(** X16: With caching on, a batch that was just embedded is embedded again
    from the cache: the second call reads the cache once for each text
    and calls neither the model nor its loader. *)
Theorem embed_texts_again (s : Service) (texts : list str) (batch_size : Z) :
  batch_sized (model_of s) ->
  _cache_enabled s = true ->
  let s1 := snd (embed_texts texts batch_size s) in
  trace (snd (embed_texts texts batch_size s1))
  = trace s1 ++ map (fun t => CacheRead (cache_key t)) texts.
Proof.
  intros Hsized Hen s1.
  destruct texts as [|t0 texts0]; [simpl; now rewrite app_nil_r|].
  assert (Hs1 : _model s1 = Some (model_of s) /\ _cache_enabled s1 = true /\
                forall t, In t (t0 :: texts0) -> lookup s1 t <> None).
  { unfold s1. rewrite embed_texts_state by discriminate.
    generalize (t0 :: texts0) as texts. intros texts. cbv zeta.
    pose proof (entries_written s texts batch_size Hsized) as Hkeys.
    pose proof (to_embed_holds s texts) as Hheld.
    destruct (to_embed s texts) as [|m0 ms] eqn:Htodo.
    - split; [reflexivity|]. split; [exact Hen|].
      intros t Ht Hnone. now apply (Hheld t Ht).
    - unfold after_writes. cbn [_cache_enabled logged loaded]. rewrite Hen.
      split; [reflexivity|]. split; [exact Hen|].
      intros t Ht. unfold EmbeddingSpec.lookup.
      cbn [_cache_enabled _cache stored logged loaded]. rewrite Hen.
      apply dict_get_some, written_keys. rewrite Hkeys.
      destruct (lookup s t) eqn:Hlook.
      + left. apply dict_get_in. unfold EmbeddingSpec.lookup in Hlook.
        rewrite Hen in Hlook. congruence.
      + right. apply in_map. now apply Hheld. }
  destruct Hs1 as (Hmodel & Hen1 & Hheld).
  rewrite embed_texts_state by discriminate. cbv zeta.
  rewrite (nothing_to_embed s1 _ Hheld).
  cbn [trace logged loaded]. unfold loading, EmbeddingRun.reads.
  rewrite Hmodel, Hen1. now rewrite app_nil_r.
Qed.

End EmbeddingCalls.

(* ================================================================== *)
(** * The cache under [embed_text] *)
(* ================================================================== *)

Section CacheOfEmbedText.

Import Py EmbeddingService EmbeddingSpec EmbeddingRun FullCache.

Variable md5_hexdigest : list byte -> str.
Variable load_model : str -> SentenceTransformer.

Local Abbreviation cache_key := (_get_cache_key md5_hexdigest).
Local Abbreviation embed_text := (embed_text md5_hexdigest load_model).
Local Abbreviation model_of := (EmbeddingSpec.model_of load_model).
Local Abbreviation lookup := (EmbeddingSpec.lookup md5_hexdigest).
Local Abbreviation after_calls := (FullCache.after_calls md5_hexdigest load_model).

Lemma embed_text_hit (s : Service) (text : str) (v : Vector) :
  lookup s text = Some v ->
  embed_text text s = (v, logged s [CacheRead (cache_key text)]).
Proof.
  unfold EmbeddingService.embed_text, EmbeddingSpec.lookup, logged,
    bind, ret, cache_enabled, cache_get, emit.
  destruct s as [mo name cache en tr]; simpl.
  destruct en; [|discriminate]. simpl. now intros ->.
Qed.

Lemma for_each_del_enabled (ks : list str) :
  forall s, _cache_enabled (snd (for_each ks cache_del s)) = _cache_enabled s.
Proof.
  induction ks as [|k ks IH]; intros s; simpl; [reflexivity|].
  unfold bind at 1. unfold cache_del at 1, bind, emit, with_cache. simpl.
  now rewrite IH.
Qed.

Lemma evict_oldest_enabled (s : Service) :
  _cache_enabled (snd (evict_oldest s)) = _cache_enabled s.
Proof.
  unfold evict_oldest, bind, cache_len, cache_keys, ret.
  destruct (10000 <? Z.of_nat (List.length (_cache s)))%Z; [|reflexivity].
  apply for_each_del_enabled.
Qed.

Lemma embed_text_enabled (s : Service) (text : str) :
  _cache_enabled (snd (embed_text text s)) = _cache_enabled s.
Proof.
  unfold EmbeddingService.embed_text,
    bind, ret, cache_enabled, cache_get, emit, _get_model, model_encode.
  destruct s as [mo name cache en tr]; simpl.
  destruct en; simpl.
  - destruct (dict_get cache (cache_key text)); simpl; [reflexivity|].
    destruct mo; simpl; unfold cache_set, bind, emit, with_cache; simpl;
      match goal with
      | |- context [evict_oldest ?st] =>
          pose proof (evict_oldest_enabled st) as Hev;
          destruct (evict_oldest st) as [u s']
      end; simpl in *; exact Hev.
  - destruct mo; reflexivity.
Qed.

Lemma dict_get_last (d : list (str * Vector)) (k : str) (v : Vector) :
  ~ In k (keys d) -> dict_get (d ++ [(k, v)]) k = Some v.
Proof.
  induction d as [|[k0 v0] d IH]; intros Hout; simpl.
  - now rewrite key_eqb_refl.
  - rewrite key_eqb_neq by (intros ->; apply Hout; now left).
    apply IH. intros Hin. apply Hout. now right.
Qed.

(** After [embed_text], with caching on, the cache holds the vector it
    returned under the key of the text: the entry written on a miss is
    the newest, which the eviction keeps. *)
Lemma embed_text_cached (s : Service) (text : str) :
  _cache_enabled s = true ->
  NoDup (keys (_cache s)) ->
  lookup (snd (embed_text text s)) text = Some (fst (embed_text text s)).
Proof.
  intros Hen Hnd. unfold EmbeddingSpec.lookup at 1.
  rewrite embed_text_enabled, Hen, embed_text_value, embed_text_cache by assumption.
  unfold EmbeddingSpec.cached_or_encoded.
  destruct (lookup s text) as [v|] eqn:Hlook.
  - unfold EmbeddingSpec.lookup in Hlook. now rewrite Hen in Hlook.
  - rewrite Hen. cbv zeta.
    unfold EmbeddingSpec.lookup in Hlook. rewrite Hen in Hlook.
    apply (dict_get_none load_model) in Hlook.
    destruct (10000 <? _)%Z eqn:Hover.
    + rewrite length_app in Hover. simpl in Hover. apply Z.ltb_lt in Hover.
      rewrite skipn_app.
      replace (Z.to_nat 5000 - List.length (_cache s)) with 0 by lia.
      simpl skipn. apply dict_get_last.
      intros Hin. apply Hlook. unfold keys in *.
      rewrite <- (firstn_skipn (Z.to_nat 5000) (_cache s)), map_app.
      apply in_or_app. now right.
    + now apply dict_get_last.
Qed.

(** X17: With caching on, embedding a text a second time returns the vector
    of the first call from the cache: the second call reads the cache
    and does nothing else. *)
Theorem embed_text_again (s : Service) (text : str) :
  _cache_enabled s = true ->
  NoDup (keys (_cache s)) ->
  let first := embed_text text s in
  embed_text text (snd first)
  = (fst first, logged (snd first) [CacheRead (cache_key text)]).
Proof.
  intros Hen Hnd first. apply embed_text_hit. now apply embed_text_cached.
Qed.

(** X18: From a new service, whatever texts [embed_text] is called on and in
    whatever order, the cache never holds more than 10000 entries, and
    no key twice. *)
Theorem embed_text_cache_ceiling (settings : Settings) (texts : list str) :
  let s := after_calls texts (init settings) in
  (Z.of_nat (List.length (_cache s)) <= 10000)%Z /\ NoDup (keys (_cache s)).
Proof.
  cbv zeta. unfold FullCache.after_calls.
  assert (H : forall s,
             NoDup (keys (_cache s)) ->
             (Z.of_nat (List.length (_cache s)) <= 10000)%Z ->
             let s' := fold_left (fun s text => snd (embed_text text s)) texts s in
             (Z.of_nat (List.length (_cache s')) <= 10000)%Z /\
             NoDup (keys (_cache s'))).
  { induction texts as [|t ts IH]; intros s Hnd Hlen; simpl; [now split|].
    destruct (@embed_text_cache_bounded md5_hexdigest load_model s t Hnd Hlen)
      as [Hnd' Hlen'].
    now apply IH. }
  apply H; simpl; [constructor | lia].
Qed.

(** X19: The eviction is first in, first out: when the cache holds 10000
    entries and a text misses, the 5000 entries that were written first
    go, used or not, and the new entry comes last. *)
Theorem embed_text_evicts_oldest (s : Service) (text : str) :
  _cache_enabled s = true ->
  NoDup (keys (_cache s)) ->
  List.length (_cache s) = Z.to_nat 10000 ->
  lookup s text = None ->
  _cache (snd (embed_text text s))
  = skipn (Z.to_nat 5000) (_cache s)
    ++ [(cache_key text, encode_text (model_of s) text)].
Proof.
  intros Hen Hnd Hlen Hmiss.
  rewrite embed_text_cache by assumption. rewrite Hmiss, Hen. cbv zeta.
  rewrite length_app, Hlen. simpl List.length.
  replace (10000 <? Z.of_nat (Z.to_nat 10000 + 1))%Z with true
    by (symmetry; apply Z.ltb_lt; lia).
  rewrite skipn_app, Hlen.
  replace (Z.to_nat 5000 - Z.to_nat 10000) with 0 by lia.
  reflexivity.
Qed.

End CacheOfEmbedText.

(* ================================================================== *)
(** * More on [compute_similarity] *)
(* ================================================================== *)

Section SimilaritySymmetry.

Import EmbeddingService EmbeddingSpec.
Import PrimFloat.




(** X21: The similarity of a vector of zeros, of either sign, with any vector
    of the same length is 0.0; two empty vectors have similarity 0.0. *)
Theorem compute_similarity_of_zeros (a b : Vector) :
  Forall signed_zero a ->
  List.length a = List.length b ->
  compute_similarity a b = Returns 0%float /\
  compute_similarity b a = Returns 0%float.
Proof.
  intros Ha Hlen. unfold compute_similarity, np_dot.
  rewrite Hlen, Nat.eqb_refl, (norm_of_zeros Ha).
  split; [reflexivity | now rewrite orb_true_r].
Qed.

Lemma compute_similarity_of_zeros_witness :
  compute_similarity [0; (-0)]%float [3; 4]%float = Returns 0%float /\
  compute_similarity [3; 4]%float [0; (-0)]%float = Returns 0%float.
Proof.
  apply (@compute_similarity_of_zeros [0; (-0)]%float [3; 4]%float).
  - constructor; [left; reflexivity|].
    constructor; [right; reflexivity | constructor].
  - reflexivity.
Defined.

End SimilaritySymmetry.

(* ================================================================== *)
(** * The cache and the calls on sample collaborators *)
(* ================================================================== *)

Section CallSamples.

Import Py EmbeddingService EmbeddingSpec EmbeddingRun FullCache.

Lemma sample_model_batch_sized : batch_sized sample_model.
Proof. intros texts batch_size. apply length_map. Defined.

Lemma embed_texts_trace_witness :
  trace (snd (embed_texts sample_digest sample_load
                          [lit "a"; lit "b"; lit "a"] 32 warm_service))
  = [ LoadModel (EMBEDDING_MODEL default_settings);
      CacheRead (lit "a"); CacheRead (lit "b"); CacheRead (lit "a");
      EncodeBatch [lit "a"; lit "a"] 32;
      CacheWrite (lit "a"); CacheWrite (lit "a") ].
Proof.
  pose proof (@embed_texts_trace sample_digest sample_load warm_service
                [lit "a"; lit "b"; lit "a"] 32 sample_model_batch_sized) as H.
  rewrite H. vm_compute. reflexivity.
Defined.

Lemma embed_texts_again_witness :
  let s1 := snd (embed_texts sample_digest sample_load
                             [lit "a"; lit "b"; lit "a"] 32 warm_service) in
  trace (snd (embed_texts sample_digest sample_load
                          [lit "a"; lit "b"; lit "a"] 32 s1))
  = trace s1 ++ [CacheRead (lit "a"); CacheRead (lit "b"); CacheRead (lit "a")].
Proof.
  apply (@embed_texts_again sample_digest sample_load warm_service
           [lit "a"; lit "b"; lit "a"] 32 sample_model_batch_sized).
  reflexivity.
Defined.

Lemma embed_text_again_witness :
  let first := embed_text sample_digest sample_load (lit "a") warm_service in
  embed_text sample_digest sample_load (lit "a") (snd first)
  = (fst first, logged (snd first) [CacheRead (lit "a")]).
Proof.
  apply (@embed_text_again sample_digest sample_load warm_service (lit "a")).
  - reflexivity.
  - repeat constructor. intros [].
Defined.

(** ** A cache of ten thousand entries *)

Lemma many_texts_last :
  many_texts = firstn (Z.to_nat 10000) many_texts ++ [new_text].
Proof.
  unfold many_texts, new_text.
  replace (Z.to_nat 10001) with (S (Z.to_nat 10000)) by lia.
  generalize (Z.to_nat 10000) as n. intros n.
  rewrite seq_S, map_app. cbn [map Nat.add].
  rewrite firstn_app, length_map, length_seq, Nat.sub_diag.
  cbn [firstn]. rewrite app_nil_r.
  rewrite firstn_all2 by (rewrite length_map, length_seq; lia).
  reflexivity.
Qed.

Lemma full_service_keys :
  keys (_cache full_service)
  = map (_get_cache_key sample_digest) (firstn (Z.to_nat 10000) many_texts).
Proof. unfold keys, full_service. cbn [_cache]. rewrite map_map. reflexivity. Qed.

Lemma full_service_distinct : NoDup (keys (_cache full_service)).
Proof.
  rewrite full_service_keys.
  pose proof many_texts_distinct_keys as H.
  rewrite many_texts_last, map_app in H.
  now apply NoDup_app_remove_r in H.
Qed.

Lemma full_service_length : List.length (_cache full_service) = Z.to_nat 10000.
Proof.
  unfold full_service. cbn [_cache].
  rewrite length_map, length_firstn.
  unfold many_texts. rewrite length_map, length_seq. lia.
Qed.

Lemma new_text_missing :
  lookup sample_digest full_service new_text = None.
Proof.
  unfold lookup. cbn [_cache_enabled full_service].
  apply (dict_get_none sample_load). rewrite full_service_keys.
  pose proof many_texts_distinct_keys as H.
  rewrite many_texts_last, map_app in H.
  apply NoDup_remove_2 in H. rewrite app_nil_r in H. exact H.
Qed.

Lemma embed_text_evicts_oldest_witness :
  _cache (snd (embed_text sample_digest sample_load new_text full_service))
  = skipn (Z.to_nat 5000) (_cache full_service)
    ++ [(_get_cache_key sample_digest new_text,
         encode_text (model_of sample_load full_service) new_text)].
Proof.
  apply (@embed_text_evicts_oldest sample_digest sample_load full_service new_text).
  - reflexivity.
  - exact full_service_distinct.
  - exact full_service_length.
  - exact new_text_missing.
Defined.

End CallSamples.

(* ================================================================== *)
(** * The batches of [upsert_vectors] *)
(* ================================================================== *)

Section UpsertBatches.

Import Py PineconeService UpsertSpec.

Variable connect : str -> str -> Index.
Variable index : Index.
Variable namespace : str.
Variable upsert_data : list UpsertItem.

Hypothesis index_answers : answers index.

Lemma slice_next (i : nat) :
  list_slice upsert_data i (i + batch_size) ++ skipn (i + batch_size) upsert_data
  = skipn i upsert_data.
Proof.
  unfold list_slice. replace (i + batch_size - i) with batch_size by lia.
  rewrite Nat.add_comm, <- skipn_skipn. apply firstn_skipn.
Qed.

Lemma slice_length (i : nat) :
  List.length (list_slice upsert_data i (i + batch_size))
  = Nat.min batch_size (List.length upsert_data - i).
Proof.
  unfold list_slice. replace (i + batch_size - i) with batch_size by lia.
  now rewrite length_firstn, length_skipn.
Qed.

(** The loop from offset [i] on: the batches are what is left of the
    data, in order. *)
Lemma upsert_batches_from (fuel : nat) :
  forall i total_upserted s,
    List.length upsert_data - i <= fuel ->
    exists batches,
      upsert_batches index namespace upsert_data
                     (range_from fuel i (List.length upsert_data) batch_size)
                     total_upserted s
      = (Ok (total_upserted + total (map (reported index namespace) batches))%Z,
         sent s namespace batches) /\
      List.concat batches = skipn i upsert_data /\
      Forall (fun b => 0 < List.length b <= batch_size) batches /\
      full_but_last batches /\
      (batches = [] <-> List.length upsert_data <= i).
Proof.
  induction fuel as [|f IH]; intros i total_upserted s Hfuel.
  - exists []. simpl. rewrite Z.add_0_r, skipn_all2 by lia.
    repeat split; try constructor; intros; lia.
  - cbn [range_from]. destruct (Nat.ltb_spec i (List.length upsert_data)) as [Hlt | Hge].
    + cbn [upsert_batches].
      set (batch := list_slice upsert_data i (i + batch_size)).
      destruct (index_upsert index batch namespace) as [count|] eqn:Hcount;
        [|now apply index_answers in Hcount].
      destruct (IH (i + batch_size) (total_upserted + count)%Z
                   (called s (Upsert batch namespace)))
        as (rest & Hrun & Hcat & Hsizes & Hfull & Hnil).
      { unfold batch_size. lia. }
      exists (batch :: rest). rewrite Hrun. split.
      * f_equal. f_equal. unfold total. cbn [map fold_right].
        unfold reported at 2. rewrite Hcount. lia.
      * split; [cbn [List.concat]; rewrite Hcat; apply slice_next|].
        pose proof (slice_length i) as Hlen. fold batch in Hlen.
        split; [constructor; [unfold batch_size in *; lia | exact Hsizes]|].
        split; [|split; [discriminate | lia]].
        cbn [full_but_last]. destruct rest as [|b rest']; [exact I|].
        split; [|exact Hfull].
        assert (Hmore : ~ List.length upsert_data <= i + batch_size)
          by (intros Hle; apply Hnil in Hle; discriminate).
        unfold batch_size in *. lia.
    + exists []. simpl. rewrite Z.add_0_r, skipn_all2 by lia.
      repeat split; try constructor; intros; lia.
Qed.

End UpsertBatches.

Section UpsertVectors.

Import Py PineconeService UpsertSpec.

Variable connect : str -> str -> Index.

(** X22: When the index is there and answers, [upsert_vectors] sends every
    vector exactly once and in order: the batches, put end to end, are
    the prepared vectors; no batch is empty or holds more than 100
    vectors, and every batch but the last holds 100.  All go to the
    given namespace, or to the default one when none or an empty one is
    given, and the result is the sum of the counts that the index
    reports. *)
Theorem upsert_vectors_batches (settings : StoreSettings)
        (vectors : list VectorInput) (namespace : option str)
        (s s1 : Service) (index : Index) :
  _get_index connect settings s = (Ok index, s1) ->
  answers index ->
  exists batches,
    let target := or_default namespace (PINECONE_NAMESPACE settings) in
    upsert_vectors connect settings vectors namespace s
    = (Ok (total (map (reported index target) batches)),
       sent (match vectors with [] => s | _ :: _ => s1 end) target batches) /\
    List.concat batches = map prepare vectors /\
    Forall (fun b => 0 < List.length b <= batch_size) batches /\
    full_but_last batches.
Proof.
  intros Hindex Hanswers. destruct vectors as [|v vs].
  - exists []. repeat split; constructor.
  - unfold upsert_vectors. rewrite Hindex. unfold range.
    destruct (@upsert_batches_from index
                (or_default namespace (PINECONE_NAMESPACE settings))
                (map prepare (v :: vs)) Hanswers
                (List.length (map prepare (v :: vs))) 0 0%Z s1)
      as (batches & Hrun & Hcat & Hsizes & Hfull & _); [lia|].
    exists batches. cbv zeta. rewrite Hrun. simpl skipn in Hcat.
    repeat split; assumption.
Qed.

End UpsertVectors.

Section UpsertSamples.

Import Py PineconeService UpsertSpec.

Lemma sample_index_answers : answers sample_index.
Proof. intros batch namespace. discriminate. Defined.

Lemma upsert_vectors_batches_witness :
  exists batches,
    upsert_vectors (fun _ _ => sample_index) default_store_settings
                   (map sample_vector (List.seq 0 250)) None sample_store
    = (Ok (total (map (reported sample_index (lit "default")) batches)),
       sent sample_store (lit "default") batches) /\
    List.concat batches = map prepare (map sample_vector (List.seq 0 250)) /\
    Forall (fun b => 0 < List.length b <= batch_size) batches /\
    full_but_last batches.
Proof.
  apply (@upsert_vectors_batches (fun _ _ => sample_index) default_store_settings
           (map sample_vector (List.seq 0 250)) None sample_store sample_store
           sample_index).
  - reflexivity.
  - exact sample_index_answers.
Defined.

(** Two hundred and fifty vectors go in batches of 100, 100 and 50. *)
Example upsert_vectors_250 :
  let run := upsert_vectors (fun _ _ => sample_index) default_store_settings
                            (map sample_vector (List.seq 0 250)) None sample_store in
  fst run = Ok 250%Z /\
  map (fun c => match c with
                | Upsert batch _ => List.length batch
                | Connect _ _ => 0
                end) (calls (snd run))
  = [100; 100; 50].
Proof. vm_compute. split; reflexivity. Qed.

End UpsertSamples.

(* ================================================================== *)
(** * Lists written with commas are read back *)
(* ================================================================== *)

Section ConfigLists.

Import Py Text Config.

Lemma split_comma_whole (x : str) :
  forall cur,
    Forall (fun c => is_comma c = false) x -> split_comma x cur = [rev cur ++ x].
Proof.
  induction x as [|c t IH]; intros cur Hx; simpl.
  - now rewrite app_nil_r.
  - apply Forall_cons_iff in Hx. destruct Hx as [Hc Ht].
    rewrite Hc, IH by exact Ht. simpl. now rewrite <- app_assoc.
Qed.

Lemma split_comma_item (x s : str) :
  forall cur,
    Forall (fun c => is_comma c = false) x ->
    split_comma (x ++ COMMA :: s) cur = (rev cur ++ x) :: split_comma s [].
Proof.
  induction x as [|c t IH]; intros cur Hx; simpl.
  - change (is_comma COMMA) with true. cbv iota. now rewrite app_nil_r.
  - apply Forall_cons_iff in Hx. destruct Hx as [Hc Ht].
    rewrite Hc, IH by exact Ht. simpl. now rewrite <- app_assoc.
Qed.

Lemma plain_strip (x : str) : plain x -> strip x = x.
Proof. intros [_ [-> | Hx]]; [reflexivity | now apply strip_trimmed_id]. Qed.

Lemma plain_strip_after_space (x : str) : plain x -> strip (SPACE :: x) = x.
Proof.
  intros Hx. unfold strip. change (lstrip (SPACE :: x)) with (lstrip x).
  now apply plain_strip.
Qed.

(** The pieces of a joined list: the first item, and every other item
    after the space that follows the comma. *)
Lemma split_comma_join (items : list str) :
  items <> [] ->
  Forall plain items ->
  forall cur,
    exists first rest,
      split_comma (join items) cur = (rev cur ++ first) :: map (cons SPACE) rest /\
      items = first :: rest.
Proof.
  induction items as [|x items IH]; intros Hne Hall cur; [contradiction|].
  apply Forall_cons_iff in Hall. destruct Hall as [[Hx _] Hall].
  destruct items as [|y items].
  - exists x, []. simpl. now rewrite split_comma_whole.
  - change (join (x :: y :: items)) with (x ++ COMMA :: SPACE :: join (y :: items)).
    rewrite split_comma_item by exact Hx.
    cbn [split_comma]. change (is_comma SPACE) with false. cbv iota.
    destruct (IH ltac:(discriminate) Hall [SPACE]) as (first & rest & Hsplit & E).
    rewrite Hsplit. injection E as E1 E2. subst first rest.
    exists x, (y :: items). split; reflexivity.
Qed.

(** X23: A list that is written with a comma and a space between its items
    is read back item by item: as it was by [parse_cors_origins], and in
    lower case by [parse_file_types] and [parse_pii_categories]; the
    items hold no comma and no white space at either end.  A list given
    as a list is taken as it is. *)
Theorem parse_lists_read_back (items : list str) :
  items <> [] ->
  Forall plain items ->
  parse_cors_origins (RawStr (join items)) = items /\
  parse_file_types (RawStr (join items)) = map FileType.lower items /\
  parse_pii_categories (RawStr (join items)) = map FileType.lower items /\
  parse_cors_origins (RawList items) = items.
Proof.
  intros Hne Hall.
  destruct (split_comma_join Hne Hall []) as (first & rest & Hsplit & ->).
  apply Forall_cons_iff in Hall. destruct Hall as [Hfirst Hrest].
  assert (Hstrip : map strip (first :: map (cons SPACE) rest) = first :: rest).
  { cbn [map]. rewrite (plain_strip Hfirst). f_equal.
    rewrite map_map. rewrite <- (map_id rest) at 2.
    apply map_ext_in. intros y Hy. apply plain_strip_after_space.
    rewrite Forall_forall in Hrest. now apply Hrest. }
  assert (Hlow : map (fun ft => FileType.lower (strip ft))
                     (first :: map (cons SPACE) rest)
                 = map FileType.lower (first :: rest)).
  { rewrite <- (map_map strip FileType.lower). now rewrite Hstrip. }
  unfold parse_cors_origins, parse_file_types, parse_pii_categories.
  rewrite Hsplit. cbn [rev app].
  change (fun origin : str => strip origin) with strip.
  rewrite Hstrip, Hlow. repeat split; reflexivity.
Qed.

Lemma parse_lists_read_back_witness :
  parse_cors_origins
    (RawStr (lit "http://localhost:3000, http://localhost:8080"))
  = [lit "http://localhost:3000"; lit "http://localhost:8080"].
Proof.
  refine (proj1 (@parse_lists_read_back
                   [lit "http://localhost:3000"; lit "http://localhost:8080"]
                   _ _)).
  - discriminate.
  - repeat constructor; right; split; reflexivity.
Defined.

(** An empty setting is read as one empty item, not as no item. *)
Example parse_empty_string :
  parse_cors_origins (RawStr []) = [[]] /\
  parse_file_types (RawStr (lit " PDF ,Docx,")) = [lit "pdf"; lit "docx"; []].
Proof. vm_compute. split; reflexivity. Qed.

End ConfigLists.
